(** * Streaming transcript assembly of the chat front end

    A shallow embedding of [frontend/src/pages/Chat.tsx] (the [Chat]
    component: [handleSend], [startNew], [loadSession], [uniqueSessions] and
    the assistant-message rendering) and of the streaming client
    [sendChatMessage] of [frontend/src/lib/api], followed by the properties
    proved about them.

    Conventions of the embedding.
    - A JavaScript string is the list of its UTF-16 code units ([jsstring]);
      [length] is therefore the JavaScript [.length].
    - A value produced by [JSON.parse] is a [JsValue]; a number keeps the
      lexeme it was read from, and the two places where the value of a number
      matters (string conversion and truthiness) go through [NumberOps],
      over which everything is stated.
    - The built-ins the code calls are modelled after their specifications:
      [TextDecoder] after the UTF-8 decoder of the Encoding Standard,
      [JSON.parse] after the JSON grammar, [Array.prototype.sort] as the
      stable sort, [String.prototype.trim], [split] and [substring] on code
      units.
    - Mutable component state ([useState] cells and [useRef] cells) is one
      record, [ChatState], passed explicitly.  In module [Chat] a [setState]
      call is applied when it is issued, in issue order, and a handler reads
      the state as it then is: the component as it is when React renders
      after every invocation.  React runs the functions handed to
      [setMessages] no earlier and possibly later, at the next render, and
      the one of [onAIChunk] reads [aiBufferRef] when it runs.  Module
      [Deferred] therefore queues these functions until a render, and module
      [Scheduled] runs a send against a schedule of invocations and renders.
      What is stated about the text of an assistant message is stated there;
      [Chat.handleSend] is the send in which React renders after the last
      delta and before [onComplete] ([after_send_in_time]).
    - The network is an input: what [fetch] resolves to and what the body
      reader yields is described by a [FetchResult].  An [async] function is
      either run to its end against such an input ([handleSend]), or cut at
      its [await]s into the actions of a transition system ([act], [run])
      when other handlers run in between.

    The file has three parts: the embedding (modules [Js], [TextDecoder],
    [Json], [Api], [Chat], [Deferred], [Scheduled]), the notions the
    statements are written with (module [Notions]), and the proofs.

    The embedding goes on, after [Notions], with what the page does around
    the transcript: the send button and the key handler ([ChatControls]),
    the list of sessions in the side bar ([Sidebar]), the component that
    shows a tool result ([ToolOutputView], from
    [frontend/src/components/ToolOutput.tsx]), the wrapping of bare URLs
    that [MarkdownMessage] applies to a text ([MarkdownLinks], from
    [frontend/src/components/MarkdownMessage.tsx]) and the upload dialog
    ([UploadModal]), each followed by its notions; their proofs come last.
    [JSON.stringify], [String.prototype.toLowerCase] and the [TypeError] of
    reading from [null] are parameters ([JsonOps], [Engine]), like the
    value of a number.  React's refusal of an object among the children of
    an element is modelled where the component hands it values of the
    stream ([valid_child]). *)

From Stdlib Require Import String Ascii Strings.Byte.
From Stdlib Require Import NArith ZArith Bool Arith Lia.
From Stdlib Require Import List Sorted Permutation DecimalString.
Import ListNotations.

Set Implicit Arguments.
Set Warnings "-register-all".
Set Warnings "-automation".

(* ================================================================== *)
(** * JavaScript values *)
(* ================================================================== *)

Module Js.

(** A string is a sequence of UTF-16 code units. *)
Definition jsstring := list N.

(** An ASCII literal as a JavaScript string. *)
Definition lit (s : string) : jsstring :=
  map N_of_ascii (list_ascii_of_string s).

Definition str_eqb (a b : jsstring) : bool :=
  if list_eq_dec N.eq_dec a b then true else false.

(** [WhiteSpace] and [LineTerminator] code points, the ones
    [String.prototype.trim] strips. *)
Definition is_space (c : N) : bool :=
  ((9 <=? c) && (c <=? 13) || (c =? 32) || (c =? 160) || (c =? 5760)
   || (8192 <=? c) && (c <=? 8202) || (c =? 8232) || (c =? 8233)
   || (c =? 8239) || (c =? 8287) || (c =? 12288) || (c =? 65279))%N.

Fixpoint trim_start (s : jsstring) : jsstring :=
  match s with
  | c :: r => if is_space c then trim_start r else s
  | [] => []
  end.

(** [s.trim()] *)
Definition trim (s : jsstring) : jsstring :=
  rev (trim_start (rev (trim_start s))).

(** Truthiness of a string: non-empty. *)
Definition nonempty (s : jsstring) : bool :=
  match s with [] => false | _ => true end.

(** [s.split('\n')]: never empty; the last element is what follows the last
    newline. *)
Fixpoint split_nl (s : jsstring) : list jsstring :=
  match s with
  | [] => [[]]
  | c :: r =>
      if (c =? 10)%N then [] :: split_nl r
      else match split_nl r with
           | l :: ls => (c :: l) :: ls
           | [] => [[c]]
           end
  end.

(** [s.substring(i, j)] for [i <= j] and [s.substring(i)]; indices past the
    end are clamped to the length, as [substring] does. *)
Definition substring (s : jsstring) (i j : nat) : jsstring :=
  firstn (j - i) (skipn i s).

Definition substring_from (s : jsstring) (i : nat) : jsstring := skipn i s.

(** [arr.pop()]: the array without its last element, and that element. *)
Definition pop {A : Type} (l : list A) : list A * option A :=
  match rev l with
  | [] => ([], None)
  | x :: r => (rev r, Some x)
  end.

(** What [JSON.parse] returns, plus [undefined] for an absent property. *)
Inductive JsValue : Type :=
| VUndefined
| VNull
| VBool (b : bool)
| VNumber (lexeme : jsstring)
| VString (s : jsstring)
| VArray (items : list JsValue)
| VObject (props : list (jsstring * JsValue)).

(** The value of a number read from JSON: its string form
    ([Number::toString]) and whether it is truthy (neither zero nor NaN). *)
Class NumberOps : Type := {
  num_to_string : jsstring -> jsstring;
  num_truthy : jsstring -> bool
}.

(** Own property of an object built by [JSON.parse]; a repeated key holds
    the value written last. *)
Fixpoint own_prop (props : list (jsstring * JsValue)) (k : jsstring)
  : option JsValue :=
  match props with
  | [] => None
  | (k', v) :: r =>
      match own_prop r k with
      | Some w => Some w
      | None => if str_eqb k' k then Some v else None
      end
  end.

(** [v.k] for a key [k] that no built-in prototype defines (here: [type],
    [content], [tool_name]).  [None] is the [TypeError] raised on [null]
    and [undefined]. *)
Definition get (v : JsValue) (k : jsstring) : option JsValue :=
  match v with
  | VUndefined | VNull => None
  | VObject props =>
      match own_prop props k with
      | Some w => Some w
      | None => Some VUndefined
      end
  | _ => Some VUndefined
  end.

(** [v === 'literal'] *)
Definition is_str (v : JsValue) (s : jsstring) : bool :=
  match v with
  | VString t => str_eqb t s
  | _ => false
  end.

Section WithNumbers.
Context {NO : NumberOps}.

(** ToBoolean *)
Definition truthy (v : JsValue) : bool :=
  match v with
  | VUndefined | VNull => false
  | VBool b => b
  | VNumber n => num_truthy n
  | VString s => nonempty s
  | VArray _ | VObject _ => true
  end.

(** [a || b] *)
Definition or_else (a b : JsValue) : JsValue := if truthy a then a else b.

Fixpoint join_with (sep : jsstring) (parts : list jsstring) : jsstring :=
  match parts with
  | [] => []
  | [p] => p
  | p :: r => p ++ sep ++ join_with sep r
  end.

(** ToString, as applied by [s += v]: an array joins its elements with
    commas ([null] and [undefined] elements are empty), a plain object is
    ["[object Object]"]. *)
Fixpoint to_string (v : JsValue) : jsstring :=
  match v with
  | VUndefined => lit "undefined"
  | VNull => lit "null"
  | VBool true => lit "true"
  | VBool false => lit "false"
  | VNumber n => num_to_string n
  | VString s => s
  | VArray items =>
      join_with (lit ",")
        (map (fun x => match x with
                       | VUndefined | VNull => []
                       | _ => to_string x
                       end) items)
  | VObject _ => lit "[object Object]"
  end.

End WithNumbers.

(** [Array.prototype.sort(cmp)]: the sort is stable, so for a comparator
    that is a consistent ordering its result is the stable insertion of each
    element; [cmp a b > 0] means [a] goes after [b]. *)
Section Sort.
Variable A : Type.
Variable cmp : A -> A -> Z.

Fixpoint insert_sorted (x : A) (l : list A) : list A :=
  match l with
  | [] => [x]
  | y :: r => if (cmp x y <=? 0)%Z then x :: l else y :: insert_sorted x r
  end.

Fixpoint sort (l : list A) : list A :=
  match l with
  | [] => []
  | x :: r => insert_sorted x (sort r)
  end.
End Sort.

End Js.
Import Js.

(* ================================================================== *)
(** * [TextDecoder]: streaming UTF-8 decoding *)
(* ================================================================== *)

(** [new TextDecoder()] decodes UTF-8 with error mode "replacement" and
    strips one leading byte order mark.  [decode(value, {stream:true})]
    keeps the state of an unfinished sequence for the next call; the state
    and the per-byte handler below are those of the Encoding Standard's
    UTF-8 decoder. *)
Module TextDecoder.

Record Utf8State : Type := {
  code_point : N;
  bytes_seen : N;
  bytes_needed : N;
  lower_boundary : N;
  upper_boundary : N
}.

Definition utf8_init : Utf8State :=
  {| code_point := 0; bytes_seen := 0; bytes_needed := 0;
     lower_boundary := 128; upper_boundary := 191 |}.

Definition replacement : N := 65533.

(** A byte read when no sequence is in progress. *)
Definition lead_byte (b : N) : Utf8State * list N :=
  if (b <=? 127)%N then (utf8_init, [b])
  else if ((194 <=? b) && (b <=? 223))%N then
    ({| code_point := N.land b 31; bytes_seen := 0; bytes_needed := 1;
        lower_boundary := 128; upper_boundary := 191 |}, [])
  else if ((224 <=? b) && (b <=? 239))%N then
    ({| code_point := N.land b 15; bytes_seen := 0; bytes_needed := 2;
        lower_boundary := if (b =? 224)%N then 160 else 128;
        upper_boundary := if (b =? 237)%N then 159 else 191 |}, [])
  else if ((240 <=? b) && (b <=? 244))%N then
    ({| code_point := N.land b 7; bytes_seen := 0; bytes_needed := 3;
        lower_boundary := if (b =? 240)%N then 144 else 128;
        upper_boundary := if (b =? 244)%N then 143 else 191 |}, [])
  else (utf8_init, [replacement]).

(** One byte through the decoder: the new state and the scalar values it
    emits.  A byte that cannot continue the sequence in progress ends it
    with U+FFFD and is then read again as a lead byte. *)
Definition utf8_step (st : Utf8State) (b : N) : Utf8State * list N :=
  if (bytes_needed st =? 0)%N then lead_byte b
  else if negb ((lower_boundary st <=? b) && (b <=? upper_boundary st))%N then
    let (st', out) := lead_byte b in (st', replacement :: out)
  else
    let cp := N.lor (N.shiftl (code_point st) 6) (N.land b 63) in
    let seen := (bytes_seen st + 1)%N in
    if (seen =? bytes_needed st)%N then (utf8_init, [cp])
    else ({| code_point := cp; bytes_seen := seen;
             bytes_needed := bytes_needed st;
             lower_boundary := 128; upper_boundary := 191 |}, []).

(** A scalar value as UTF-16 code units. *)
Definition utf16 (cp : N) : jsstring :=
  if (cp <=? 65535)%N then [cp]
  else [55296 + (cp - 65536) / 1024; 56320 + (cp - 65536) mod 1024]%N.

Record Decoder : Type := { utf8 : Utf8State; bom_seen : bool }.

Definition fresh : Decoder := {| utf8 := utf8_init; bom_seen := false |}.

(** Serialising the emitted scalar values: the first one of the stream is
    dropped when it is U+FEFF. *)
Fixpoint serialize (seen : bool) (cps : list N) : bool * jsstring :=
  match cps with
  | [] => (seen, [])
  | cp :: r =>
      if negb seen && (cp =? 65279)%N then serialize true r
      else let (seen', out) := serialize true r in (seen', utf16 cp ++ out)
  end.

Definition decode_byte (d : Decoder) (b : byte) : Decoder * jsstring :=
  let (st, cps) := utf8_step (utf8 d) (Byte.to_N b) in
  let (seen, out) := serialize (bom_seen d) cps in
  ({| utf8 := st; bom_seen := seen |}, out).

(** [decoder.decode(value, {stream:true})] *)
Fixpoint decode (d : Decoder) (value : list byte) : Decoder * jsstring :=
  match value with
  | [] => (d, [])
  | b :: r =>
      let (d1, o1) := decode_byte d b in
      let (d2, o2) := decode d1 r in
      (d2, o1 ++ o2)
  end.

End TextDecoder.

(* ================================================================== *)
(** * [JSON.parse] *)
(* ================================================================== *)

Module Json.

Definition is_ws (c : N) : bool :=
  ((c =? 32) || (c =? 9) || (c =? 10) || (c =? 13))%N.

Fixpoint skip_ws (s : jsstring) : jsstring :=
  match s with
  | c :: r => if is_ws c then skip_ws r else s
  | [] => []
  end.

Definition is_digit (c : N) : bool := ((48 <=? c) && (c <=? 57))%N.

Definition hex_val (c : N) : option N :=
  if is_digit c then Some (c - 48)%N
  else if ((97 <=? c) && (c <=? 102))%N then Some (c - 87)%N
  else if ((65 <=? c) && (c <=? 70))%N then Some (c - 55)%N
  else None.

Definition hex4 (a b c d : N) : option N :=
  match hex_val a, hex_val b, hex_val c, hex_val d with
  | Some x, Some y, Some z, Some w => Some (((x * 16 + y) * 16 + z) * 16 + w)%N
  | _, _, _, _ => None
  end.

(** The character a one-letter escape stands for. *)
Definition unescape (e : N) : option N :=
  if (e =? 34)%N then Some 34%N          (* quotation mark *)
  else if (e =? 92)%N then Some 92%N     (* reverse solidus *)
  else if (e =? 47)%N then Some 47%N     (* solidus *)
  else if (e =? 98)%N then Some 8%N      (* b: backspace *)
  else if (e =? 102)%N then Some 12%N    (* f: form feed *)
  else if (e =? 110)%N then Some 10%N    (* n: line feed *)
  else if (e =? 114)%N then Some 13%N    (* r: carriage return *)
  else if (e =? 116)%N then Some 9%N     (* t: tab *)
  else None.

(** The characters of a string after its opening quote, up to the closing
    one; [acc] holds the characters read so far, last first. *)
Fixpoint parse_chars (s : jsstring) (acc : jsstring)
  : option (jsstring * jsstring) :=
  match s with
  | [] => None
  | c :: r =>
      if (c =? 34)%N then Some (rev acc, r)
      else if (c =? 92)%N then
        match r with
        | [] => None
        | e :: r1 =>
            if (e =? 117)%N then
              match r1 with
              | h1 :: h2 :: h3 :: h4 :: r2 =>
                  match hex4 h1 h2 h3 h4 with
                  | Some u => parse_chars r2 (u :: acc)
                  | None => None
                  end
              | _ => None
              end
            else
              match unescape e with
              | Some u => parse_chars r1 (u :: acc)
              | None => None
              end
        end
      else if (c <? 32)%N then None
      else parse_chars r (c :: acc)
  end.

Fixpoint take_digits (s : jsstring) : jsstring * jsstring :=
  match s with
  | c :: r =>
      if is_digit c then let (ds, rest) := take_digits r in (c :: ds, rest)
      else ([], s)
  | [] => ([], [])
  end.

Definition parse_int (s : jsstring) : option (jsstring * jsstring) :=
  match s with
  | c :: r =>
      if (c =? 48)%N then Some ([c], r)
      else if is_digit c then Some (take_digits s)
      else None
  | [] => None
  end.

Definition parse_frac (s : jsstring) : option (jsstring * jsstring) :=
  match s with
  | c :: r =>
      if (c =? 46)%N then
        match take_digits r with
        | ([], _) => None
        | (ds, rest) => Some (c :: ds, rest)
        end
      else Some ([], s)
  | [] => Some ([], [])
  end.

Definition parse_exp (s : jsstring) : option (jsstring * jsstring) :=
  match s with
  | c :: r =>
      if ((c =? 101) || (c =? 69))%N then
        let (sign, r1) :=
          match r with
          | g :: r' => if ((g =? 43) || (g =? 45))%N then ([g], r') else ([], r)
          | [] => ([], r)
          end in
        match take_digits r1 with
        | ([], _) => None
        | (ds, rest) => Some (c :: sign ++ ds, rest)
        end
      else Some ([], s)
  | [] => Some ([], [])
  end.

(** A number; the value returned is its lexeme. *)
Definition parse_number (s : jsstring) : option (jsstring * jsstring) :=
  let (sign, s1) :=
    match s with
    | c :: r => if (c =? 45)%N then ([c], r) else ([], s)
    | [] => ([], s)
    end in
  match parse_int s1 with
  | None => None
  | Some (i, s2) =>
      match parse_frac s2 with
      | None => None
      | Some (f, s3) =>
          match parse_exp s3 with
          | None => None
          | Some (e, s4) => Some (sign ++ i ++ f ++ e, s4)
          end
      end
  end.

(** [s] without the prefix [p], when it starts with it. *)
Fixpoint strip_prefix (p s : jsstring) : option jsstring :=
  match p, s with
  | [], _ => Some s
  | a :: p', b :: s' => if (a =? b)%N then strip_prefix p' s' else None
  | _ :: _, [] => None
  end.

Fixpoint parse_value (fuel : nat) (s : jsstring)
  : option (JsValue * jsstring) :=
  match fuel with
  | O => None
  | S f =>
      match skip_ws s with
      | [] => None
      | c :: r =>
          if (c =? 123)%N then
            match skip_ws r with
            | d :: r' =>
                if (d =? 125)%N then Some (VObject [], r')
                else parse_members f r []
            | [] => None
            end
          else if (c =? 91)%N then
            match skip_ws r with
            | d :: r' =>
                if (d =? 93)%N then Some (VArray [], r')
                else parse_elements f r []
            | [] => None
            end
          else if (c =? 34)%N then
            match parse_chars r [] with
            | Some (str, rest) => Some (VString str, rest)
            | None => None
            end
          else if (c =? 116)%N then
            option_map (fun rest => (VBool true, rest))
                       (strip_prefix (lit "true") (c :: r))
          else if (c =? 102)%N then
            option_map (fun rest => (VBool false, rest))
                       (strip_prefix (lit "false") (c :: r))
          else if (c =? 110)%N then
            option_map (fun rest => (VNull, rest))
                       (strip_prefix (lit "null") (c :: r))
          else
            match parse_number (c :: r) with
            | Some (n, rest) => Some (VNumber n, rest)
            | None => None
            end
      end
  end

with parse_elements (fuel : nat) (s : jsstring) (acc : list JsValue)
  : option (JsValue * jsstring) :=
  match fuel with
  | O => None
  | S f =>
      match parse_value f s with
      | None => None
      | Some (v, rest) =>
          match skip_ws rest with
          | c :: r =>
              if (c =? 44)%N then parse_elements f r (v :: acc)
              else if (c =? 93)%N then Some (VArray (rev (v :: acc)), r)
              else None
          | [] => None
          end
      end
  end

with parse_members (fuel : nat) (s : jsstring) (acc : list (jsstring * JsValue))
  : option (JsValue * jsstring) :=
  match fuel with
  | O => None
  | S f =>
      match skip_ws s with
      | q :: r =>
          if (q =? 34)%N then
            match parse_chars r [] with
            | None => None
            | Some (k, rest) =>
                match skip_ws rest with
                | c :: r2 =>
                    if (c =? 58)%N then
                      match parse_value f r2 with
                      | None => None
                      | Some (v, rest2) =>
                          match skip_ws rest2 with
                          | d :: r3 =>
                              if (d =? 44)%N then
                                parse_members f r3 ((k, v) :: acc)
                              else if (d =? 125)%N then
                                Some (VObject (rev ((k, v) :: acc)), r3)
                              else None
                          | [] => None
                          end
                      end
                    else None
                | [] => None
                end
            end
          else None
      | [] => None
      end
  end.

(** [JSON.parse(text)]: [None] is the [SyntaxError].  Every call of the
    parser consumes input before it recurses twice, so twice the length of
    the text bounds the recursion: more fuel changes no result
    (see [JSON_parse_fuel_is_enough]). *)
Definition JSON_parse (text : jsstring) : option JsValue :=
  match parse_value (2 * length text + 2) text with
  | Some (v, rest) =>
      match skip_ws rest with
      | [] => Some v
      | _ :: _ => None
      end
  | None => None
  end.

End Json.

(* ================================================================== *)
(** * The streaming client ([sendChatMessage]) *)
(* ================================================================== *)

Module Api.
Import TextDecoder Json.

Inductive JsError : Type := MkError (message : jsstring).

(** What the network does to one [fetch('/api/chat')]: the promise rejects,
    or it resolves to a response with a status and possibly a body; the
    body's reader yields chunks until it is done or a read rejects. *)
Inductive StreamEnd : Type :=
| Done
| ReadRejects (e : JsError).

Record Body : Type := { chunks : list (list byte); ending : StreamEnd }.

Record Response : Type := { status : N; body : option Body }.

Inductive FetchResult : Type :=
| Rejected (e : JsError)
| Resolved (resp : Response).

(** The requests the front end issues. *)
Inductive Request : Type :=
| PostChat (payload : JsValue)
| GetAllConversations
| PostGetConversation (session_id : jsstring)
| PostDeleteConversation (session_id : jsstring).

(** How an [async] function ends. *)
Inductive Outcome : Type :=
| Returns
| Throws (e : JsError).

Record StreamHandlers (S : Type) : Type := {
  onSessionId : option (JsValue -> S -> S);
  onAIChunk : option (JsValue -> S -> S);
  onToolOutput : option (JsValue -> JsValue -> S -> S);
  onError : option (JsError -> S -> S);
  onComplete : option (S -> S)
}.

Record SendResult (S : Type) : Type := {
  final : S;
  outcome : Outcome
}.

Section Send.
Context {NO : NumberOps} {S : Type}.
Variable h : StreamHandlers S.

(** What calling [fetch] with a request does to the state: the caller's
    account of the requests sent. *)
Variable fetch : Request -> S -> S.

(** [f?.(x)] *)
Definition call1 {X : Type} (f : option (X -> S -> S)) (x : X) (s : S) : S :=
  match f with Some g => g x s | None => s end.

Definition call2 {X Y : Type} (f : option (X -> Y -> S -> S))
  (x : X) (y : Y) (s : S) : S :=
  match f with Some g => g x y s | None => s end.

Definition call0 (f : option (S -> S)) (s : S) : S :=
  match f with Some g => g s | None => s end.

(** [obj.k] once [obj.type] has been read without error. *)
Definition field (obj : JsValue) (k : string) : JsValue :=
  match get obj (lit k) with Some v => v | None => VUndefined end.

(** The [switch (obj.type)] of the read loop. *)
Definition dispatch (obj : JsValue) (s : S) : S :=
  match get obj (lit "type") with
  | None => s
  | Some t =>
      if is_str t (lit "session") then
        call1 (onSessionId h) (field obj "content") s
      else if is_str t (lit "ai") then
        call1 (onAIChunk h) (field obj "content") s
      else if is_str t (lit "tool_start") then s
      else if is_str t (lit "tool") then
        call2 (onToolOutput h) (field obj "content")
              (or_else (field obj "tool_name") (VString (lit "tool"))) s
      else if is_str t (lit "tool_done") then s
      else s
  end.

(** The body of [for (const line of lines)]: blank lines are skipped, and
    whatever the [try] block throws ([SyntaxError] of [JSON.parse],
    [TypeError] of reading [type] from [null]) is caught and ignored. *)
Definition on_line (s : S) (line : jsstring) : S :=
  if negb (nonempty (trim line)) then s
  else match JSON_parse line with
       | None => s
       | Some obj => dispatch obj s
       end.

(** One turn of [while (true)] with [done] false. *)
Definition on_chunk (st : Decoder * jsstring * S) (value : list byte)
  : Decoder * jsstring * S :=
  let '(decoder, buf, s) := st in
  let (decoder', text) := decode decoder value in
  let (lines, last) := pop (split_nl (buf ++ text)) in
  (decoder', match last with Some l => l | None => [] end,
   fold_left on_line lines s).

Definition read_loop (values : list (list byte)) (s : S)
  : Decoder * jsstring * S :=
  fold_left on_chunk values (fresh, [], s).

(** What follows the loop when the reader is done: [if (buf.trim()) ...]. *)
Definition on_residual (buf : jsstring) (s : S) : S :=
  if nonempty (trim buf) then
    match JSON_parse buf with
    | None => s
    | Some obj =>
        match get obj (lit "type") with
        | None => s
        | Some t =>
            if is_str t (lit "ai") then
              call1 (onAIChunk h) (field obj "content") s
            else s
        end
    end
  else s.

(** [sessionId ? { question, session_id: sessionId } : { question }] *)
Definition payload (question : jsstring) (sessionId : JsValue) : JsValue :=
  if truthy sessionId then
    VObject [(lit "question", VString question); (lit "session_id", sessionId)]
  else VObject [(lit "question", VString question)].

Definition sendChatMessage (question : jsstring) (sessionId : JsValue)
  (net : FetchResult) (s : S) : SendResult S :=
  let s0 := fetch (PostChat (payload question sessionId)) s in
  match net with
  | Rejected e => {| final := s0; outcome := Throws e |}
  | Resolved resp =>
      match body resp with
      | None =>
          {| final := s0; outcome := Throws (MkError (lit "No stream body")) |}
      | Some b =>
          let '(_, buf, s1) := read_loop (chunks b) s0 in
          match ending b with
          | ReadRejects e => {| final := s1; outcome := Throws e |}
          | Done =>
              {| final := call0 (onComplete h) (on_residual buf s1);
                 outcome := Returns |}
          end
      end
  end.

End Send.

(** ** The handler invocations of a send, as data *)

Inductive Call : Type :=
| CSessionId (id : JsValue)
| CAIChunk (chunk : JsValue)
| CToolOutput (output toolName : JsValue)
| CError (e : JsError)
| CComplete.

(** Handlers that only write down that they were invoked. *)
Definition recorder : StreamHandlers (list Call) :=
  {| onSessionId := Some (fun id log => log ++ [CSessionId id]);
     onAIChunk := Some (fun chunk log => log ++ [CAIChunk chunk]);
     onToolOutput := Some (fun o n log => log ++ [CToolOutput o n]);
     onError := Some (fun e log => log ++ [CError e]);
     onComplete := Some (fun log => log ++ [CComplete]) |}.

(** Invoking the handler a call names. *)
Definition invoke {S : Type} (h : StreamHandlers S) (s : S) (c : Call) : S :=
  match c with
  | CSessionId id => call1 (onSessionId h) id s
  | CAIChunk chunk => call1 (onAIChunk h) chunk s
  | CToolOutput o n => call2 (onToolOutput h) o n s
  | CError e => call1 (onError h) e s
  | CComplete => call0 (onComplete h) s
  end.

(** The invocations [sendChatMessage] makes, in order. *)
Definition calls {NO : NumberOps} (net : FetchResult) : list Call :=
  final (sendChatMessage recorder (fun _ log => log) [] VNull net []).

(** The lines the read loop iterates over, in order, and the text left in
    [buf] when the loop ends: [on_chunk] without the handling of a line. *)
Definition frame_chunk (st : Decoder * jsstring * list jsstring)
  (value : list byte) : Decoder * jsstring * list jsstring :=
  let '(decoder, buf, acc) := st in
  let (decoder', text) := decode decoder value in
  let (lines, last) := pop (split_nl (buf ++ text)) in
  (decoder', match last with Some l => l | None => [] end, acc ++ lines).

Definition framed_lines (values : list (list byte))
  : list jsstring * jsstring :=
  let '(_, buf, lines) := fold_left frame_chunk values (fresh, [], []) in
  (lines, buf).

End Api.

(* ================================================================== *)
(** * The [Chat] component *)
(* ================================================================== *)

Module Chat.
Import Api.

Inductive Role : Type := user | ai.

Definition role_eqb (a b : Role) : bool :=
  match a, b with
  | user, user | ai, ai => true
  | _, _ => false
  end.

(** An element of [Message.toolCalls].  [insertPosition] is only ever
    written from a string's [length]. *)
Record ToolCall : Type := {
  toolName : JsValue;
  toolOutput : JsValue;
  insertPosition : nat
}.

(** [interface Message]; [toolCalls] is optional. *)
Record Message : Type := {
  type : Role;
  content : jsstring;
  timestamp : Z;
  toolCalls : option (list ToolCall)
}.

(** [interface ConversationItem]; [timestamp] is optional. *)
Record ConversationItem : Type := {
  session_id : jsstring;
  user_message : jsstring;
  ai_message : jsstring;
  conv_timestamp : option Z
}.

(** The state cells ([useState]) and reference cells ([useRef]) of the
    component that the transcript logic reads or writes, together with what
    it has sent ([requests]) and logged with [console.error] ([console]). *)
Record ChatState : Type := {
  messages : list Message;
  input : jsstring;
  sessionId : JsValue;
  allConvs : list ConversationItem;
  loading : bool;
  processingRef : bool;
  aiBufferRef : jsstring;
  requests : list Request;
  console : list JsError
}.

Definition initial : ChatState :=
  {| messages := []; input := []; sessionId := VNull; allConvs := [];
     loading := false; processingRef := false; aiBufferRef := [];
     requests := []; console := [] |}.

Definition setMessages (f : list Message -> list Message) (st : ChatState) :=
  {| messages := f (messages st); input := input st;
     sessionId := sessionId st; allConvs := allConvs st;
     loading := loading st; processingRef := processingRef st;
     aiBufferRef := aiBufferRef st; requests := requests st;
     console := console st |}.

Definition setInput (v : jsstring) (st : ChatState) :=
  {| messages := messages st; input := v;
     sessionId := sessionId st; allConvs := allConvs st;
     loading := loading st; processingRef := processingRef st;
     aiBufferRef := aiBufferRef st; requests := requests st;
     console := console st |}.

Definition setSessionId (v : JsValue) (st : ChatState) :=
  {| messages := messages st; input := input st;
     sessionId := v; allConvs := allConvs st;
     loading := loading st; processingRef := processingRef st;
     aiBufferRef := aiBufferRef st; requests := requests st;
     console := console st |}.

Definition setAllConvs (v : list ConversationItem) (st : ChatState) :=
  {| messages := messages st; input := input st;
     sessionId := sessionId st; allConvs := v;
     loading := loading st; processingRef := processingRef st;
     aiBufferRef := aiBufferRef st; requests := requests st;
     console := console st |}.

Definition setLoading (v : bool) (st : ChatState) :=
  {| messages := messages st; input := input st;
     sessionId := sessionId st; allConvs := allConvs st;
     loading := v; processingRef := processingRef st;
     aiBufferRef := aiBufferRef st; requests := requests st;
     console := console st |}.

Definition set_processingRef (v : bool) (st : ChatState) :=
  {| messages := messages st; input := input st;
     sessionId := sessionId st; allConvs := allConvs st;
     loading := loading st; processingRef := v;
     aiBufferRef := aiBufferRef st; requests := requests st;
     console := console st |}.

Definition set_aiBufferRef (v : jsstring) (st : ChatState) :=
  {| messages := messages st; input := input st;
     sessionId := sessionId st; allConvs := allConvs st;
     loading := loading st; processingRef := processingRef st;
     aiBufferRef := v; requests := requests st;
     console := console st |}.

(** Issuing a request. *)
Definition fetch (r : Request) (st : ChatState) :=
  {| messages := messages st; input := input st;
     sessionId := sessionId st; allConvs := allConvs st;
     loading := loading st; processingRef := processingRef st;
     aiBufferRef := aiBufferRef st; requests := requests st ++ [r];
     console := console st |}.

Definition console_error (e : JsError) (st : ChatState) :=
  {| messages := messages st; input := input st;
     sessionId := sessionId st; allConvs := allConvs st;
     loading := loading st; processingRef := processingRef st;
     aiBufferRef := aiBufferRef st; requests := requests st;
     console := console st ++ [e] |}.

Definition with_content (v : jsstring) (m : Message) : Message :=
  {| type := type m; content := v; timestamp := timestamp m;
     toolCalls := toolCalls m |}.

Definition with_toolCalls (v : list ToolCall) (m : Message) : Message :=
  {| type := type m; content := content m; timestamp := timestamp m;
     toolCalls := Some v |}.

(** ** [loadAll], [loadSession], [startNew], [handleDelete] *)

(** [loadAll()] up to its [await]. *)
Definition loadAll : ChatState -> ChatState := fetch GetAllConversations.

(** [loadAll()] once the request has resolved to [data.conversations || []]. *)
Definition loadAll_resolved (conversations : list ConversationItem)
  : ChatState -> ChatState := setAllConvs conversations.

Definition loadSession (sid : jsstring) : ChatState -> ChatState :=
  fetch (PostGetConversation sid).

(** [loadSession(sid)] once the request has resolved; [now] is the clock. *)
Definition loadSession_resolved (sid : jsstring)
  (conversations : list ConversationItem) (now : Z) (st : ChatState)
  : ChatState :=
  let msgs :=
    flat_map (fun c =>
      [ {| type := user; content := user_message c; timestamp := now;
           toolCalls := None |};
        {| type := ai; content := ai_message c; timestamp := now;
           toolCalls := Some [] |} ]) conversations in
  setSessionId (VString sid) (setMessages (fun _ => msgs) st).

Definition startNew (st : ChatState) : ChatState :=
  loadAll
    (set_processingRef false
       (set_aiBufferRef []
          (setSessionId VNull (setMessages (fun _ => []) st)))).

(** [handleDelete(sid, e)] once the user has confirmed, up to its [await]. *)
Definition handleDelete (sid : jsstring) : ChatState -> ChatState :=
  fetch (PostDeleteConversation sid).

(** [handleDelete(sid, e)] once the request has resolved.  The test
    [sid === sessionId] reads the [sessionId] of the closure, the one of
    the render in which the user clicked ([captured]), not the one the
    component has by now. *)
Definition handleDelete_resolved (captured : JsValue) (sid : jsstring)
  (st : ChatState) : ChatState :=
  if is_str captured sid then startNew st else loadAll st.

(** ** [handleSend] *)

Section Handlers.
Context {NO : NumberOps}.

(** The updater both stream handlers pass to [setMessages]: copy the array,
    and change its last element when that one is an assistant message. *)
Definition update_last_ai (f : Message -> Message) (m : list Message)
  : list Message :=
  match pop m with
  | (arr, Some last) =>
      if role_eqb (type last) ai then arr ++ [f last] else m
  | (_, None) => m
  end.

Definition h_onSessionId (id : JsValue) : ChatState -> ChatState :=
  setSessionId id.

(** The function [onAIChunk] hands to [setMessages] is run here at once,
    so that it finds in [aiBufferRef] the text as the handler has just
    left it; [Deferred.d_onAIChunk] is the handler with its function
    queued. *)
Definition h_onAIChunk (chunk : JsValue) (st : ChatState) : ChatState :=
  let st1 := set_aiBufferRef (aiBufferRef st ++ to_string chunk) st in
  setMessages (update_last_ai (with_content (aiBufferRef st1))) st1.

Definition h_onToolOutput (output toolName : JsValue) (st : ChatState)
  : ChatState :=
  let pos := List.length (aiBufferRef st) in
  setMessages
    (update_last_ai (fun last =>
       with_toolCalls
         (match toolCalls last with Some l => l | None => [] end
          ++ [ {| toolName := toolName; toolOutput := output;
                  insertPosition := pos |} ]) last)) st.

Definition h_onComplete (st : ChatState) : ChatState :=
  loadAll (set_aiBufferRef [] (set_processingRef false (setLoading false st))).

Definition h_onError (e : JsError) (st : ChatState) : ChatState :=
  set_processingRef false (setLoading false (console_error e st)).

Definition handlers : StreamHandlers ChatState :=
  {| onSessionId := Some h_onSessionId;
     onAIChunk := Some h_onAIChunk;
     onToolOutput := Some h_onToolOutput;
     onError := Some h_onError;
     onComplete := Some h_onComplete |}.

(** [!q || loading || processingRef.current] *)
Definition rejects (st : ChatState) : bool :=
  negb (nonempty (trim (input st))) || loading st || processingRef st.

(** [handleSend] from the guard to the call of [sendChatMessage]. *)
Definition handleSend_begin (now : Z) (st : ChatState) : ChatState :=
  let q := trim (input st) in
  setInput []
    (set_aiBufferRef []
       (setMessages (fun m =>
          m ++ [ {| type := user; content := q; timestamp := now;
                    toolCalls := None |};
                 {| type := ai; content := []; timestamp := now;
                    toolCalls := Some [] |} ])
          (setLoading true (set_processingRef true st)))).

(** The [catch] block of [handleSend]. *)
Definition handleSend_catch (e : JsError) (st : ChatState) : ChatState :=
  set_processingRef false (setLoading false (console_error e st)).

(** [handleSend()] run to its end against the network behaviour [net],
    with nothing else happening in between. *)
Definition handleSend (now : Z) (net : FetchResult) (st : ChatState)
  : ChatState :=
  if rejects st then st
  else
    let q := trim (input st) in
    let st1 := handleSend_begin now st in
    let r := sendChatMessage handlers fetch q (sessionId st) net st1 in
    match outcome r with
    | Returns => final r
    | Throws e => handleSend_catch e (final r)
    end.

(** ** The component over time *)

(** Between the [await]s of [handleSend] other handlers of the component
    run.  [in_flight] counts the calls of [sendChatMessage] that have
    neither returned nor thrown. *)
Record Sys : Type := { ui : ChatState; in_flight : nat }.

Inductive Action : Type :=
| Typing (text : jsstring)
| Send (now : Z)
| Deliver (c : Call)
| StreamThrows (e : JsError)
| StartNew
| LoadAll
| LoadAllResolved (conversations : list ConversationItem)
| LoadSession (sid : jsstring)
| LoadSessionResolved (sid : jsstring)
    (conversations : list ConversationItem) (now : Z)
| Delete (sid : jsstring)
| DeleteResolved (captured : JsValue) (sid : jsstring).

Definition on_ui (f : ChatState -> ChatState) (s : Sys) : Sys :=
  {| ui := f (ui s); in_flight := in_flight s |}.

(** One action; [None] when it cannot happen.  A stream in flight invokes
    [onSessionId], [onAIChunk] and [onToolOutput] any number of times and
    then either [onComplete] or throws into the [catch] block;
    [sendChatMessage] has no call of [onError]. *)
Definition act (a : Action) (s : Sys) : option Sys :=
  match a with
  | Typing text => Some (on_ui (setInput text) s)
  | Send now =>
      if rejects (ui s) then Some s
      else
        let q := trim (input (ui s)) in
        Some {| ui := fetch (PostChat (payload q (sessionId (ui s))))
                        (handleSend_begin now (ui s));
                in_flight := S (in_flight s) |}
  | Deliver c =>
      match in_flight s, c with
      | O, _ => None
      | _, CError _ => None
      | S n, CComplete => Some {| ui := h_onComplete (ui s); in_flight := n |}
      | _, _ => Some (on_ui (fun st => invoke handlers st c) s)
      end
  | StreamThrows e =>
      match in_flight s with
      | O => None
      | S n => Some {| ui := handleSend_catch e (ui s); in_flight := n |}
      end
  | StartNew => Some (on_ui startNew s)
  | LoadAll => Some (on_ui loadAll s)
  | LoadAllResolved cs => Some (on_ui (loadAll_resolved cs) s)
  | LoadSession sid => Some (on_ui (loadSession sid) s)
  | LoadSessionResolved sid cs now =>
      Some (on_ui (loadSession_resolved sid cs now) s)
  | Delete sid => Some (on_ui (handleDelete sid) s)
  | DeleteResolved captured sid =>
      Some (on_ui (handleDelete_resolved captured sid) s)
  end.

Fixpoint run (actions : list Action) (s : Sys) : option Sys :=
  match actions with
  | [] => Some s
  | a :: r =>
      match act a s with
      | Some s' => run r s'
      | None => None
      end
  end.

(** The component once mounted: [useEffect(() => { loadAll(); }, [])]. *)
Definition mounted : Sys := {| ui := loadAll initial; in_flight := 0 |}.

End Handlers.

(** ** [uniqueSessions] *)

(** A [Map<string, ConversationItem>]: entries in insertion order. *)
Definition SessionMap := list (jsstring * ConversationItem).

Definition map_has (m : SessionMap) (k : jsstring) : bool :=
  existsb (fun e => str_eqb (fst e) k) m.

(** [map.set(k, v)]: a new key goes last, a known key keeps its place. *)
Fixpoint map_set (m : SessionMap) (k : jsstring) (v : ConversationItem)
  : SessionMap :=
  match m with
  | [] => [(k, v)]
  | (k', v') :: r =>
      if str_eqb k' k then (k', v) :: r else (k', v') :: map_set r k v
  end.

Definition map_values (m : SessionMap) : list ConversationItem := map snd m.

(** [a.timestamp || 0] *)
Definition time_of (c : ConversationItem) : Z :=
  match conv_timestamp c with Some t => t | None => 0%Z end.

Definition uniqueSessions (allConvs : list ConversationItem)
  : list ConversationItem :=
  let map :=
    fold_left (fun m c =>
      if negb (map_has m (session_id c)) then map_set m (session_id c) c
      else m) allConvs [] in
  sort (fun a b => (time_of b - time_of a)%Z) (map_values map).

(** ** Rendering of an assistant message *)

(** What the renderer hands on: a text for [MarkdownMessage], or a tool
    result for [ToolOutput] (React keys are left out). *)
Inductive Segment : Type :=
| MarkdownMessage (content : jsstring)
| ToolOutput (content toolName : JsValue).

(** One turn of [for (let idx = 0; idx < sorted.length; idx++)]. *)
Definition interleave_step (text : jsstring) (acc : list Segment * nat)
  (call : ToolCall) : list Segment * nat :=
  let (segments, last) := acc in
  let segments1 :=
    if last <? insertPosition call then
      let seg := substring text last (insertPosition call) in
      if nonempty (trim seg) then segments ++ [MarkdownMessage seg]
      else segments
    else segments in
  (segments1 ++ [ToolOutput (toolOutput call) (toolName call)],
   insertPosition call).

(** The immediately invoked function that renders [m] when it is not a
    user message. *)
Definition interleave (text : jsstring) (calls : option (list ToolCall))
  : list Segment :=
  match calls with
  | None | Some [] => [MarkdownMessage text]
  | Some calls =>
      let sorted :=
        sort (fun a b =>
                (Z.of_nat (insertPosition a) - Z.of_nat (insertPosition b))%Z)
             calls in
      let (segments, last) :=
        fold_left (interleave_step text) sorted ([], 0) in
      if last <? List.length text then
        let tail := substring_from text last in
        if nonempty (trim tail) then segments ++ [MarkdownMessage tail]
        else segments
      else segments
  end.

Definition render_ai (m : Message) : list Segment :=
  interleave (content m) (toolCalls m).

End Chat.

(* ================================================================== *)
(** * The component when React defers the updaters *)
(* ================================================================== *)

(** [setMessages] is called with a function by the stream handlers.  React
    queues such a function and may run it as late as the next render, and
    the one of [onAIChunk] reads [aiBufferRef.current] when it runs.  [Chat]
    runs every updater when it is queued; here they wait in a queue until
    [render], so that what depends on that choice can be told apart from
    what does not. *)
Module Deferred.
Import Api Chat.

(** A queued updater: given the cells as they are when it runs, the new
    transcript from the old. *)
Definition Updater : Type := ChatState -> list Message -> list Message.

Record Pending : Type := { cells : ChatState; queue : list Updater }.

Definition on_cells (f : ChatState -> ChatState) (p : Pending) : Pending :=
  {| cells := f (cells p); queue := queue p |}.

Definition enqueue (u : Updater) (p : Pending) : Pending :=
  {| cells := cells p; queue := queue p ++ [u] |}.

(** The transcript the queued updaters lead to from [m] when they run with
    the cells [c], in order, each on the result of the one before. *)
Definition run_queue (c : ChatState) (q : list Updater) (m : list Message)
  : list Message :=
  fold_left (fun m' (u : Updater) => u c m') q m.

(** A render runs the queued updaters. *)
Definition render (p : Pending) : Pending :=
  {| cells := setMessages (run_queue (cells p) (queue p)) (cells p);
     queue := [] |}.

Section Handlers.
Context {NO : NumberOps}.

Definition d_onAIChunk (chunk : JsValue) (p : Pending) : Pending :=
  enqueue
    (fun now_cells => update_last_ai (with_content (aiBufferRef now_cells)))
    (on_cells (fun st => set_aiBufferRef (aiBufferRef st ++ to_string chunk) st)
              p).

Definition d_onToolOutput (output toolName : JsValue) (p : Pending)
  : Pending :=
  let pos := List.length (aiBufferRef (cells p)) in
  enqueue
    (fun _ =>
       update_last_ai (fun last =>
         with_toolCalls
           (match toolCalls last with Some l => l | None => [] end
            ++ [ {| toolName := toolName; toolOutput := output;
                    insertPosition := pos |} ]) last))
    p.

(** Invoking a handler; those that queue no function act on the cells. *)
Definition d_invoke (p : Pending) (c : Call) : Pending :=
  match c with
  | CAIChunk chunk => d_onAIChunk chunk p
  | CToolOutput output toolName => d_onToolOutput output toolName p
  | _ => on_cells (fun st => invoke handlers st c) p
  end.

End Handlers.

End Deferred.

(* ================================================================== *)
(** * Notions used in the statements *)
(* ================================================================== *)

Module Notions.
Import TextDecoder Json Api Chat Deferred.

(** The newline-terminated lines of a text, and what follows the last
    newline. *)
Fixpoint lines_rest (s : jsstring) : list jsstring * jsstring :=
  match s with
  | [] => ([], [])
  | c :: r =>
      let (ls, rest) := lines_rest r in
      if (c =? 10)%N then ([] :: ls, rest)
      else match ls with
           | [] => ([], c :: rest)
           | l :: ls' => ((c :: l) :: ls', rest)
           end
  end.

(** The text a whole byte stream decodes to. *)
Definition decoded (bytes : list byte) : jsstring := snd (decode fresh bytes).

Definition is_error (c : Call) : bool :=
  match c with CError _ => true | _ => false end.

Definition is_complete (c : Call) : bool :=
  match c with CComplete => true | _ => false end.

Definition is_tool (c : Call) : bool :=
  match c with CToolOutput _ _ => true | _ => false end.

(** How often a kind of handler was invoked. *)
Definition times (kind : Call -> bool) (cs : list Call) : nat :=
  List.length (filter kind cs).

(** The ids [onSessionId] was invoked with, in order. *)
Definition session_ids (cs : list Call) : list JsValue :=
  flat_map (fun c => match c with CSessionId id => [id] | _ => [] end) cs.

(** What a line of the stream makes the read loop invoke. *)
Definition line_calls {NO : NumberOps} (line : jsstring) : list Call :=
  on_line recorder [] line.

(** The text the deltas of [onAIChunk] invocations add up to. *)
Definition ai_text {NO : NumberOps} (cs : list Call) : jsstring :=
  flat_map (fun c => match c with CAIChunk v => to_string v | _ => [] end) cs.

(** The last element of the transcript. *)
Definition last_message (st : ChatState) : option Message :=
  snd (pop (messages st)).

Definition calls_of (m : Message) : list ToolCall :=
  match toolCalls m with Some l => l | None => [] end.

(** The texts and the tool results of a rendering, each in order. *)
Definition texts (segs : list Segment) : list jsstring :=
  flat_map (fun s => match s with MarkdownMessage c => [c] | _ => [] end) segs.

Definition tools (segs : list Segment) : list (JsValue * JsValue) :=
  flat_map (fun s => match s with ToolOutput c n => [(c, n)] | _ => [] end)
           segs.

(** The pieces a text is cut into at ascending cut points, starting from
    [from]: one piece before each cut point and one after the last. *)
Fixpoint gaps (text : jsstring) (from : nat) (cuts : list nat)
  : list jsstring :=
  match cuts with
  | [] => [substring_from text from]
  | p :: r => substring text from p :: gaps text p r
  end.

Definition blank (s : jsstring) : bool := negb (nonempty (trim s)).

(** The text with the pieces that hold only white space left out. *)
Definition elided (text : jsstring) (cuts : list nat) : jsstring :=
  concat (filter (fun g => negb (blank g)) (gaps text 0 cuts)).

Definition anchor_key (c : ToolCall) : Z := Z.of_nat (insertPosition c).

(** The summaries that are the first of their session id, in input
    order; [seen] holds the ids met so far. *)
Fixpoint first_of_each (seen : list jsstring) (l : list ConversationItem)
  : list ConversationItem :=
  match l with
  | [] => []
  | c :: r =>
      if existsb (str_eqb (session_id c)) seen then first_of_each seen r
      else c :: first_of_each (session_id c :: seen) r
  end.

Definition conv (id : string) (t : option Z) : ConversationItem :=
  {| session_id := lit id; user_message := []; ai_message := [];
     conv_timestamp := t |}.

(** A chunk holding the bytes of an ASCII text. *)
Definition bytes_of (s : string) : list byte := list_byte_of_string s.

(** JSON text written with apostrophes where it has quotation marks. *)
Fixpoint quoted (s : string) : string :=
  match s with
  | EmptyString => EmptyString
  | String c r =>
      String (if Ascii.eqb c (ascii_of_nat 39) then ascii_of_nat 34 else c)
             (quoted r)
  end.

Definition jbytes (s : string) : list byte := bytes_of (quoted s).

Definition jlit (s : string) : jsstring := lit (quoted s).

Definition newline : string := String (ascii_of_nat 10) EmptyString.

(** A response with status 200 whose body yields [values] and ends. *)
Definition stream_of (values : list (list byte)) : FetchResult :=
  Resolved {| status := 200; body := Some {| chunks := values; ending := Done |} |}.

(** The state in which the user has typed [text] into a fresh component. *)
Definition typed (text : string) : ChatState := setInput (lit text) initial.

(** ** The handler invocations of a send *)

(** What the unterminated rest of the stream makes the client invoke. *)
Definition residual_calls {NO : NumberOps} (buf : jsstring) : list Call :=
  on_residual recorder buf [].

(** The invocations of a send: those of the framed lines in order, then,
    when the reader ends, those of the unterminated rest and [onComplete]. *)
Definition events {NO : NumberOps} (values : list (list byte)) (e : StreamEnd)
  : list Call :=
  flat_map line_calls (fst (framed_lines values))
  ++ match e with
     | Done => residual_calls (snd (framed_lines values)) ++ [CComplete]
     | ReadRejects _ => []
     end.

Definition is_data (c : Call) : bool :=
  match c with
  | CSessionId _ | CAIChunk _ | CToolOutput _ _ => true
  | CError _ | CComplete => false
  end.

Definition is_session (c : Call) : bool :=
  match c with CSessionId _ => true | _ => false end.

(** The error a send ends with, if the transport fails: the rejection of
    [fetch], the missing body, or the rejection of a read. *)
Definition thrown (net : FetchResult) : option JsError :=
  match net with
  | Rejected e => Some e
  | Resolved resp =>
      match body resp with
      | None => Some (MkError (lit "No stream body"))
      | Some b =>
          match ending b with
          | Done => None
          | ReadRejects e => Some e
          end
      end
  end.

(** The event tags the read loop knows. *)
Definition known_tag (t : JsValue) : bool :=
  is_str t (lit "session") || is_str t (lit "ai") || is_str t (lit "tool_start")
  || is_str t (lit "tool") || is_str t (lit "tool_done").

(** The id a line carries when it decodes to a [session] event. *)
Definition session_event (line : jsstring) : option JsValue :=
  if blank line then None
  else match JSON_parse line with
       | None => None
       | Some obj =>
           match get obj (lit "type") with
           | Some t => if is_str t (lit "session")
                       then Some (field obj "content") else None
           | None => None
           end
       end.

(** ** The transcript of a send *)

(** What the tool results among [cs] are recorded as when the text
    accumulated before them is [text]: each with the length the text has
    when its turn comes. *)
Fixpoint recorded {NO : NumberOps} (text : jsstring) (cs : list Call)
  : list ToolCall :=
  match cs with
  | [] => []
  | CAIChunk v :: r => recorded (text ++ to_string v) r
  | CToolOutput o n :: r =>
      {| toolName := n; toolOutput := o; insertPosition := List.length text |}
      :: recorded text r
  | _ :: r => recorded text r
  end.

(** The assistant message a send leaves behind: created at [now], holding
    the text and the tool results of the invocations [cs]. *)
Definition assistant_message {NO : NumberOps} (now : Z) (text : jsstring)
  (had : list ToolCall) (cs : list Call) : Message :=
  {| type := ai; content := text ++ ai_text cs; timestamp := now;
     toolCalls := Some (had ++ recorded text cs) |}.

Definition user_message_of (q : jsstring) (now : Z) : Message :=
  {| type := user; content := q; timestamp := now; toolCalls := None |}.

(** ** Rendering *)

(** The comparator of the rendering's sort. *)
Definition anchor_cmp (a b : ToolCall) : Z :=
  (Z.of_nat (insertPosition a) - Z.of_nat (insertPosition b))%Z.

(** What the rendering loop appends for the calls [l] when the previous
    cut point is [from]. *)
Fixpoint woven (text : jsstring) (from : nat) (l : list ToolCall)
  : list Segment :=
  match l with
  | [] => []
  | c :: r =>
      (if from <? insertPosition c then
         if blank (substring text from (insertPosition c)) then []
         else [MarkdownMessage (substring text from (insertPosition c))]
       else [])
      ++ ToolOutput (toolOutput c) (toolName c) :: woven text (insertPosition c) r
  end.

(** ** The session index *)

(** One turn of the loop that fills the map. *)
Definition index_step (m : SessionMap) (c : ConversationItem) : SessionMap :=
  if negb (map_has m (session_id c)) then map_set m (session_id c) c else m.

(** ** The component over time *)

(** At most one send is in flight, and while one is, [loading] is set. *)
Definition one_flight (s : Sys) : Prop :=
  in_flight s <= 1 /\ (in_flight s = 1 -> loading (ui s) = true).

Definition transcript {NO : NumberOps} (actions : list Action)
  : option (list Message) :=
  option_map (fun s => messages (ui s)) (run actions mounted).

Definition accumulated {NO : NumberOps} (actions : list Action)
  : option jsstring :=
  option_map (fun s => aiBufferRef (ui s)) (run actions mounted).

(** ** Examples *)

(** A number semantics for the examples, none of which holds a number: a
    number reads as it is written and is truthy when a digit of its
    mantissa is not zero. *)
Definition as_written : NumberOps :=
  {| num_to_string := fun lexeme => lexeme;
     num_truthy := fun lexeme =>
       existsb (fun c => (49 <=? c) && (c <=? 57))%N
         ((fix mantissa (s : jsstring) : jsstring :=
             match s with
             | [] => []
             | c :: r => if ((c =? 101) || (c =? 69))%N then []
                         else c :: mantissa r
             end) lexeme) |}.

(** An [ai] record whose content ends in U+00E9 (two bytes in UTF-8) and
    its newline, cut between those two bytes, and in one piece. *)
Definition cafe_split : list (list byte) :=
  [ jbytes "{'type':'ai','content':'caf" ++ [xc3];
    xa9 :: jbytes "'}" ++ bytes_of newline ].

Definition cafe_whole : list (list byte) :=
  [ jbytes "{'type':'ai','content':'caf" ++ [xc3; xa9]
    ++ jbytes "'}" ++ bytes_of newline ].

(** The two chunks of the tool-anchor scenario. *)
Definition tool_anchor_chunks : list (list byte) :=
  [ jbytes "{'type':'ai','content':'Hel";
    jbytes "lo'}" ++ bytes_of newline
    ++ jbytes "{'type':'tool','content':'{\'x\':1}','tool_name':'t1'}"
    ++ bytes_of newline
    ++ jbytes "{'type':'ai','content':' world'}" ++ bytes_of newline ].

Definition t1_call : ToolCall :=
  {| toolName := VString (lit "t1"); toolOutput := VString (jlit "{'x':1}");
     insertPosition := 5 |}.

(** Two [ai] records with a line that is not JSON between them. *)
Definition not_json_chunks : list (list byte) :=
  [ jbytes "{'type':'ai','content':'A'}" ++ bytes_of newline
    ++ jbytes "not-json" ++ bytes_of newline
    ++ jbytes "{'type':'ai','content':'B'}" ++ bytes_of newline ].

Definition two_sessions : list (list byte) :=
  [ jbytes "{'type':'session','content':'s1'}" ++ bytes_of newline
    ++ jbytes "{'type':'session','content':'s2'}" ++ bytes_of newline ].

Definition tool_record : string :=
  "{'type':'tool','content':'x','tool_name':'t1'}".

Definition network_down : JsError := MkError (lit "Failed to fetch").

(** A response with status 500 and an empty body that ends at once. *)
Definition server_error : FetchResult :=
  Resolved {| status := 500; body := Some {| chunks := []; ending := Done |} |}.

(** A stream that yields one [ai] record and then fails to read on. *)
Definition broken_stream : FetchResult :=
  Resolved {| status := 200;
              body := Some {| chunks := [jbytes "{'type':'ai','content':'par'}"
                                         ++ bytes_of newline];
                              ending := ReadRejects network_down |} |}.

(** A stored session of one exchange. *)
Definition stored : ConversationItem :=
  {| session_id := lit "s1"; user_message := lit "old question";
     ai_message := lit "old answer"; conv_timestamp := Some 1%Z |}.

(** The user sends, and switches to the stored session while the stream is
    in flight. *)
Definition switched : list Action :=
  [ Typing (lit "hi"); Send 0; LoadSession (lit "s1");
    LoadSessionResolved (lit "s1") [stored] 1 ].

(** The user sends, and starts a new conversation while the stream is in
    flight. *)
Definition restarted : list Action :=
  [ Typing (lit "hi"); Send 0; StartNew ].

Definition by_value (a b : nat) : Z := (Z.of_nat a - Z.of_nat b)%Z.

(** A user message holds no tool calls. *)
Definition well_formed (m : Message) : Prop :=
  type m = user -> toolCalls m = None.

(** The component once the user has sent "hi" and before the stream has
    delivered anything. *)
Definition streaming : ChatState :=
  handleSend_begin 0 (typed "hi").

(** What a queue of the stream handlers' updaters is like: it reads nothing
    of the cells but the accumulated text, and the text it writes is
    overwritten by a later write. *)
Definition handler_queue (q : list Updater) : Prop :=
  (forall c1 c2 m, aiBufferRef c1 = aiBufferRef c2 ->
                   run_queue c1 q m = run_queue c2 q m)
  /\ (forall x c1 c2 m,
        update_last_ai (with_content x) (run_queue c1 q m)
        = update_last_ai (with_content x) (run_queue c2 q m)).

Definition push_call (t : ToolCall) (last : Message) : Message :=
  with_toolCalls (match toolCalls last with Some l => l | None => [] end ++ [t])
                 last.

End Notions.
Import TextDecoder Json Api Chat Deferred Notions.

(* ================================================================== *)
(** * A send under React's schedule *)
(* ================================================================== *)

(** [Chat.handleSend] runs every updater at the moment its handler hands it
    to [setMessages].  Here a send runs against a schedule instead: the
    invocations of the stream and the renders of React in the order they
    happen, every updater waiting in the queue of [Deferred] until the next
    render. *)
Module Scheduled.
Import Api Chat Deferred Notions.

Inductive Tick : Type :=
| Invoked (c : Call)
| Rendering.

(** The invocations of a schedule, in order. *)
Definition invoked (ticks : list Tick) : list Call :=
  flat_map (fun t => match t with Invoked c => [c] | Rendering => [] end) ticks.

(** The component as React has rendered it: no updater waits. *)
Definition settled (st : ChatState) : Pending := {| cells := st; queue := [] |}.

Section Handlers.
Context {NO : NumberOps}.

Definition tick (p : Pending) (t : Tick) : Pending :=
  match t with
  | Invoked c => d_invoke p c
  | Rendering => render p
  end.

(** [handleSend] from the guard to the call of [sendChatMessage]; what it
    passes to [setMessages] is a function too, and waits like the others. *)
Definition d_handleSend_begin (now : Z) (p : Pending) : Pending :=
  let q := trim (input (cells p)) in
  on_cells (fun st => setInput [] (set_aiBufferRef [] st))
    (enqueue
       (fun _ m =>
          m ++ [ {| type := user; content := q; timestamp := now;
                    toolCalls := None |};
                 {| type := ai; content := []; timestamp := now;
                    toolCalls := Some [] |} ])
       (on_cells (fun st => setLoading true (set_processingRef true st)) p)).

(** [handleSend()] run to its end against the network behaviour [net] while
    React renders when [ticks] says.  The invocations of [ticks] are meant
    to be those [sendChatMessage] makes on [net] ([schedule_of]). *)
Definition d_handleSend (now : Z) (net : FetchResult) (ticks : list Tick)
  (p : Pending) : Pending :=
  if rejects (cells p) then p
  else
    let q := trim (input (cells p)) in
    let p1 :=
      on_cells (fetch (PostChat (payload q (sessionId (cells p)))))
               (d_handleSend_begin now p) in
    let p2 := fold_left tick ticks p1 in
    match thrown net with
    | Some e => on_cells (handleSend_catch e) p2
    | None => p2
    end.

(** The component a send leaves, seen once React has rendered again. *)
Definition after_send (now : Z) (net : FetchResult) (ticks : list Tick)
  (st : ChatState) : ChatState :=
  cells (render (d_handleSend now net ticks (settled st))).

(** [ticks] is a schedule of the send against [net]: it invokes what
    [sendChatMessage] invokes, in that order. *)
Definition schedule_of (net : FetchResult) (ticks : list Tick) : Prop :=
  invoked ticks = calls net.

(** The assistant message of a send made at [now] once it holds [text] and
    the tool results of the invocations [cs]. *)
Definition answer (now : Z) (text : jsstring) (cs : list Call) : Message :=
  {| type := ai; content := text; timestamp := now;
     toolCalls := Some (recorded [] cs) |}.

End Handlers.

(** Whether the updater of a delta waits in the queue after [ticks];
    [waiting] says whether one waits before them. *)
Fixpoint waits (waiting : bool) (ticks : list Tick) : bool :=
  match ticks with
  | [] => waiting
  | Rendering :: r => waits false r
  | Invoked (CAIChunk _) :: r => waits true r
  | Invoked _ :: r => waits waiting r
  end.

(** Whether React renders between the last delta and [onComplete], so that
    no updater of a delta waits in the queue when [onComplete] clears
    [aiBufferRef]; [waiting] says whether one waits before [ticks].  A send
    that never invokes [onComplete] is always in time. *)
Fixpoint rendered_in_time (waiting : bool) (ticks : list Tick) : bool :=
  match ticks with
  | [] => true
  | Rendering :: r => rendered_in_time false r
  | Invoked (CAIChunk _) :: r => rendered_in_time true r
  | Invoked CComplete :: _ => negb waiting
  | Invoked _ :: r => rendered_in_time waiting r
  end.

(** The invocations of the tool-anchor scenario and of the scenario with a
    line that is not JSON. *)
Definition tool_anchor_calls : list Call :=
  [ CAIChunk (VString (lit "Hello"));
    CToolOutput (VString (jlit "{'x':1}")) (VString (lit "t1"));
    CAIChunk (VString (lit " world"));
    CComplete ].

Definition not_json_calls : list Call :=
  [ CAIChunk (VString (lit "A")); CAIChunk (VString (lit "B")); CComplete ].

(** Two schedules of the invocations [cs].  In both React renders when the
    send has begun, before the stream delivers.  Then it renders once the
    invocations of the last chunk are through and before the reader reports
    the end, or not until [onComplete] has run. *)
Definition render_before_the_end (cs : list Call) : list Tick :=
  Rendering
  :: flat_map (fun c => match c with
                        | CComplete => [Rendering; Invoked c]
                        | _ => [Invoked c]
                        end) cs.

Definition render_after_the_end (cs : list Call) : list Tick :=
  Rendering :: map Invoked cs ++ [Rendering].

End Scheduled.

(* ================================================================== *)
(** * The controls of the [Chat] component *)
(* ================================================================== *)

(** The send button and the key handler of the text area. *)
Module ChatControls.
Import Api Chat.

(** [disabled={loading || !input.trim()}] of the send button. *)
Definition send_disabled (st : ChatState) : bool :=
  loading st || negb (nonempty (trim (input st))).

Section WithNumbers.
Context {NO : NumberOps}.

(** [handleKey(e)]: whether [e.preventDefault()] was called, and the state
    [handleSend] leaves when it is called and runs to its end. *)
Definition handleKey (key : jsstring) (shiftKey : bool) (now : Z)
  (net : FetchResult) (st : ChatState) : bool * ChatState :=
  if str_eqb key (lit "Enter") && negb shiftKey
  then (true, handleSend now net st)
  else (false, st).

End WithNumbers.

End ChatControls.

(** ** The list of sessions in the side bar *)
Module Sidebar.
Import Api Chat.

(** [const active = s.session_id === sessionId] *)
Definition active (sessionId : JsValue) (s : ConversationItem) : bool :=
  is_str sessionId (session_id s).

(** [uniqueSessions.map(s => ...)]: the entries of the side bar in the
    order they are shown, each with whether it is highlighted. *)
Definition entries_shown (st : ChatState) : list (ConversationItem * bool) :=
  map (fun s => (s, active (sessionId st) s)) (uniqueSessions (allConvs st)).

End Sidebar.

(** ** Notions about the component over time *)
Module Invariants.
Import Api Chat Notions ChatControls.

(** Tool calls in ascending order of their anchors. *)
Definition ascending (l : list ToolCall) : Prop :=
  StronglySorted (fun a b => insertPosition a <= insertPosition b) l.

(** Tool calls none of which is anchored beyond [n]. *)
Definition anchors_within (n : nat) (l : list ToolCall) : Prop :=
  Forall (fun c => insertPosition c <= n) l.

(** The tool calls of every message are ascending, and while a send is in
    flight those of the last message lie within the accumulated text. *)
Definition anchored (s : Sys) : Prop :=
  Forall (fun m => ascending (calls_of m)) (messages (ui s))
  /\ (0 < in_flight s ->
      forall m, last_message (ui s) = Some m ->
                anchors_within (List.length (aiBufferRef (ui s))) (calls_of m)).

(** [loading] says whether a send is in flight, and the guard is set only
    while [loading] is. *)
Definition in_step (s : Sys) : Prop :=
  in_flight s <= 1
  /\ (loading (ui s) = true <-> in_flight s = 1)
  /\ (processingRef (ui s) = true -> loading (ui s) = true).

(** The transcript [loadSession] builds from the stored exchanges. *)
Definition loaded (conversations : list ConversationItem) (now : Z)
  : list Message :=
  flat_map (fun c =>
    [ {| type := user; content := user_message c; timestamp := now;
         toolCalls := None |};
      {| type := ai; content := ai_message c; timestamp := now;
         toolCalls := Some [] |} ]) conversations.

End Invariants.

(** ** Notions about the rendered transcript *)
Module ArrivalNotions.
Import Api Chat Notions.

(** A piece of text as the rendering shows it: nothing when it is blank. *)
Definition shown_text (run : jsstring) : list Segment :=
  if blank run then [] else [MarkdownMessage run].

(** The invocations of a stream read as segments, in the order they
    arrive: each tool result as it is, and the text of the deltas between
    two tool results as one piece; [run] is the text since the last tool
    result. *)
Fixpoint arrival {NO : NumberOps} (cs : list Call) (run : jsstring)
  : list Segment :=
  match cs with
  | [] => shown_text run
  | CAIChunk v :: r => arrival r (run ++ to_string v)
  | CToolOutput o n :: r => shown_text run ++ ToolOutput o n :: arrival r []
  | _ :: r => arrival r run
  end.

(** What follows the last cut point of a rendering. *)
Definition tail_segment (text : jsstring) (from : nat) : list Segment :=
  if from <? List.length text then shown_text (substring_from text from)
  else [].

End ArrivalNotions.

(* ================================================================== *)
(** * The [ToolOutput] component *)
(* ================================================================== *)

(** What [ToolOutput.tsx] computes from the two properties the transcript
    hands it: the parsed tool result, the header and, once the panel is
    open, the body.  At run time both properties are whatever the stream
    carried, so they are values of [JsValue]; the labels written in Chinese
    in the source are given by their UTF-16 code units. *)
Module ToolOutputView.
Import Json Api.

(** [x.slice(start, end)] of a string or an array: a negative index counts
    from the end, and both are clamped to the length. *)
Definition slice_index (len : nat) (i : Z) : nat :=
  if (i <? 0)%Z then Z.to_nat (Z.max (Z.of_nat len + i) 0)
  else Nat.min (Z.to_nat i) len.

Definition slice {A : Type} (l : list A) (start stop : Z) : list A :=
  let from := slice_index (List.length l) start in
  let to := slice_index (List.length l) stop in
  firstn (to - from) (skipn from l).

(** [s.startsWith(c)] and [s.endsWith(c)] for a string [c] of one code
    unit. *)
Definition startsWith (s : jsstring) (c : N) : bool :=
  match s with
  | x :: _ => (x =? c)%N
  | [] => false
  end.

Definition endsWith (s : jsstring) (c : N) : bool :=
  match rev s with
  | x :: _ => (x =? c)%N
  | [] => false
  end.

(** The decimal form of an index, as a template literal or a property key
    writes it. *)
Definition decimal (n : nat) : jsstring :=
  lit (NilEmpty.string_of_uint (Nat.to_uint n)).

(** [typeof v === 'object'] *)
Definition typeof_object (v : JsValue) : bool :=
  match v with
  | VNull | VArray _ | VObject _ => true
  | _ => false
  end.

(** [Array.isArray(v)] *)
Definition isArray (v : JsValue) : bool :=
  match v with
  | VArray _ => true
  | _ => false
  end.

(** ** [tryParse] *)

Section WithNumbers.
Context {NO : NumberOps}.

(** [JSON.parse] converts its argument to a string first; [content.trim]
    is not a function unless [content] is a string, and the [TypeError] of
    calling it is caught like the [SyntaxError] of the second parse. *)
Definition tryParse (content : JsValue) : JsValue :=
  if negb (truthy content) then VNull
  else
    match JSON_parse (to_string content) with
    | Some v => v
    | None =>
        match content with
        | VString s =>
            let trimmed := trim s in
            if startsWith trimmed 34 && endsWith trimmed 34
               || startsWith trimmed 39 && endsWith trimmed 39
            then
              let unquoted := slice trimmed 1 (-1) in
              match JSON_parse unquoted with
              | Some v => v
              | None => VNull
              end
            else VNull
        | _ => VNull
        end
    end.

End WithNumbers.

(** ** [decodeUnicodeEscapes] *)

(** [text.replace(/\\u[0-9a-fA-F]{4}/g, ...)]: every reverse solidus that
    is followed by [u] and four hexadecimal digits is replaced, with them,
    by the code unit the digits name ([parseInt] of four hexadecimal digits
    and [String.fromCharCode] cannot fail); the search goes on after a
    match, and one code unit further where there is none. *)
Fixpoint replace_escapes (s : jsstring) : jsstring :=
  match s with
  | [] => []
  | c :: r =>
      match r with
      | u :: h1 :: h2 :: h3 :: h4 :: r' =>
          if ((c =? 92) && (u =? 117))%N then
            match hex4 h1 h2 h3 h4 with
            | Some code => code :: replace_escapes r'
            | None => c :: replace_escapes r
            end
          else c :: replace_escapes r
      | _ => c :: replace_escapes r
      end
  end.

Definition decodeUnicodeEscapes (text : JsValue) : JsValue :=
  match text with
  | VString s => VString (replace_escapes s)
  | _ => text
  end.

(** ** The header *)

(** The labels: "web search", "knowledge base search", "smart search". *)
Definition web_search : jsstring := [32593; 32476; 25628; 32034]%N.
Definition knowledge_search : jsstring := [30693; 35782; 24211; 25628; 32034]%N.
Definition smart_search : jsstring := [26234; 33021; 25628; 32034]%N.

(** The icons: a magnifying glass (U+1F50D), books (U+1F4DA) and a globe
    (U+1F310), each a surrogate pair. *)
Definition magnifier : jsstring := [55357; 56589]%N.
Definition books : jsstring := [55357; 56538]%N.
Definition globe : jsstring := [55356; 57104]%N.

Definition MAP : list (jsstring * jsstring) :=
  [ (lit "search_internet", web_search);
    (lit "search_knowledge_base", knowledge_search);
    (lit "smart_search", smart_search) ].

(** The property names [MAP] inherits from [Object.prototype]; what it
    holds under each of them is a function or, under [__proto__], the
    prototype itself: a truthy value that is no string. *)
Definition Object_prototype : list jsstring :=
  map lit [ "constructor"; "hasOwnProperty"; "isPrototypeOf";
            "propertyIsEnumerable"; "toLocaleString"; "toString"; "valueOf";
            "__proto__"; "__defineGetter__"; "__defineSetter__";
            "__lookupGetter__"; "__lookupSetter__" ]%string.

(** What the header shows as the name: a value, or what [MAP] inherits
    under a key. *)
Inductive Display : Type :=
| Shown (v : JsValue)
| Inherited (key : jsstring).

(** [MAP[key]], when it is not [undefined]. *)
Definition MAP_get (key : jsstring) : option Display :=
  match find (fun e => str_eqb (fst e) key) MAP with
  | Some e => Some (Shown (VString (snd e)))
  | None =>
      if existsb (str_eqb key) Object_prototype then Some (Inherited key)
      else None
  end.

Record Header : Type := { sourceIcon : jsstring; displayName : Display }.

Section WithNumbers.
Context {NO : NumberOps}.

(** [MAP[toolName] || toolName], the property key being the string form of
    [toolName]; every value of [MAP] is truthy. *)
Definition displayName_of (toolName : JsValue) : Display :=
  match MAP_get (to_string toolName) with
  | Some d => d
  | None => Shown toolName
  end.

Definition header (toolName parsed : JsValue) : Header :=
  let by_name :=
    {| sourceIcon := magnifier; displayName := displayName_of toolName |} in
  if truthy parsed && typeof_object parsed && truthy (field parsed "source")
  then
    if is_str (field parsed "source") (lit "knowledge") then
      {| sourceIcon := books; displayName := Shown (VString knowledge_search) |}
    else if is_str (field parsed "source") (lit "web") then
      {| sourceIcon := globe; displayName := Shown (VString web_search) |}
    else by_name
  else by_name.

(** ** [renderItems] *)

(** What a card shows: [#number], the heading, the paragraph and the link
    (its target and its text) when there are any. *)
Record Card : Type := {
  number : nat;
  heading : JsValue;
  paragraph : option JsValue;
  link : option (JsValue * JsValue)
}.

(** "result" and "untitled". *)
Definition result_label : jsstring := [32467; 26524]%N.
Definition untitled : jsstring := [26080; 26631; 39064]%N.

(** [s.replace(/^https?:\/\//, '')] *)
Definition strip_scheme (s : jsstring) : jsstring :=
  match strip_prefix (lit "https://") s with
  | Some r => r
  | None =>
      match strip_prefix (lit "http://") s with
      | Some r => r
      | None => s
      end
  end.

(** [s.split('/')[0]] *)
Fixpoint first_segment (s : jsstring) : jsstring :=
  match s with
  | [] => []
  | c :: r => if (c =? 47)%N then [] else c :: first_segment r
  end.

(** The constants of the body of [items.slice(0,8).map((raw, i) => ...)],
    one definition for each. *)
Definition item_of (raw : JsValue) : JsValue :=
  match raw with
  | VString _ => VObject [(lit "title", raw); (lit "snippet", raw)]
  | _ => or_else raw (VObject [])
  end.

Definition title_of (i : nat) (item : JsValue) : JsValue :=
  decodeUnicodeEscapes
    (or_else (field item "title")
       (or_else (field item "name")
          (or_else (field item "heading")
             (or_else (field item "link")
                (VString (result_label ++ decimal (i + 1))))))).

Definition snippet_of (item : JsValue) : JsValue :=
  decodeUnicodeEscapes
    (or_else (field item "snippet")
       (or_else (field item "body")
          (or_else (field item "description") (VString [])))).

Definition href_of (item : JsValue) : JsValue :=
  or_else (field item "link")
    (or_else (field item "href")
       (or_else (field item "url") (VString []))).

(** [None] is the [TypeError] of calling [replace] on a link that is no
    string. *)
Definition domain_of (item href : JsValue) : option JsValue :=
  if truthy (field item "domain") then Some (field item "domain")
  else
    match or_else href (VString []) with
    | VString s => Some (VString (first_segment (strip_scheme s)))
    | _ => None
    end.

Definition renderItem (i : nat) (raw : JsValue) : option Card :=
  let item := item_of raw in
  let title := title_of i item in
  let snippet := snippet_of item in
  let href := href_of item in
  match domain_of item href with
  | None => None
  | Some domain =>
      Some {| number := i + 1;
              heading := or_else title (VString untitled);
              paragraph := if truthy snippet then Some snippet else None;
              link := if truthy href then Some (href, or_else domain href)
                      else None |}
  end.

Fixpoint render_from (i : nat) (items : list JsValue) : option (list Card) :=
  match items with
  | [] => Some []
  | raw :: r =>
      match renderItem i raw with
      | None => None
      | Some card =>
          match render_from (S i) r with
          | None => None
          | Some cards => Some (card :: cards)
          end
      end
  end.

Definition renderItems (items : list JsValue) : option (list Card) :=
  render_from 0 (slice items 0 8).

End WithNumbers.

(** ** [render] *)

(** A property key that is an array index: the decimal form, without
    leading zeros, of a number below 2^32 - 1. *)
Definition index_value (k : jsstring) : N :=
  fold_left (fun a c => (a * 10 + (c - 48))%N) k 0%N.

Definition is_array_index (k : jsstring) : bool :=
  match k with
  | [] => false
  | c :: r =>
      forallb is_digit k
      && (negb (c =? 48)%N || match r with [] => true | _ :: _ => false end)
      && (index_value k <=? 4294967294)%N
  end.

(** The keys of an object built by [JSON.parse], each once, in the order
    they were first written. *)
Fixpoint own_keys (props : list (jsstring * JsValue)) (seen : list jsstring)
  : list jsstring :=
  match props with
  | [] => []
  | (k, _) :: r =>
      if existsb (str_eqb k) seen then own_keys r seen
      else k :: own_keys r (k :: seen)
  end.

Fixpoint indexed {A : Type} (i : nat) (l : list A) : list (jsstring * A) :=
  match l with
  | [] => []
  | x :: r => (decimal i, x) :: indexed (S i) r
  end.

(** [Object.entries(v)] for a [v] that is neither [null] nor [undefined]:
    the array indices among the keys come first, ascending, then the other
    keys in the order they were created; a string has its code units, a
    number or a boolean nothing. *)
Definition entries (v : JsValue) : list (jsstring * JsValue) :=
  match v with
  | VObject props =>
      let keys := own_keys props [] in
      map (fun k => (k, match own_prop props k with
                        | Some w => w
                        | None => VUndefined
                        end))
          (sort (fun a b => (Z.of_N (index_value a) - Z.of_N (index_value b))%Z)
                (filter is_array_index keys)
           ++ filter (fun k => negb (is_array_index k)) keys)
  | VArray items => indexed 0 items
  | VString s => indexed 0 (map (fun c => VString [c]) s)
  | _ => []
  end.

(** [JSON.stringify] on the values [render] passes it: [null], arrays and
    objects. *)
Class JsonOps : Type := { JSON_stringify : JsValue -> jsstring }.

(** What React does with a value placed among the children of an element:
    it shows a string or a number, shows nothing for a boolean, [null] or
    [undefined], takes an array as the children it holds, and throws on any
    other object ("Objects are not valid as a React child"). *)
Fixpoint valid_child (v : JsValue) : bool :=
  match v with
  | VObject _ => false
  | VArray items => forallb valid_child items
  | _ => true
  end.

(** What the open panel shows: the content as it came, result cards, or
    one row for each entry of the parsed value. *)
Inductive View : Type :=
| Raw (content : JsValue)
| Items (cards : list Card)
| KeyValues (rows : list (jsstring * jsstring)).

Section WithBuiltins.
Context {NO : NumberOps} {JO : JsonOps}.

(** [render()]; [None] when [renderItems] throws. *)
Definition render (content parsed : JsValue) : option View :=
  if negb (truthy parsed) then Some (Raw content)
  else if typeof_object parsed && isArray (field parsed "items") then
    match field parsed "items" with
    | VArray items => option_map Items (renderItems items)
    | _ => None
    end
  else
    match parsed with
    | VArray items => option_map Items (renderItems items)
    | _ =>
        Some (KeyValues
                (map (fun e =>
                        (fst e,
                         if typeof_object (snd e) then JSON_stringify (snd e)
                         else to_string (snd e)))
                     (entries parsed)))
    end.

(** What the component renders: the header, and the body when the panel is
    open ([useState(false)], toggled by the button). *)
Record Rendered : Type := { head : Header; panel : option View }.

(** The children of the elements the component returns.  The name is a
    child of the header.  Of what [MAP] inherits, the value under
    [__proto__] is an object, [Object.prototype] itself; the others are
    functions, for which React shows nothing. *)
Definition valid_name (d : Display) : bool :=
  match d with
  | Shown v => valid_child v
  | Inherited key => negb (str_eqb key (lit "__proto__"))
  end.

(** A card has the heading, the paragraph and the text of the link as
    children; the target of the link is an attribute, which takes any
    value. *)
Definition valid_card (c : Card) : bool :=
  valid_child (heading c)
  && match paragraph c with Some v => valid_child v | None => true end
  && match link c with Some (_, text) => valid_child text | None => true end.

(** The rows of the fallback hold strings only. *)
Definition valid_view (v : View) : bool :=
  match v with
  | Raw content => valid_child content
  | Items cards => forallb valid_card cards
  | KeyValues _ => true
  end.

(** The default of the property: [toolName='tool'] applies when the
    property is [undefined]. *)
Definition or_default (toolName : JsValue) : JsValue :=
  match toolName with
  | VUndefined => VString (lit "tool")
  | _ => toolName
  end.

(** The component [ToolOutput] as React renders it; [None] when that
    throws: in [renderItems] while the component runs, or in React
    afterwards, on a child of the returned elements that is an object. *)
Definition ToolOutput_component (open : bool) (content toolName : JsValue)
  : option Rendered :=
  let toolName := or_default toolName in
  let parsed := tryParse content in
  let top := header toolName parsed in
  if negb (valid_name (displayName top)) then None
  else if open then
    match render content parsed with
    | Some view =>
        if valid_view view then Some {| head := top; panel := Some view |}
        else None
    | None => None
    end
  else Some {| head := top; panel := None |}.

End WithBuiltins.

End ToolOutputView.

(** ** Notions about the tool results *)
Module ViewNotions.
Import Json Api ToolOutputView.

(** A text in which every reverse solidus starts an escape of four
    hexadecimal digits, and which holds no quotation mark and no control
    character: what stands between the quotation marks of a JSON string
    that escapes nothing but code units. *)
Fixpoint only_u_escapes (s : jsstring) : bool :=
  match s with
  | [] => true
  | c :: r =>
      if (c =? 92)%N then
        match r with
        | u :: h1 :: h2 :: h3 :: h4 :: r' =>
            (u =? 117)%N
            && match hex4 h1 h2 h3 h4 with Some _ => true | None => false end
            && only_u_escapes r'
        | _ => false
        end
      else negb (c =? 34)%N && negb (c <? 32)%N && only_u_escapes r
  end.

(** A value [replace] can be called on after [|| '']: a string, or
    a falsy value. *)
Definition linkable {NO : NumberOps} (v : JsValue) : Prop :=
  truthy v = false \/ exists s, v = VString s.

(** An item none of whose link properties can make [renderItems] throw. *)
Definition safe_item {NO : NumberOps} (raw : JsValue) : Prop :=
  linkable (field (item_of raw) "link")
  /\ linkable (field (item_of raw) "href")
  /\ linkable (field (item_of raw) "url").

(** The card of an item that is a string [s]. *)
Definition text_card (i : nat) (s : jsstring) : Card :=
  {| number := i + 1;
     heading := VString (replace_escapes s);
     paragraph := Some (VString (replace_escapes s));
     link := None |}.

Fixpoint text_cards (i : nat) (l : list jsstring) : list Card :=
  match l with
  | [] => []
  | s :: r => text_card i s :: text_cards (S i) r
  end.

(** For the examples, none of which stringifies a value. *)
Definition no_stringify : JsonOps := {| JSON_stringify := fun _ => [] |}.

End ViewNotions.

(* ================================================================== *)
(** * [MarkdownMessage]: bare URLs made into links *)
(* ================================================================== *)

(** [autoLinkMarkdown], which [MarkdownMessage] applies to the text before
    it hands it to the Markdown renderer.  Each of the two regular
    expressions repeats a character class up to a character the class
    excludes, so a match at a position, when there is one, is found without
    backtracking. *)
Module MarkdownLinks.
Import Json.

(** The longest prefix whose code units satisfy [p], and the rest. *)
Fixpoint span (p : N -> bool) (s : jsstring) : jsstring * jsstring :=
  match s with
  | [] => ([], [])
  | c :: r =>
      if p c then let (a, b) := span p r in (c :: a, b) else ([], s)
  end.

(** [https?:\/\/] at the start of [s]: what it matches, and the rest. *)
Definition match_scheme (s : jsstring) : option (jsstring * jsstring) :=
  match strip_prefix (lit "https://") s with
  | Some r => Some (lit "https://", r)
  | None =>
      match strip_prefix (lit "http://") s with
      | Some r => Some (lit "http://", r)
      | None => None
      end
  end.

(** [/\[([^\]]+)\]\((https?:\/\/[^)]+)\)/] at the start of [s]: the match
    and what follows it. *)
Definition match_link (s : jsstring) : option (jsstring * jsstring) :=
  match s with
  | c :: r =>
      if (c =? 91)%N then
        let (label, r1) := span (fun x => negb (x =? 93)%N) r in
        match label, r1 with
        | _ :: _, c1 :: c2 :: r2 =>
            if ((c1 =? 93) && (c2 =? 40))%N then
              match match_scheme r2 with
              | Some (scheme, r3) =>
                  let (target, r4) := span (fun x => negb (x =? 41)%N) r3 in
                  match target, r4 with
                  | _ :: _, c3 :: r5 =>
                      Some (c :: label ++ c1 :: c2 :: scheme ++ target ++ [c3],
                            r5)
                  | _, _ => None
                  end
              | None => None
              end
            else None
        | _, _ => None
        end
      else None
  | [] => None
  end.

(** [/(https?:\/\/[^\s\)]+)/] at the start of [s]: the match and what
    follows it. *)
Definition match_url (s : jsstring) : option (jsstring * jsstring) :=
  match match_scheme s with
  | Some (scheme, r) =>
      let (body, rest) :=
        span (fun x => negb (is_space x) && negb (x =? 41)%N) r in
      match body with
      | _ :: _ => Some (scheme ++ body, rest)
      | [] => None
      end
  | None => None
  end.

(** An entry of [existingLinks]. *)
Record Link : Type := { placeholder : jsstring; original : jsstring }.

(** The decimal form of [index], as the template literal writes it. *)
Definition placeholder_of (index : nat) : jsstring :=
  lit "__MDLINK_" ++ lit (NilEmpty.string_of_uint (Nat.to_uint index))
  ++ lit "__".

(** [text.replace(markdownLinkRegex, ...)]: the text with each match
    replaced by its placeholder, and the links in the order they were met.
    The search goes from left to right, resumes after a match and one code
    unit further where there is none; [skip] counts the code units of the
    last match that are still to be passed over. *)
Fixpoint protect_from (s : jsstring) (skip index : nat)
  : jsstring * list Link :=
  match s with
  | [] => ([], [])
  | c :: r =>
      match skip with
      | S k => protect_from r k index
      | O =>
          match match_link s with
          | Some (m, _) =>
              let (out, links) :=
                protect_from r (List.length m - 1) (S index) in
              (placeholder_of index ++ out,
               {| placeholder := placeholder_of index; original := m |}
               :: links)
          | None =>
              let (out, links) := protect_from r 0 index in
              (c :: out, links)
          end
      end
  end.

(** [protectedText.replace(/(https?:\/\/[^\s\)]+)/g, url => ...)] *)
Fixpoint link_urls_from (s : jsstring) (skip : nat) : jsstring :=
  match s with
  | [] => []
  | c :: r =>
      match skip with
      | S k => link_urls_from r k
      | O =>
          match match_url s with
          | Some (url, _) =>
              lit "[" ++ url ++ lit "](" ++ url ++ lit ")"
              ++ link_urls_from r (List.length url - 1)
          | None => c :: link_urls_from r 0
          end
      end
  end.

(** The first occurrence of [pattern] in [s]: what precedes it and what
    follows it. *)
Fixpoint find_sub (pattern s : jsstring) : option (jsstring * jsstring) :=
  match strip_prefix pattern s with
  | Some after => Some ([], after)
  | None =>
      match s with
      | [] => None
      | c :: r =>
          match find_sub pattern r with
          | Some (before, after) => Some (c :: before, after)
          | None => None
          end
      end
  end.

(** The replacement text [replace] makes of a string given as the
    replacement, when the pattern is a string: a dollar sign followed by a
    dollar sign stands for one dollar sign, followed by an ampersand for
    the match, by a grave accent for what precedes the match, by an
    apostrophe for what follows it; any other dollar sign stands for
    itself. *)
Fixpoint substitution (template matched before after : jsstring)
  : jsstring :=
  match template with
  | [] => []
  | c :: r =>
      match r with
      | d :: r' =>
          if (c =? 36)%N then
            if (d =? 36)%N then 36%N :: substitution r' matched before after
            else if (d =? 38)%N then
              matched ++ substitution r' matched before after
            else if (d =? 96)%N then
              before ++ substitution r' matched before after
            else if (d =? 39)%N then
              after ++ substitution r' matched before after
            else c :: substitution r matched before after
          else c :: substitution r matched before after
      | [] => [c]
      end
  end.

(** [s.replace(pattern, replacement)] for two strings: the first
    occurrence is replaced, if there is one. *)
Definition replace_first (pattern replacement s : jsstring) : jsstring :=
  match find_sub pattern s with
  | Some (before, after) =>
      before ++ substitution replacement pattern before after ++ after
  | None => s
  end.

Definition autoLinkMarkdown (text : jsstring) : jsstring :=
  let (protectedText, existingLinks) := protect_from text 0 0 in
  fold_left
    (fun protectedText link =>
       replace_first (placeholder link) (original link) protectedText)
    existingLinks
    (link_urls_from protectedText 0).

End MarkdownLinks.

(** ** Notions about the links *)
Module LinkNotions.
Import MarkdownLinks.

(** A code unit a bare URL goes on with: no white space and no closing
    parenthesis. *)
Definition in_url (c : N) : bool := negb (is_space c) && negb (c =? 41)%N.

(** One of the two schemes. *)
Definition scheme (s : jsstring) : Prop :=
  s = lit "http://" \/ s = lit "https://".

(** A Markdown link: a label without a closing bracket and a target,
    behind a scheme, without a closing parenthesis, neither empty. *)
Definition markdown_link (label sch target : jsstring) : jsstring :=
  91%N :: label ++ 93%N :: 40%N :: sch ++ target ++ [41%N].

Definition well_formed_link (label sch target : jsstring) : Prop :=
  label <> [] /\ ~ In 93%N label /\ scheme sch
  /\ target <> [] /\ ~ In 41%N target.

(** What ends a bare URL: the end of the text, white space or a closing
    parenthesis. *)
Definition ends_url (post : jsstring) : Prop :=
  match post with
  | [] => True
  | c :: _ => in_url c = false
  end.

End LinkNotions.

(* ================================================================== *)
(** * The [UploadModal] component *)
(* ================================================================== *)

(** The dialog that uploads a document to the knowledge base: the check of
    the chosen file, the request, and the status the dialog shows.  The
    properties [onClose] and [onUploadSuccess] act on the state of the
    parent, which holds whether the dialog is open. *)
Module UploadModal.
Import Api.

(** [s.split(sep)] for a separator of one code unit: never empty. *)
Fixpoint split (sep : N) (s : jsstring) : list jsstring :=
  match s with
  | [] => [[]]
  | c :: r =>
      if (c =? sep)%N then [] :: split sep r
      else match split sep r with
           | l :: ls => (c :: l) :: ls
           | [] => [[c]]
           end
  end.

(** What the engine provides: [String.prototype.toLowerCase], and the
    [TypeError] it throws when a property is read from [null]. *)
Class Engine : Type := {
  toLowerCase : jsstring -> jsstring;
  null_read : string -> JsError
}.

(** A [File]: its name and its size in bytes. *)
Record File : Type := { name : jsstring; size : N }.

Inductive State : Type := idle | uploading | success | error.

(** [interface UploadStatus]; an optional property that is absent is
    [None], or [undefined] where the value comes from the response. *)
Record UploadStatus : Type := {
  state : State;
  fileName : option jsstring;
  fileSize : option N;
  chunksCount : JsValue;
  message : JsValue;
  progress : option N
}.

(** [{ state: 'idle' }] *)
Definition idle_status : UploadStatus :=
  {| state := idle; fileName := None; fileSize := None;
     chunksCount := VUndefined; message := VUndefined; progress := None |}.

(** The messages: "format not supported, only PDF, Word, Excel,
    PowerPoint, text and Markdown are", "the file is larger than the limit
    of 20MB", "upload failed" and "upload failed, please retry". *)
Definition unsupported_format : jsstring :=
  [19981; 25903; 25345; 30340; 25991; 20214; 26684; 24335; 65292; 20165;
   25903; 25345; 32; 80; 68; 70; 12289; 87; 111; 114; 100; 12289; 69; 120;
   99; 101; 108; 12289; 80; 111; 119; 101; 114; 80; 111; 105; 110; 116;
   12289; 25991; 26412; 12289; 77; 97; 114; 107; 100; 111; 119; 110; 32;
   26684; 24335]%N.

Definition too_large : jsstring :=
  [25991; 20214; 22823; 23567; 36229; 36807; 32; 50; 48; 77; 66; 32; 38480;
   21046]%N.

Definition upload_failed : jsstring := [19978; 20256; 22833; 36133]%N.

Definition upload_failed_retry : jsstring :=
  [19978; 20256; 22833; 36133; 65292; 35831; 37325; 35797]%N.

Definition validExtensions : list jsstring :=
  map lit [".pdf"; ".docx"; ".pptx"; ".txt"; ".md"]%string.

(** How the request of an upload ends: [fetch] rejects, or it resolves to
    a response that is [ok] or not and whose [json()] rejects or resolves. *)
Inductive JsonResult : Type :=
| JsonRejects (e : JsError)
| JsonResolves (v : JsValue).

Inductive UploadResult : Type :=
| UploadRejected (e : JsError)
| UploadResponded (ok : bool) (json : JsonResult).

Section Modal.
Context {NO : NumberOps} {EN : Engine}.

(** The state of the parent, and what the two properties do to it. *)
Variable P : Type.
Variable onClose : P -> P.
Variable onUploadSuccess : P -> P.

(** The dialog and its surroundings: the status, the parent, the files
    whose upload was requested, those among them whose request has not
    ended, and the number of timeouts set and not yet run. *)
Record Modal : Type := {
  uploadStatus : UploadStatus;
  parent : P;
  uploads : list File;
  pending : list File;
  timers : nat
}.

Definition setUploadStatus (v : UploadStatus) (m : Modal) : Modal :=
  {| uploadStatus := v; parent := parent m; uploads := uploads m;
     pending := pending m; timers := timers m |}.

Definition on_parent (f : P -> P) (m : Modal) : Modal :=
  {| uploadStatus := uploadStatus m; parent := f (parent m);
     uploads := uploads m; pending := pending m; timers := timers m |}.

(** [fetch('http://localhost:8000/api/knowledge/upload', ...)] with the
    file as the form data. *)
Definition post_upload (file : File) (m : Modal) : Modal :=
  {| uploadStatus := uploadStatus m; parent := parent m;
     uploads := uploads m ++ [file]; pending := pending m ++ [file];
     timers := timers m |}.

Definition setTimeout (m : Modal) : Modal :=
  {| uploadStatus := uploadStatus m; parent := parent m;
     uploads := uploads m; pending := pending m; timers := S (timers m) |}.

Definition handleClose (m : Modal) : Modal :=
  on_parent onClose (setUploadStatus idle_status m).

Definition handleRetry (m : Modal) : Modal := setUploadStatus idle_status m.

(** ['.' + file.name.split('.').pop()?.toLowerCase()]; the array [split]
    returns is never empty. *)
Definition fileExt (file : File) : jsstring :=
  46%N :: toLowerCase (match snd (pop (split 46 (name file))) with
                       | Some last => last
                       | None => []
                       end).

(** The two checks of [handleFileChange]. *)
Definition valid_type (file : File) : bool :=
  existsb (str_eqb (fileExt file)) validExtensions.

Definition valid_size (file : File) : bool :=
  negb (20 * 1024 * 1024 <? size file)%N.

(** [handleFileChange] up to its first [await], for the file chosen;
    without a file it returns at once. *)
Definition handleFileChange (chosen : option File) (m : Modal) : Modal :=
  match chosen with
  | None => m
  | Some file =>
      if negb (valid_type file) then
        setUploadStatus
          {| state := error; fileName := None; fileSize := None;
             chunksCount := VUndefined;
             message := VString unsupported_format; progress := None |} m
      else if negb (valid_size file) then
        setUploadStatus
          {| state := error; fileName := None; fileSize := None;
             chunksCount := VUndefined;
             message := VString too_large; progress := None |} m
      else
        post_upload file
          (setUploadStatus
             {| state := uploading; fileName := Some (name file);
                fileSize := Some (size file); chunksCount := VUndefined;
                message := VUndefined; progress := Some 0%N |} m)
  end.

(** The [catch] block: [error.message || ...]. *)
Definition handleFileChange_catch (file : File) (e : JsError) (m : Modal)
  : Modal :=
  let 'MkError msg := e in
  setUploadStatus
    {| state := error; fileName := Some (name file); fileSize := None;
       chunksCount := VUndefined;
       message := or_else (VString msg) (VString upload_failed_retry);
       progress := None |} m.

(** [handleFileChange] from the moment the request of [file] has ended
    with [result].  [new Error(x)] has the string form of [x] as its
    message.  The file input, which the last statement resets, is mounted
    only while the status is idle and holds no part of this state. *)
Definition handleFileChange_settled (file : File) (result : UploadResult)
  (m : Modal) : Modal :=
  match result with
  | UploadRejected e => handleFileChange_catch file e m
  | UploadResponded ok json =>
      match json with
      | JsonRejects e => handleFileChange_catch file e m
      | JsonResolves v =>
          if negb ok then
            match get v (lit "detail") with
            | None => handleFileChange_catch file (null_read "detail") m
            | Some detail =>
                handleFileChange_catch file
                  (MkError (to_string (or_else detail (VString upload_failed))))
                  m
            end
          else
            match get v (lit "chunks_count"), get v (lit "message") with
            | Some count, Some msg =>
                setTimeout
                  (setUploadStatus
                     {| state := success; fileName := Some (name file);
                        fileSize := Some (size file); chunksCount := count;
                        message := msg; progress := None |} m)
            | _, _ =>
                handleFileChange_catch file (null_read "chunks_count") m
            end
      end
  end.

(** The callback of the timeout: [onUploadSuccess(); handleClose();]. *)
Definition timeout_callback (m : Modal) : Modal :=
  handleClose (on_parent onUploadSuccess m).

End Modal.

(** ** The dialog in the page *)

(** [Chat] holds whether the dialog is open ([uploadModalOpen]), closes it
    with [onClose] and reloads the conversation list with
    [onUploadSuccess]. *)
Record Page : Type := { chat : Chat.ChatState; uploadModalOpen : bool }.

Definition setUploadModalOpen (v : bool) (p : Page) : Page :=
  {| chat := chat p; uploadModalOpen := v |}.

Definition page_onClose : Page -> Page := setUploadModalOpen false.

Definition page_onUploadSuccess (p : Page) : Page :=
  {| chat := Chat.loadAll (chat p); uploadModalOpen := uploadModalOpen p |}.

Definition file_eqb (a b : File) : bool :=
  str_eqb (name a) (name b) && (size a =? size b)%N.

(** The requests in flight without the one of [file], when there is one. *)
Fixpoint remove_first (file : File) (l : list File) : option (list File) :=
  match l with
  | [] => None
  | x :: r =>
      if file_eqb file x then Some r
      else option_map (cons x) (remove_first file r)
  end.

(** What can happen.  The button of the page opens the dialog; the file
    input exists while the dialog is open and idle, the retry button while
    it is open and shows an error; an open dialog can be closed at any
    time; a request that was made ends; a timeout that was set runs. *)
Inductive Event : Type :=
| Open
| Choose (chosen : option File)
| Settle (file : File) (result : UploadResult)
| TimerFires
| Close
| Retry.

Definition state_eqb (a b : State) : bool :=
  match a, b with
  | idle, idle | uploading, uploading | success, success | error, error => true
  | _, _ => false
  end.

Section Steps.
Context {NO : NumberOps} {EN : Engine}.

Definition step (e : Event) (m : Modal Page) : option (Modal Page) :=
  let shown := uploadModalOpen (parent m) in
  match e with
  | Open => Some (on_parent (setUploadModalOpen true) m)
  | Choose chosen =>
      if shown && state_eqb (state (uploadStatus m)) idle
      then Some (handleFileChange chosen m)
      else None
  | Settle file result =>
      match remove_first file (pending m) with
      | Some rest =>
          Some (handleFileChange_settled file result
                  {| uploadStatus := uploadStatus m; parent := parent m;
                     uploads := uploads m; pending := rest;
                     timers := timers m |})
      | None => None
      end
  | TimerFires =>
      match timers m with
      | O => None
      | S n =>
          Some (timeout_callback page_onClose page_onUploadSuccess
                  {| uploadStatus := uploadStatus m; parent := parent m;
                     uploads := uploads m; pending := pending m;
                     timers := n |})
      end
  | Close => if shown then Some (handleClose page_onClose m) else None
  | Retry =>
      if shown && state_eqb (state (uploadStatus m)) error
      then Some (handleRetry m)
      else None
  end.

Fixpoint steps (events : list Event) (m : Modal Page)
  : option (Modal Page) :=
  match events with
  | [] => Some m
  | e :: r =>
      match step e m with
      | Some m' => steps r m'
      | None => None
      end
  end.

(** The dialog when the page has just been mounted. *)
Definition mounted_modal (c : Chat.ChatState) : Modal Page :=
  {| uploadStatus := idle_status;
     parent := {| chat := c; uploadModalOpen := false |};
     uploads := []; pending := []; timers := 0 |}.

End Steps.

End UploadModal.

(** ** Notions about the upload dialog *)
Module UploadNotions.
Import Api UploadModal.

(** What follows the last full stop of a name; the whole name when it has
    none. *)
Fixpoint until_dot (s : jsstring) : jsstring :=
  match s with
  | [] => []
  | c :: r => if (c =? 46)%N then [] else c :: until_dot r
  end.

Definition after_last_dot (s : jsstring) : jsstring :=
  rev (until_dot (rev s)).

(** The lower case of an ASCII letter. *)
Definition ascii_lower (c : N) : N :=
  if ((65 <=? c) && (c <=? 90))%N then (c + 32)%N else c.

(** An engine whose [toLowerCase] does to ASCII text what the standard
    says. *)
Definition lowers_ascii (EN : Engine) : Prop :=
  forall s, Forall (fun c => (c < 128)%N) s ->
            toLowerCase s = map ascii_lower s.

(** An engine for the examples: it lowers ASCII letters only. *)
Definition ascii_engine : Engine :=
  {| toLowerCase := map ascii_lower;
     null_read := fun k => MkError (lit "Cannot read properties of null") |}.

(** The limit of 20MB, in bytes. *)
Definition limit : N := 20971520.

(** A file the dialog lets through. *)
Definition accepted {EN : Engine} (file : File) : Prop :=
  In (46%N :: toLowerCase (after_last_dot (name file))) validExtensions
  /\ (size file <= limit)%N.

(** The status shows an error with a text, a success with the file. *)
Definition informative (st : UploadStatus) : Prop :=
  match state st with
  | error => exists msg, message st = VString msg /\ msg <> []
  | success | uploading =>
      exists n sz, fileName st = Some n /\ fileSize st = Some sz
  | idle => st = idle_status
  end.

(** What a request that makes the upload a success reports: its response
    is [ok] and the body is JSON other than [null]. *)
Definition succeeds (result : UploadResult) : option (JsValue * JsValue) :=
  match result with
  | UploadResponded true (JsonResolves v) =>
      match get v (lit "chunks_count"), get v (lit "message") with
      | Some count, Some msg => Some (count, msg)
      | _, _ => None
      end
  | _ => None
  end.

(** What every state of the dialog satisfies: the files sent passed the
    check, the status says what it shows, what is in flight was sent, and
    the chat was asked for nothing but the conversation list. *)
Definition sound {EN : Engine} (c : Chat.ChatState) (m : Modal Page)
  : Prop :=
  Forall accepted (uploads m)
  /\ informative (uploadStatus m)
  /\ (forall f, In f (pending m) -> In f (uploads m))
  /\ (exists k, Chat.requests (chat (parent m))
                = Chat.requests c ++ repeat GetAllConversations k)
  /\ Chat.messages (chat (parent m)) = Chat.messages c
  /\ Chat.sessionId (chat (parent m)) = Chat.sessionId c.

(** Two files for the examples. *)
Definition notes_md : File := {| name := lit "notes.MD"; size := 1024 |}.
Definition slides : File := {| name := lit "slides.pptx"; size := 2048 |}.

(** A response that is [ok] and reports three chunks. *)
Definition stored_ok : UploadResult :=
  UploadResponded true
    (JsonResolves (VObject [(lit "chunks_count", VNumber (lit "3"));
                            (lit "message", VString (lit "done"))])).

(** The first upload succeeds; the user closes the dialog, opens it again
    and chooses a second file before the timeout of the first one runs. *)
Definition second_upload : list Event :=
  [ Open; Choose (Some notes_md); Settle notes_md stored_ok; Close; Open;
    Choose (Some slides) ].

End UploadNotions.


(* ================================================================== *)
(** * The built-ins on examples *)
(* ================================================================== *)

(** U+00E9 in two bytes, U+1F600 in four (a surrogate pair), a leading
    byte order mark (dropped), a lone lead byte before an ASCII letter
    (replaced), and a sequence left unfinished at the end of a chunk and
    completed by the next. *)
Example decode_two_bytes : snd (decode fresh [xc3; xa9]) = [233%N].
Proof. reflexivity. Qed.

Example decode_four_bytes :
  snd (decode fresh [xf0; x9f; x98; x80]) = [55357%N; 56832%N].
Proof. reflexivity. Qed.

Example decode_byte_order_mark :
  snd (decode fresh ([xef; xbb; xbf] ++ bytes_of "ok")) = lit "ok".
Proof. reflexivity. Qed.

Example decode_lone_lead_byte :
  snd (decode fresh [xc3; x41]) = [65533%N; 65%N].
Proof. reflexivity. Qed.

Example decode_across_chunks :
  snd (decode fresh [xe2; x82]) = []
  /\ snd (decode (fst (decode fresh [xe2; x82])) [xac]) = [8364%N].
Proof. split; reflexivity. Qed.

(** Objects, escapes, a repeated key, and texts that are not JSON. *)
Example parse_record :
  JSON_parse (jlit "{'type':'ai','content':'a\nb'}")
  = Some (VObject [(lit "type", VString (lit "ai"));
                   (lit "content", VString [97%N; 10%N; 98%N])]).
Proof. reflexivity. Qed.

Example parse_escaped_quotes :
  JSON_parse (jlit "'{\'x\':1}'") = Some (VString (jlit "{'x':1}")).
Proof. reflexivity. Qed.

Example parse_unicode_escape :
  JSON_parse (jlit "'\u00e9'") = Some (VString [233%N]).
Proof. reflexivity. Qed.

Example parse_nested :
  JSON_parse (jlit " [1, -2.5e+3, true, null, {'a': []}] ")
  = Some (VArray [VNumber (lit "1"); VNumber (lit "-2.5e+3"); VBool true;
                  VNull; VObject [(lit "a", VArray [])]]).
Proof. reflexivity. Qed.

Example parse_repeated_key :
  option_map (fun v => get v (lit "type"))
             (JSON_parse (jlit "{'type':'ai','type':'tool'}"))
  = Some (Some (VString (lit "tool"))).
Proof. reflexivity. Qed.

Example parse_rejects :
  JSON_parse (lit "not-json") = None
  /\ JSON_parse (lit "01") = None
  /\ JSON_parse (lit "[1,]") = None
  /\ JSON_parse (jlit "{'a':1") = None
  /\ JSON_parse (jlit "'a") = None
  /\ JSON_parse (lit "{} {}") = None
  /\ JSON_parse [] = None.
Proof. repeat split. Qed.

(** [split], [pop], [trim] and [substring]. *)
Example split_keeps_the_rest :
  pop (split_nl (lit "ab" ++ [10%N] ++ [10%N] ++ lit "cd"))
  = ([lit "ab"; []], Some (lit "cd")).
Proof. reflexivity. Qed.

Example trim_both_ends :
  trim ([32%N; 9%N; 160%N] ++ lit "a b" ++ [13%N; 10%N]) = lit "a b".
Proof. reflexivity. Qed.

Example substring_clamps :
  substring (lit "Hello") 3 9 = lit "lo" /\ substring_from (lit "Hello") 7 = [].
Proof. split; reflexivity. Qed.

(** The sort is stable: equal keys stay in their order. *)
Example sort_keeps_ties :
  sort (fun a b : nat * nat => (Z.of_nat (fst a) - Z.of_nat (fst b))%Z)
       [(2, 0); (1, 0); (2, 1); (1, 1)]
  = [(1, 0); (1, 1); (2, 0); (2, 1)].
Proof. reflexivity. Qed.

(* ================================================================== *)
(** * The parser does not run out of fuel *)
(* ================================================================== *)

Section Fuel.

Lemma skip_ws_length s : List.length (skip_ws s) <= List.length s.
Proof.
  induction s as [|c r IH]; simpl; [lia|].
  destruct (is_ws c); simpl; lia.
Qed.

Lemma parse_chars_shorter_upto n : forall s acc str rest,
  List.length s <= n ->
  parse_chars s acc = Some (str, rest) -> List.length rest < List.length s.
Proof.
  induction n as [|n IH]; intros s acc str rest Hn H.
  - destruct s; [discriminate | simpl in Hn; lia].
  - destruct s as [|c r]; [discriminate|].
    cbn [parse_chars] in H. simpl in Hn.
    destruct (c =? 34)%N.
    + injection H as _ <-. simpl. lia.
    + destruct (c =? 92)%N.
      * destruct r as [|e r1]; [discriminate|].
        destruct (e =? 117)%N.
        -- destruct r1 as [|h1 [|h2 [|h3 [|h4 r2]]]]; try discriminate.
           destruct (hex4 h1 h2 h3 h4); [|discriminate].
           apply IH in H; simpl in *; lia.
        -- destruct (unescape e); [|discriminate].
           apply IH in H; simpl in *; lia.
      * destruct (c <? 32)%N; [discriminate|].
        apply IH in H; simpl in *; lia.
Qed.

Lemma parse_chars_shorter s acc str rest :
  parse_chars s acc = Some (str, rest) -> List.length rest < List.length s.
Proof. apply (@parse_chars_shorter_upto (List.length s)). lia. Qed.

Lemma take_digits_length s :
  List.length (snd (take_digits s)) <= List.length s.
Proof.
  induction s as [|c r IH]; simpl; [lia|].
  destruct (is_digit c); [|simpl; lia].
  destruct (take_digits r); simpl in *; lia.
Qed.

Lemma parse_int_shorter s i rest :
  parse_int s = Some (i, rest) -> List.length rest < List.length s.
Proof.
  destruct s as [|c r]; [discriminate|]. cbn [parse_int].
  destruct (c =? 48)%N; [intro H; injection H as _ <-; simpl; lia|].
  destruct (is_digit c) eqn:Hd; [|discriminate].
  intro H. injection H as H. cbn [take_digits] in H. rewrite Hd in H.
  pose proof (take_digits_length r) as L.
  destruct (take_digits r). injection H as _ <-. simpl in *. lia.
Qed.

Lemma parse_frac_length s f rest :
  parse_frac s = Some (f, rest) -> List.length rest <= List.length s.
Proof.
  destruct s as [|c r]; cbn [parse_frac].
  - intro H. injection H as _ <-. lia.
  - destruct (c =? 46)%N; [|intro H; injection H as _ <-; lia].
    pose proof (take_digits_length r) as L.
    destruct (take_digits r) as [[|d ds] rest']; [discriminate|].
    intro H. injection H as _ <-. simpl in *. lia.
Qed.

Lemma parse_exp_length s e rest :
  parse_exp s = Some (e, rest) -> List.length rest <= List.length s.
Proof.
  destruct s as [|c r]; cbn [parse_exp].
  - intro H. injection H as _ <-. lia.
  - destruct ((c =? 101) || (c =? 69))%N; [|intro H; injection H as _ <-; lia].
    destruct r as [|g r'].
    + simpl. discriminate.
    + destruct ((g =? 43) || (g =? 45))%N.
      * pose proof (take_digits_length r') as L.
        destruct (take_digits r') as [[|d ds] rest']; [discriminate|].
        intro H. injection H as _ <-. simpl in *. lia.
      * pose proof (take_digits_length (g :: r')) as L.
        destruct (take_digits (g :: r')) as [[|d ds] rest']; [discriminate|].
        intro H. injection H as _ <-. simpl in *. lia.
Qed.

Lemma parse_number_shorter s n rest :
  parse_number s = Some (n, rest) -> List.length rest < List.length s.
Proof.
  unfold parse_number.
  destruct s as [|c r].
  - simpl. discriminate.
  - destruct (c =? 45)%N.
    + destruct (parse_int r) as [[i s2]|] eqn:Hi; [|discriminate].
      destruct (parse_frac s2) as [[f s3]|] eqn:Hf; [|discriminate].
      destruct (parse_exp s3) as [[e s4]|] eqn:He; [|discriminate].
      intro H. injection H as _ <-.
      apply parse_int_shorter in Hi. apply parse_frac_length in Hf.
      apply parse_exp_length in He. simpl. lia.
    + destruct (parse_int (c :: r)) as [[i s2]|] eqn:Hi; [|discriminate].
      destruct (parse_frac s2) as [[f s3]|] eqn:Hf; [|discriminate].
      destruct (parse_exp s3) as [[e s4]|] eqn:He; [|discriminate].
      intro H. injection H as _ <-.
      apply parse_int_shorter in Hi. apply parse_frac_length in Hf.
      apply parse_exp_length in He. simpl in *. lia.
Qed.

Lemma strip_prefix_length p : forall s rest,
  strip_prefix p s = Some rest ->
  List.length rest + List.length p = List.length s.
Proof.
  induction p as [|a p IH]; intros s rest H.
  - destruct s; injection H as <-; simpl; lia.
  - destruct s as [|b s]; [discriminate|]. cbn [strip_prefix] in H.
    destruct (a =? b)%N; [|discriminate].
    apply IH in H. simpl. lia.
Qed.

(** A successful parse with some fuel succeeds with any fuel above twice
    the length of the input, with the same result, and consumes input. *)
Lemma parse_fuel_enough fuel :
  (forall s v rest g,
      parse_value fuel s = Some (v, rest) ->
      2 * List.length s + 2 <= g ->
      parse_value g s = Some (v, rest) /\ List.length rest < List.length s)
  /\ (forall s acc v rest g,
        parse_elements fuel s acc = Some (v, rest) ->
        2 * List.length s + 3 <= g ->
        parse_elements g s acc = Some (v, rest)
        /\ List.length rest < List.length s)
  /\ (forall s acc v rest g,
        parse_members fuel s acc = Some (v, rest) ->
        2 * List.length s + 3 <= g ->
        parse_members g s acc = Some (v, rest)
        /\ List.length rest < List.length s).
Proof.
  induction fuel as [|f [IHv [IHe IHm]]].
  - repeat split; discriminate.
  - split; [|split].
    + (* parse_value *)
      intros s v rest g H Hg.
      destruct g as [|g]; [lia|].
      cbn [parse_value] in H |- *.
      pose proof (skip_ws_length s) as Lws.
      destruct (skip_ws s) as [|c r]; [discriminate|]. simpl in Lws.
      destruct (c =? 123)%N.
      { pose proof (skip_ws_length r) as Lr.
        destruct (skip_ws r) as [|d r']; [discriminate|]. simpl in Lr.
        destruct (d =? 125)%N.
        - injection H as <- <-. split; [reflexivity | lia].
        - apply (IHm _ _ _ _ g) in H; [|lia]. destruct H as [H L].
          split; [exact H | lia]. }
      destruct (c =? 91)%N.
      { pose proof (skip_ws_length r) as Lr.
        destruct (skip_ws r) as [|d r']; [discriminate|]. simpl in Lr.
        destruct (d =? 93)%N.
        - injection H as <- <-. split; [reflexivity | lia].
        - apply (IHe _ _ _ _ g) in H; [|lia]. destruct H as [H L].
          split; [exact H | lia]. }
      destruct (c =? 34)%N.
      { destruct (parse_chars r []) as [[str rest']|] eqn:Hc; [|discriminate].
        injection H as <- <-. apply parse_chars_shorter in Hc.
        split; [reflexivity | lia]. }
      destruct (c =? 116)%N.
      { destruct (strip_prefix (lit "true") (c :: r)) as [rest'|] eqn:Hp;
          [|discriminate].
        injection H as <- <-. apply strip_prefix_length in Hp. simpl in Hp.
        split; [reflexivity | lia]. }
      destruct (c =? 102)%N.
      { destruct (strip_prefix (lit "false") (c :: r)) as [rest'|] eqn:Hp;
          [|discriminate].
        injection H as <- <-. apply strip_prefix_length in Hp. simpl in Hp.
        split; [reflexivity | lia]. }
      destruct (c =? 110)%N.
      { destruct (strip_prefix (lit "null") (c :: r)) as [rest'|] eqn:Hp;
          [|discriminate].
        injection H as <- <-. apply strip_prefix_length in Hp. simpl in Hp.
        split; [reflexivity | lia]. }
      destruct (parse_number (c :: r)) as [[n rest']|] eqn:Hn; [|discriminate].
      injection H as <- <-. apply parse_number_shorter in Hn. simpl in Hn.
      split; [reflexivity | lia].
    + (* parse_elements *)
      intros s acc v rest g H Hg.
      destruct g as [|g]; [lia|].
      cbn [parse_elements] in H |- *.
      destruct (parse_value f s) as [[v1 rest1]|] eqn:Hv; [|discriminate].
      apply (IHv _ _ _ g) in Hv; [|lia]. destruct Hv as [Hv L1]. rewrite Hv.
      pose proof (skip_ws_length rest1) as Lws.
      destruct (skip_ws rest1) as [|c r]; [discriminate|]. simpl in Lws.
      destruct (c =? 44)%N.
      * apply (IHe _ _ _ _ g) in H; [|lia]. destruct H as [H L].
        split; [exact H | lia].
      * destruct (c =? 93)%N; [|discriminate].
        injection H as <- <-. split; [reflexivity | lia].
    + (* parse_members *)
      intros s acc v rest g H Hg.
      destruct g as [|g]; [lia|].
      cbn [parse_members] in H |- *.
      pose proof (skip_ws_length s) as Lws.
      destruct (skip_ws s) as [|q r]; [discriminate|]. simpl in Lws.
      destruct (q =? 34)%N; [|discriminate].
      destruct (parse_chars r []) as [[k rest0]|] eqn:Hc; [|discriminate].
      apply parse_chars_shorter in Hc.
      pose proof (skip_ws_length rest0) as Lws0.
      destruct (skip_ws rest0) as [|c r2]; [discriminate|]. simpl in Lws0.
      destruct (c =? 58)%N; [|discriminate].
      destruct (parse_value f r2) as [[v1 rest2]|] eqn:Hv; [|discriminate].
      apply (IHv _ _ _ g) in Hv; [|lia]. destruct Hv as [Hv L2]. rewrite Hv.
      pose proof (skip_ws_length rest2) as Lws2.
      destruct (skip_ws rest2) as [|d r3]; [discriminate|]. simpl in Lws2.
      destruct (d =? 44)%N.
      * apply (IHm _ _ _ _ g) in H; [|lia]. destruct H as [H L].
        split; [exact H | lia].
      * destruct (d =? 125)%N; [|discriminate].
        injection H as <- <-. split; [reflexivity | lia].
Qed.

End Fuel.

(** The fuel [JSON_parse] gives its parser is enough: with any larger fuel
    the parser returns the same, be it a value or a failure. *)
Theorem JSON_parse_fuel_is_enough :
  forall (text : jsstring) (fuel : nat),
    2 * List.length text + 2 <= fuel ->
    parse_value fuel text = parse_value (2 * List.length text + 2) text.
Proof.
  intros text fuel Hf.
  destruct (parse_value fuel text) as [[v rest]|] eqn:H1.
  - symmetry. eapply (proj1 (parse_fuel_enough fuel)); [exact H1 | lia].
  - destruct (parse_value (2 * List.length text + 2) text) as [[v rest]|] eqn:H2;
      [|reflexivity].
    apply (proj1 (parse_fuel_enough _) _ _ _ fuel) in H2; [|exact Hf].
    destruct H2 as [H2 _]. congruence.
Qed.

Lemma JSON_parse_fuel_witness :
  2 * List.length (jlit "[{'a':[1,2,{'b':null}]}]") + 2 <= 1000
  /\ parse_value 1000 (jlit "[{'a':[1,2,{'b':null}]}]")
     = parse_value (2 * List.length (jlit "[{'a':[1,2,{'b':null}]}]") + 2)
                   (jlit "[{'a':[1,2,{'b':null}]}]").
Proof.
  split; [apply Nat.leb_le; reflexivity|].
  apply (@JSON_parse_fuel_is_enough (jlit "[{'a':[1,2,{'b':null}]}]") 1000).
  apply Nat.leb_le. reflexivity.
Defined.


(* ================================================================== *)
(** * Facts about the stable sort *)
(* ================================================================== *)

Section SortFacts.
Variable A : Type.
Variable cmp : A -> A -> Z.
Variable key : A -> Z.
Hypothesis cmp_key : forall a b, (cmp a b <= 0)%Z <-> (key a <= key b)%Z.

Let le (a b : A) : Prop := (key a <= key b)%Z.

Lemma insert_sorted_perm x l : Permutation (insert_sorted cmp x l) (x :: l).
Proof.
  induction l as [|y r IH]; simpl.
  - apply Permutation_refl.
  - destruct (cmp x y <=? 0)%Z.
    + apply Permutation_refl.
    + eapply perm_trans; [apply perm_skip, IH | apply perm_swap].
Qed.

Lemma sort_perm l : Permutation (sort cmp l) l.
Proof.
  induction l as [|x r IH]; simpl.
  - constructor.
  - eapply perm_trans; [apply insert_sorted_perm | apply perm_skip, IH].
Qed.

Lemma insert_sorted_In x y l : In y (insert_sorted cmp x l) <-> y = x \/ In y l.
Proof.
  split; intro H.
  - apply (Permutation_in _ (insert_sorted_perm x l)) in H.
    destruct H; auto.
  - apply (Permutation_in _ (Permutation_sym (insert_sorted_perm x l))).
    destruct H; [left; auto | right; auto].
Qed.

Lemma insert_sorted_sorted x l :
  StronglySorted le l -> StronglySorted le (insert_sorted cmp x l).
Proof.
  induction 1 as [|y r Hr IH Hy]; simpl.
  - repeat constructor.
  - destruct (Z.leb_spec (cmp x y) 0) as [Hle|Hgt].
    + apply cmp_key in Hle.
      constructor; [constructor; assumption|].
      constructor; [exact Hle|].
      rewrite Forall_forall in *. intros z Hz.
      unfold le in *. specialize (Hy z Hz). lia.
    + constructor; [exact IH|].
      rewrite Forall_forall in *. intros z Hz.
      apply insert_sorted_In in Hz. destruct Hz as [->|Hz].
      * unfold le. destruct (Z.le_gt_cases (key y) (key x)) as [?|Hlt]; auto.
        exfalso. assert (key x <= key y)%Z as Hxy by lia.
        apply cmp_key in Hxy. lia.
      * auto.
Qed.

Lemma sort_sorted l : StronglySorted le (sort cmp l).
Proof.
  induction l; simpl; [constructor | apply insert_sorted_sorted; assumption].
Qed.

(** Inserting in front of a sorted list whose elements are not below [x]
    puts [x] first. *)
Lemma insert_sorted_front x l :
  Forall (le x) l -> insert_sorted cmp x l = x :: l.
Proof.
  destruct l as [|y r]; simpl; [reflexivity|].
  intro H. inversion H as [|? ? Hxy _]; subst.
  apply cmp_key in Hxy. apply Z.leb_le in Hxy. rewrite Hxy. reflexivity.
Qed.

Lemma sort_sorted_id l : StronglySorted le l -> sort cmp l = l.
Proof.
  induction 1 as [|x r Hr IH Hx]; simpl; [reflexivity|].
  rewrite IH. apply insert_sorted_front. exact Hx.
Qed.

Lemma sort_idem l : sort cmp (sort cmp l) = sort cmp l.
Proof. apply sort_sorted_id, sort_sorted. Qed.

(** Stability: the elements of one key keep the order they had. *)
Lemma insert_sorted_filter (f : A -> bool) x l :
  (forall y, In y l -> f x = true -> f y = true -> key x = key y) ->
  StronglySorted le l ->
  filter f (insert_sorted cmp x l) = filter f (x :: l).
Proof.
  intros Hf Hs. induction Hs as [|y r Hr IH Hy]; simpl; [reflexivity|].
  destruct (Z.leb_spec (cmp x y) 0) as [Hle|Hgt]; [reflexivity|].
  simpl. rewrite IH by (intros; apply Hf; simpl; auto). simpl.
  destruct (f x) eqn:Hfx, (f y) eqn:Hfy; try reflexivity.
  exfalso. assert (key x = key y) as E by (apply Hf; simpl; auto).
  assert (key x <= key y)%Z as Hxy by lia. apply cmp_key in Hxy. lia.
Qed.

Lemma sort_stable (v : Z) l :
  filter (fun x => (key x =? v)%Z) (sort cmp l)
  = filter (fun x => (key x =? v)%Z) l.
Proof.
  induction l as [|x r IH]; simpl; [reflexivity|].
  rewrite insert_sorted_filter.
  - simpl. rewrite IH. reflexivity.
  - intros y _ Hx Hy. apply Z.eqb_eq in Hx, Hy. lia.
  - apply sort_sorted.
Qed.

(** Two sorted lists in which every key class reads the same are equal:
    sortedness and stability leave a sort no freedom. *)
Lemma sorted_stable_unique l1 l2 :
  StronglySorted le l1 -> StronglySorted le l2 ->
  (forall v, filter (fun x => (key x =? v)%Z) l1
             = filter (fun x => (key x =? v)%Z) l2) ->
  l1 = l2.
Proof.
  intros H1. revert l2. induction H1 as [|x r1 Hr1 IH Hx]; intros l2 H2 Hf.
  - destruct l2 as [|y r2]; [reflexivity|].
    specialize (Hf (key y)). simpl in Hf. rewrite Z.eqb_refl in Hf. discriminate.
  - destruct H2 as [|y r2 Hr2 Hy].
    + specialize (Hf (key x)). simpl in Hf. rewrite Z.eqb_refl in Hf. discriminate.
    + assert (key x = key y) as Exy.
      { assert (In x (y :: r2)) as Hin.
        { pose proof (Hf (key x)) as E. simpl in E. rewrite Z.eqb_refl in E.
          assert (In x (filter (fun x0 => (key x0 =? key x)%Z) (y :: r2))) as Hi
            by (simpl; rewrite <- E; left; reflexivity).
          apply filter_In in Hi. tauto. }
        assert (In y (x :: r1)) as Hin'.
        { pose proof (Hf (key y)) as E. simpl in E.
          rewrite (Z.eqb_refl (key y)) in E.
          assert (In y (filter (fun x0 => (key x0 =? key y)%Z) (x :: r1))) as Hi
            by (simpl; rewrite E; left; reflexivity).
          apply filter_In in Hi. tauto. }
        rewrite Forall_forall in Hx, Hy. unfold le in *.
        destruct Hin as [->|Hin]; [reflexivity|].
        destruct Hin' as [->|Hin']; [reflexivity|].
        specialize (Hx _ Hin'). specialize (Hy _ Hin). lia. }
      pose proof (Hf (key x)) as E. simpl in E.
      rewrite Z.eqb_refl in E. rewrite <- Exy, Z.eqb_refl in E.
      injection E as -> E.
      f_equal. apply IH; [assumption|].
      intro v. specialize (Hf v). simpl in Hf.
      destruct (key y =? v)%Z; [injection Hf; auto | exact Hf].
Qed.

End SortFacts.

(* ================================================================== *)
(** * The session index ([uniqueSessions]) *)
(* ================================================================== *)

Lemma str_eqb_eq a b : str_eqb a b = true <-> a = b.
Proof.
  unfold str_eqb. destruct (list_eq_dec N.eq_dec a b); split; congruence.
Qed.

Lemma str_eqb_refl a : str_eqb a a = true.
Proof. apply str_eqb_eq. reflexivity. Qed.

Section SessionIndex.

Lemma map_has_spec m k : map_has m k = true <-> In k (map fst m).
Proof.
  unfold map_has. rewrite existsb_exists. split.
  - intros [e [He Hk]]. apply str_eqb_eq in Hk. subst. apply in_map. exact He.
  - intros H. apply in_map_iff in H. destruct H as [e [<- He]].
    exists e. split; [exact He | apply str_eqb_refl].
Qed.

Lemma map_set_fresh m k v :
  map_has m k = false -> map_set m k v = m ++ [(k, v)].
Proof.
  induction m as [|[k' v'] r IH]; simpl; [reflexivity|].
  unfold map_has. simpl. intro H. apply orb_false_elim in H.
  destruct H as [Hk Hr]. rewrite Hk. f_equal. apply IH. exact Hr.
Qed.

Lemma seen_has (seen : list jsstring) k :
  existsb (str_eqb k) seen = true <-> In k seen.
Proof.
  rewrite existsb_exists. split.
  - intros [x [Hx E]]. apply str_eqb_eq in E. subst. exact Hx.
  - intro H. exists k. split; [exact H | apply str_eqb_refl].
Qed.

Lemma bool_iff (a b : bool) : (a = true <-> b = true) -> a = b.
Proof. destruct a, b; intuition congruence. Qed.

(** The map built by the loop holds, after what it held, the first summary
    of each new session id, in input order. *)
Lemma index_values l : forall m seen,
  (forall k, In k seen <-> In k (map fst m)) ->
  map_values (fold_left index_step l m) = map_values m ++ first_of_each seen l.
Proof.
  induction l as [|c r IH]; intros m seen Hseen; simpl.
  - rewrite app_nil_r. reflexivity.
  - assert (existsb (str_eqb (session_id c)) seen = map_has m (session_id c)) as E.
    { apply bool_iff. rewrite seen_has, map_has_spec. apply Hseen. }
    rewrite E. unfold index_step at 2.
    destruct (map_has m (session_id c)) eqn:Hhas; simpl.
    + apply IH. exact Hseen.
    + rewrite map_set_fresh by exact Hhas.
      rewrite (IH _ (session_id c :: seen)).
      * unfold map_values. rewrite map_app. simpl. rewrite <- app_assoc. reflexivity.
      * intro k. rewrite map_app, in_app_iff. simpl. rewrite Hseen. tauto.
Qed.

Lemma uniqueSessions_eq l :
  uniqueSessions l
  = sort (fun a b => (time_of b - time_of a)%Z) (first_of_each [] l).
Proof.
  unfold uniqueSessions. f_equal.
  change (fold_left _ l []) with (fold_left index_step l []).
  rewrite (index_values l [] []); [reflexivity|].
  intro k. simpl. tauto.
Qed.

(** A summary is kept exactly when it is the first of its id and the id
    was not seen before. *)
Lemma first_of_each_In c l : forall seen,
  In c (first_of_each seen l) <->
  ~ In (session_id c) seen /\
  exists pre post, l = pre ++ c :: post /\
    forall c', In c' pre -> session_id c' <> session_id c.
Proof.
  induction l as [|x r IH]; intro seen; simpl.
  - split; [tauto|]. intros [_ [pre [post [E _]]]]. destruct pre; discriminate.
  - destruct (existsb (str_eqb (session_id x)) seen) eqn:Hx.
    + apply seen_has in Hx. rewrite IH. split.
      * intros [Hn [pre [post [-> Hpre]]]]. split; [exact Hn|].
        exists (x :: pre), post. split; [reflexivity|].
        intros c' [<-|Hc']; [congruence | auto].
      * intros [Hn [pre [post [E Hpre]]]]. split; [exact Hn|].
        destruct pre as [|y pre]; simpl in E; injection E as -> ->.
        -- contradiction.
        -- exists pre, post. split; [reflexivity|]. intros; apply Hpre; simpl; auto.
    + assert (~ In (session_id x) seen) as Hnx.
      { intro H. apply seen_has in H. congruence. }
      simpl. rewrite IH. split.
      * intros [->|[Hn [pre [post [-> Hpre]]]]].
        -- split; [exact Hnx|]. exists [], r. split; [reflexivity|]. intros ? [].
        -- simpl in Hn. split; [tauto|].
           exists (x :: pre), post. split; [reflexivity|].
           intros c' [<-|Hc']; [intro E; apply Hn; left; exact E | auto].
      * intros [Hn [pre [post [E Hpre]]]].
        destruct pre as [|y pre]; simpl in E; injection E as -> ->.
        -- left. reflexivity.
        -- right. split.
           ++ simpl. intros [E|E]; [|contradiction].
              apply (Hpre y); simpl; auto.
           ++ exists pre, post. split; [reflexivity|]. intros; apply Hpre; simpl; auto.
Qed.

Lemma first_of_each_NoDup l : forall seen,
  NoDup (map session_id (first_of_each seen l)).
Proof.
  induction l as [|x r IH]; intro seen; simpl; [constructor|].
  destruct (existsb (str_eqb (session_id x)) seen); [apply IH|].
  simpl. constructor; [|apply IH].
  intro H. apply in_map_iff in H. destruct H as [c [E Hc]].
  apply first_of_each_In in Hc. destruct Hc as [Hn _].
  apply Hn. left. symmetry. exact E.
Qed.

End SessionIndex.

Lemma newest_first_cmp a b :
  (time_of b - time_of a <= 0 <-> - time_of a <= - time_of b)%Z.
Proof. lia. Qed.

(** C10 (amended).  [uniqueSessions] keeps, for each session id, exactly
    the summary met first in the input (a summary is in the result exactly
    when nothing before it in the input has its id, and no id occurs
    twice); the result is ordered by [timestamp || 0] descending, summaries
    of equal time in the order the input had them.  A summary without a
    timestamp counts as one of time 0: what stands before it has a time of
    0 or more and what stands after it a time of 0 or less, so it follows
    every summary of positive time and precedes every one of negative
    time, and the summaries without a timestamp are last when every
    timestamp of the input is positive.  The index of [a:5, b:10, a:1] is
    [b:10, a:5]. *)
Theorem C10_uniqueSessions_first_seen_newest_first :
  forall l : list ConversationItem,
    (forall c, In c (uniqueSessions l) <->
       exists pre post, l = pre ++ c :: post /\
         forall c', In c' pre -> session_id c' <> session_id c)
    /\ NoDup (map session_id (uniqueSessions l))
    /\ StronglySorted (fun a b => (time_of a >= time_of b)%Z) (uniqueSessions l)
    /\ (forall t, filter (fun c => (time_of c =? t)%Z) (uniqueSessions l)
                  = filter (fun c => (time_of c =? t)%Z) (first_of_each [] l))
    /\ (forall pre u post, uniqueSessions l = pre ++ u :: post ->
          conv_timestamp u = None ->
          (forall d, In d pre -> (0 <= time_of d)%Z)
          /\ (forall d, In d post -> (time_of d <= 0)%Z))
    /\ ((forall c t, In c l -> conv_timestamp c = Some t -> (0 < t)%Z) ->
        forall pre u post d, uniqueSessions l = pre ++ u :: post ->
          conv_timestamp u = None -> In d post -> conv_timestamp d = None)
    /\ uniqueSessions [conv "a" (Some 5%Z); conv "b" (Some 10%Z);
                       conv "a" (Some 1%Z)]
       = [conv "b" (Some 10%Z); conv "a" (Some 5%Z)].
Proof.
  intro l.
  assert (StronglySorted (fun a b => (time_of a >= time_of b)%Z)
            (uniqueSessions l)) as Hsorted.
  { rewrite uniqueSessions_eq.
    pose proof (sort_sorted (fun a b => (time_of b - time_of a)%Z)
                  (fun c => (- time_of c)%Z) newest_first_cmp
                  (first_of_each [] l)) as H.
    induction H as [|x r Hr IH Hx]; constructor; [exact IH|].
    eapply Forall_impl; [|exact Hx]. simpl. intros; lia. }
  assert (forall c, In c (uniqueSessions l) <->
            exists pre post, l = pre ++ c :: post /\
              forall c', In c' pre -> session_id c' <> session_id c) as Hin.
  { intro c. rewrite uniqueSessions_eq. split.
    - intro H. apply (Permutation_in _ (sort_perm _ _)) in H.
      apply first_of_each_In in H. tauto.
    - intro H.
      apply (Permutation_in _ (Permutation_sym (sort_perm _ _))).
      apply first_of_each_In. split; [intros []|exact H]. }
  assert (forall pre u post, uniqueSessions l = pre ++ u :: post ->
            conv_timestamp u = None ->
            (forall d, In d pre -> (0 <= time_of d)%Z)
            /\ (forall d, In d post -> (time_of d <= 0)%Z)) as Hzero.
  { intros pre u post E Hu.
    assert (StronglySorted (fun a b => (time_of a >= time_of b)%Z)
              (pre ++ u :: post)) as Hs by (rewrite <- E; exact Hsorted).
    assert (time_of u = 0%Z) as Hu0 by (unfold time_of; rewrite Hu; reflexivity).
    clear E. split.
    - induction pre as [|x pre IH]; [intros d []|].
      cbn [app] in Hs. inversion Hs as [|? ? Hr Hall]; subst.
      intros d [<-|Hd]; [|exact (IH Hr d Hd)].
      rewrite Forall_forall in Hall.
      assert (In u (pre ++ u :: post)) as Hin_u
        by (apply in_or_app; right; left; reflexivity).
      specialize (Hall u Hin_u). lia.
    - induction pre as [|x pre IH].
      + cbn [app] in Hs. inversion Hs as [|? ? _ Hall]; subst.
        rewrite Forall_forall in Hall. intros d Hd.
        specialize (Hall d Hd). lia.
      + cbn [app] in Hs. inversion Hs; subst. apply IH. assumption. }
  split; [exact Hin|]. split; [|split; [exact Hsorted|]].
  { rewrite uniqueSessions_eq.
    eapply Permutation_NoDup;
      [apply Permutation_map, Permutation_sym, sort_perm|].
    apply first_of_each_NoDup. }
  split; [|split; [exact Hzero|split; [|reflexivity]]].
  - intro t. rewrite uniqueSessions_eq.
    set (cmp := fun a b => (time_of b - time_of a)%Z).
    set (key := fun c => (- time_of c)%Z).
    pose proof (sort_stable cmp key newest_first_cmp (- t)%Z (first_of_each [] l)) as H.
    assert (forall c : ConversationItem,
              (time_of c =? t)%Z = (key c =? - t)%Z) as E.
    { intro c. unfold key. apply bool_iff. rewrite !Z.eqb_eq. lia. }
    rewrite !(filter_ext _ _ E). exact H.
  - intros Hpos pre u post d E Hu Hd.
    destruct (Hzero pre u post E Hu) as [_ Hpost].
    specialize (Hpost d Hd).
    destruct (conv_timestamp d) as [t|] eqn:Ht; [|reflexivity].
    exfalso.
    assert (In d (uniqueSessions l)) as Hdl.
    { rewrite E. apply in_or_app. right. right. exact Hd. }
    apply Hin in Hdl. destruct Hdl as [a [b [El _]]].
    assert (In d l) as Hl by (rewrite El; apply in_or_app; right; left; reflexivity).
    specialize (Hpos d t Hl Ht). unfold time_of in Hpost. rewrite Ht in Hpost.
    lia.
Qed.

(** C10 as stated fails: a summary without a timestamp is not placed last
    when another one has a negative timestamp or the timestamp 0. *)
Lemma C10_undated_session_is_not_last :
  uniqueSessions [conv "m" None; conv "n" (Some (-3)%Z)]
  = [conv "m" None; conv "n" (Some (-3)%Z)]
  /\ uniqueSessions [conv "m" None; conv "z" (Some 0%Z)]
     = [conv "m" None; conv "z" (Some 0%Z)]
  /\ ~ (forall l pre u post d,
          uniqueSessions l = pre ++ u :: post ->
          conv_timestamp u = None -> In d post -> conv_timestamp d = None).
Proof.
  split; [reflexivity|]. split; [reflexivity|].
  intro H.
  specialize (H [conv "m" None; conv "n" (Some (-3)%Z)] []
                (conv "m" None) [conv "n" (Some (-3)%Z)]
                (conv "n" (Some (-3)%Z)) eq_refl eq_refl
                (or_introl eq_refl)).
  discriminate H.
Qed.

(* ================================================================== *)
(** * Rendering: text and tool results interleaved *)
(* ================================================================== *)

Section Interleave.
Variable text : jsstring.

Lemma anchor_cmp_key a b :
  (anchor_cmp a b <= 0 <-> anchor_key a <= anchor_key b)%Z.
Proof. unfold anchor_cmp, anchor_key. lia. Qed.

Lemma last_cons (A : Type) (l : list A) : forall x d, last (x :: l) d = last l x.
Proof.
  induction l as [|y r IH]; intros x d; [reflexivity|].
  change (last (x :: y :: r) d) with (last (y :: r) d).
  rewrite (IH y d), (IH y x). reflexivity.
Qed.

Lemma interleave_loop l : forall segments from,
  fold_left (interleave_step text) l (segments, from)
  = (segments ++ woven text from l, last (map insertPosition l) from).
Proof.
  induction l as [|c r IH]; intros segments from.
  - simpl. rewrite app_nil_r. reflexivity.
  - cbn [fold_left]. unfold interleave_step at 2. rewrite IH.
    f_equal.
    + cbn [woven]. unfold blank.
      destruct (from <? insertPosition c);
        [destruct (nonempty (trim (substring text from (insertPosition c))))|];
        simpl; rewrite <- ?app_assoc; reflexivity.
    + cbn [map]. rewrite last_cons. reflexivity.
Qed.

Lemma substring_empty from p : p <= from -> substring text from p = [].
Proof.
  intro H. unfold substring. replace (p - from) with 0 by lia. reflexivity.
Qed.

Lemma texts_app a b : texts (a ++ b) = texts a ++ texts b.
Proof. unfold texts. apply flat_map_app. Qed.

Lemma tools_app a b : tools (a ++ b) = tools a ++ tools b.
Proof. unfold tools. apply flat_map_app. Qed.

(** The texts the loop and the tail emit are the pieces between the cut
    points that are not blank. *)
Lemma woven_texts l : forall from,
  texts (woven text from l)
  ++ (if last (map insertPosition l) from <? List.length text then
        if blank (substring_from text (last (map insertPosition l) from))
        then [] else [substring_from text (last (map insertPosition l) from)]
      else [])
  = filter (fun g => negb (blank g)) (gaps text from (map insertPosition l)).
Proof.
  induction l as [|c r IH]; intro from.
  - simpl.
    destruct (Nat.ltb_spec from (List.length text)) as [Hlt|Hge].
    + destruct (blank (substring_from text from)); reflexivity.
    + unfold substring_from. rewrite skipn_all2 by lia. reflexivity.
  - cbn [woven map gaps]. rewrite texts_app. cbn [texts flat_map].
    change (flat_map _ (woven text (insertPosition c) r))
      with (texts (woven text (insertPosition c) r)).
    rewrite last_cons.
    rewrite <- app_assoc. cbn [app]. rewrite IH.
    cbn [filter].
    destruct (Nat.ltb_spec from (insertPosition c)) as [Hlt|Hge].
    + destruct (blank (substring text from (insertPosition c))); reflexivity.
    + rewrite substring_empty by lia. reflexivity.
Qed.

Lemma woven_tools l : forall from,
  tools (woven text from l) = map (fun c => (toolOutput c, toolName c)) l.
Proof.
  induction l as [|c r IH]; intro from; [reflexivity|].
  cbn [woven map]. rewrite tools_app.
  replace (tools (if from <? insertPosition c then _ else _)) with (@nil (JsValue * JsValue))
    by (destruct (from <? insertPosition c);
        [destruct (blank _)|]; reflexivity).
  simpl. f_equal. apply IH.
Qed.

(** Cut at ascending points, the pieces make up the text again. *)
Lemma gaps_concat cuts : forall from,
  StronglySorted le (from :: cuts) ->
  concat (gaps text from cuts) = skipn from text.
Proof.
  induction cuts as [|p r IH]; intros from Hs.
  - simpl. rewrite app_nil_r. reflexivity.
  - inversion Hs as [|? ? Hr Hall]; subst.
    inversion Hall as [|? ? Hp _]; subst.
    cbn [gaps concat]. rewrite IH by exact Hr.
    unfold substring.
    replace (skipn p text) with (skipn (p - from) (skipn from text)).
    + apply firstn_skipn.
    + rewrite skipn_skipn. f_equal. lia.
Qed.

End Interleave.

Lemma interleave_cons text c rest :
  interleave text (Some (c :: rest))
  = woven text 0 (sort anchor_cmp (c :: rest))
    ++ (let from := last (map insertPosition (sort anchor_cmp (c :: rest))) 0 in
        if from <? List.length text then
          if blank (substring_from text from) then []
          else [MarkdownMessage (substring_from text from)]
        else []).
Proof.
  unfold interleave.
  change (fun a b : ToolCall =>
            (Z.of_nat (insertPosition a) - Z.of_nat (insertPosition b))%Z)
    with anchor_cmp.
  rewrite interleave_loop. cbn [app]. cbv zeta. unfold blank.
  destruct (_ <? List.length text);
    [destruct (nonempty (trim _))|]; simpl; rewrite ?app_nil_r; reflexivity.
Qed.

Lemma sort_cons_nonempty (c : ToolCall) rest :
  exists c' rest', sort anchor_cmp (c :: rest) = c' :: rest'.
Proof.
  destruct (sort anchor_cmp (c :: rest)) as [|c' rest'] eqn:E.
  - pose proof (sort_perm anchor_cmp (c :: rest)) as P. rewrite E in P.
    apply Permutation_nil in P. discriminate.
  - eauto.
Qed.

(** C5 (amended).  For a message with at least one tool call, the
    rendering emits the tool results ordered by [insertPosition] ascending,
    calls of equal position in arrival order; sorting the calls beforehand
    does not change it; and the texts it emits are, in order, the pieces of
    the text between consecutive cut points (the start, the sorted
    positions, the end) that are not blank, pieces which together make up
    the whole text.  A message without tool calls is rendered as its whole
    text, blank or not. *)
Theorem C5_interleave_sorted_tools_and_text_pieces :
  forall (text : jsstring) (c : ToolCall) (rest : list ToolCall),
    let calls := c :: rest in
    let sorted := sort anchor_cmp calls in
    Permutation sorted calls
    /\ StronglySorted (fun a b => insertPosition a <= insertPosition b) sorted
    /\ (forall p, filter (fun x => insertPosition x =? p) sorted
                  = filter (fun x => insertPosition x =? p) calls)
    /\ tools (interleave text (Some calls))
       = map (fun x => (toolOutput x, toolName x)) sorted
    /\ interleave text (Some sorted) = interleave text (Some calls)
    /\ texts (interleave text (Some calls))
       = filter (fun g => negb (blank g))
                (gaps text 0 (map insertPosition sorted))
    /\ concat (texts (interleave text (Some calls)))
       = elided text (map insertPosition sorted)
    /\ concat (gaps text 0 (map insertPosition sorted)) = text
    /\ interleave text (Some []) = [MarkdownMessage text]
    /\ interleave text None = [MarkdownMessage text].
Proof.
  intros text c rest calls sorted.
  assert (StronglySorted (fun a b => insertPosition a <= insertPosition b) sorted)
    as Hsorted.
  { pose proof (sort_sorted anchor_cmp anchor_key anchor_cmp_key calls) as H.
    fold sorted in H. induction H as [|x r Hr IH Hx]; constructor; [exact IH|].
    eapply Forall_impl; [|exact Hx]. unfold anchor_key. simpl. intros; lia. }
  assert (texts (interleave text (Some calls))
          = filter (fun g => negb (blank g))
                   (gaps text 0 (map insertPosition sorted))) as Htexts.
  { unfold calls. rewrite interleave_cons. fold calls. fold sorted.
    rewrite texts_app. rewrite <- (woven_texts text sorted 0). f_equal.
    cbv zeta. destruct (_ <? List.length text); [destruct (blank _)|]; reflexivity. }
  repeat split.
  - apply sort_perm.
  - exact Hsorted.
  - intro p.
    pose proof (sort_stable anchor_cmp anchor_key anchor_cmp_key (Z.of_nat p) calls) as H.
    assert (forall x : ToolCall,
              (insertPosition x =? p) = (anchor_key x =? Z.of_nat p)%Z) as E.
    { intro x. unfold anchor_key. apply bool_iff.
      rewrite Nat.eqb_eq, Z.eqb_eq. lia. }
    rewrite !(filter_ext _ _ E). exact H.
  - unfold calls. rewrite interleave_cons. fold calls. fold sorted.
    rewrite tools_app, woven_tools.
    replace (tools _) with (@nil (JsValue * JsValue)); [apply app_nil_r|].
    cbv zeta. destruct (_ <? List.length text); [destruct (blank _)|]; reflexivity.
  - destruct (sort_cons_nonempty c rest) as [c' [rest' E]].
    unfold sorted, calls. rewrite E, !interleave_cons, <- E.
    rewrite (sort_idem anchor_cmp anchor_key anchor_cmp_key). reflexivity.
  - exact Htexts.
  - rewrite Htexts. reflexivity.
  - rewrite gaps_concat; [reflexivity|].
    constructor.
    + clear -Hsorted. induction Hsorted as [|x r Hr IH Hx]; simpl; constructor.
      * exact IH.
      * rewrite Forall_forall in *. intros p Hp. apply in_map_iff in Hp.
        destruct Hp as [y [<- Hy]]. auto.
    + apply Forall_forall. intros; lia.
Qed.

(** C5 as stated fails for a message without tool calls whose text is a
    single space: the space is rendered, although the only piece between
    the cut points (the start and the end) is blank. *)
Lemma C5_blank_text_without_tools_is_rendered :
  interleave (lit " ") (Some []) = [MarkdownMessage (lit " ")]
  /\ concat (texts (interleave (lit " ") (Some [])))
     <> elided (lit " ") (map insertPosition (sort anchor_cmp [])).
Proof. split; [reflexivity | discriminate]. Qed.

(* ================================================================== *)
(** * Line framing *)
(* ================================================================== *)

Lemma pop_snoc (A : Type) (l : list A) (x : A) : pop (l ++ [x]) = (l, Some x).
Proof. unfold pop. rewrite rev_unit, rev_involutive. reflexivity. Qed.

Lemma split_nl_lines_rest s :
  split_nl s = fst (lines_rest s) ++ [snd (lines_rest s)].
Proof.
  induction s as [|c r IH]; [reflexivity|].
  simpl. destruct (lines_rest r) as [ls rest]. simpl in IH. rewrite IH.
  destruct (c =? 10)%N; [reflexivity|].
  destruct ls; reflexivity.
Qed.

Lemma pop_split_nl s :
  pop (split_nl s) = (fst (lines_rest s), Some (snd (lines_rest s))).
Proof. rewrite split_nl_lines_rest. apply pop_snoc. Qed.

(** Splitting a text that arrives in two parts: the lines of the first
    part, then the lines of what the first part left over followed by the
    second part. *)
Lemma lines_rest_app a b :
  lines_rest (a ++ b)
  = (fst (lines_rest a) ++ fst (lines_rest (snd (lines_rest a) ++ b)),
     snd (lines_rest (snd (lines_rest a) ++ b))).
Proof.
  induction a as [|c r IH].
  - simpl. destruct (lines_rest b); reflexivity.
  - cbn [app lines_rest]. rewrite IH.
    destruct (lines_rest r) as [la ra]. cbn [fst snd].
    destruct (c =? 10)%N eqn:Hc.
    + reflexivity.
    + destruct la as [|l la'].
      * cbn [fst snd app lines_rest]. rewrite Hc.
        destruct (lines_rest (ra ++ b)) as [lb rb]. cbn [fst snd].
        destruct lb; reflexivity.
      * reflexivity.
Qed.

Lemma decode_app a : forall d b,
  decode d (a ++ b)
  = (fst (decode (fst (decode d a)) b),
     snd (decode d a) ++ snd (decode (fst (decode d a)) b)).
Proof.
  induction a as [|x r IH]; intros d b.
  - simpl. destruct (decode d b); reflexivity.
  - cbn [app decode]. destruct (decode_byte d x) as [d1 o1].
    rewrite IH. destruct (decode d1 r) as [d2 o2]. cbn [fst snd].
    destruct (decode d2 b) as [d3 o3]. cbn [fst snd].
    rewrite app_assoc. reflexivity.
Qed.

(** What is left over holds no newline. *)
Lemma lines_rest_rest s :
  lines_rest (snd (lines_rest s)) = ([], snd (lines_rest s)).
Proof.
  induction s as [|c r IH]; [reflexivity|].
  cbn [lines_rest]. destruct (lines_rest r) as [ls rest]. cbn [snd] in IH.
  destruct (c =? 10)%N eqn:Hc; [exact IH|].
  destruct ls; [|exact IH].
  cbn [snd lines_rest]. rewrite IH, Hc. reflexivity.
Qed.

Lemma frame_chunk_eq d buf acc v :
  frame_chunk (d, buf, acc) v
  = (fst (decode d v),
     snd (lines_rest (buf ++ snd (decode d v))),
     acc ++ fst (lines_rest (buf ++ snd (decode d v)))).
Proof.
  unfold frame_chunk. destruct (decode d v) as [d1 text]. cbn [fst snd].
  rewrite pop_split_nl. reflexivity.
Qed.

(** The framing of a chunk sequence depends on the chunks only through
    their concatenation. *)
Lemma frame_canonical values : forall d buf acc,
  lines_rest buf = ([], buf) ->
  fold_left frame_chunk values (d, buf, acc)
  = (fst (decode d (concat values)),
     snd (lines_rest (buf ++ snd (decode d (concat values)))),
     acc ++ fst (lines_rest (buf ++ snd (decode d (concat values))))).
Proof.
  induction values as [|v r IH]; intros d buf acc Hbuf.
  - simpl. rewrite !app_nil_r, Hbuf. simpl. rewrite app_nil_r. reflexivity.
  - cbn [fold_left concat]. rewrite frame_chunk_eq.
    rewrite IH by apply lines_rest_rest.
    rewrite decode_app. cbn [fst snd].
    rewrite (app_assoc buf), (lines_rest_app (buf ++ snd (decode d v))).
    cbn [fst snd]. rewrite <- app_assoc. reflexivity.
Qed.

Lemma framed_lines_canonical values :
  framed_lines values = lines_rest (decoded (concat values)).
Proof.
  unfold framed_lines, decoded.
  rewrite frame_canonical by reflexivity. cbn [app].
  destruct (lines_rest _); reflexivity.
Qed.

Section ReadLoop.
Context {NO : NumberOps} {S : Type}.
Variable h : StreamHandlers S.

Lemma on_chunk_eq d buf (s : S) v :
  on_chunk h (d, buf, s) v
  = (fst (decode d v),
     snd (lines_rest (buf ++ snd (decode d v))),
     fold_left (on_line h) (fst (lines_rest (buf ++ snd (decode d v)))) s).
Proof.
  unfold on_chunk. destruct (decode d v) as [d1 text]. cbn [fst snd].
  rewrite pop_split_nl. reflexivity.
Qed.

(** The read loop hands the framed lines, in order, to [on_line]. *)
Lemma read_loop_frames values : forall d buf acc (s : S),
  fold_left (on_chunk h) values (d, buf, fold_left (on_line h) acc s)
  = let '(d', buf', lines) := fold_left frame_chunk values (d, buf, acc) in
    (d', buf', fold_left (on_line h) lines s).
Proof.
  induction values as [|v r IH]; intros d buf acc s; [reflexivity|].
  cbn [fold_left]. rewrite on_chunk_eq, frame_chunk_eq.
  rewrite <- fold_left_app. apply IH.
Qed.

Lemma read_loop_eq values (s : S) :
  read_loop h values s
  = (fst (decode fresh (concat values)),
     snd (framed_lines values),
     fold_left (on_line h) (fst (framed_lines values)) s).
Proof.
  unfold read_loop.
  etransitivity; [exact (read_loop_frames values fresh [] [] s)|].
  rewrite framed_lines_canonical, frame_canonical by reflexivity.
  reflexivity.
Qed.

End ReadLoop.

(** C3.  Two ways of cutting the same bytes into chunks give the read loop
    the same lines in the same order and leave the same text in [buf]; so
    [sendChatMessage] ends in the same state with the same outcome, whatever
    the handlers are, and invokes the same handlers with the same arguments
    in the same order. *)
Theorem C3_framing_independent_of_chunking :
  forall (values1 values2 : list (list byte)),
    concat values1 = concat values2 ->
    framed_lines values1 = framed_lines values2
    /\ (forall (NO : NumberOps) (S : Type) (h : StreamHandlers S)
               (fetch : Request -> S -> S) (q : jsstring) (sid : JsValue)
               (code : N) (e : StreamEnd) (s : S),
          sendChatMessage h fetch q sid
            (Resolved {| status := code;
                         body := Some {| chunks := values1; ending := e |} |}) s
          = sendChatMessage h fetch q sid
              (Resolved {| status := code;
                           body := Some {| chunks := values2; ending := e |} |}) s)
    /\ (forall (NO : NumberOps) (code : N) (e : StreamEnd),
          calls (Resolved {| status := code;
                             body := Some {| chunks := values1; ending := e |} |})
          = calls (Resolved {| status := code;
                               body := Some {| chunks := values2; ending := e |} |})).
Proof.
  intros values1 values2 E.
  assert (framed_lines values1 = framed_lines values2) as Hframes
    by (rewrite !framed_lines_canonical, E; reflexivity).
  assert (forall (NO : NumberOps) (S : Type) (h : StreamHandlers S)
               (fetch : Request -> S -> S) (q : jsstring) (sid : JsValue)
               (code : N) (e : StreamEnd) (s : S),
          sendChatMessage h fetch q sid
            (Resolved {| status := code;
                         body := Some {| chunks := values1; ending := e |} |}) s
          = sendChatMessage h fetch q sid
              (Resolved {| status := code;
                           body := Some {| chunks := values2; ending := e |} |}) s)
    as Hsend.
  { intros. unfold sendChatMessage. cbn [body chunks ending].
    rewrite !read_loop_eq, Hframes, ?E. reflexivity. }
  split; [exact Hframes|]. split; [exact Hsend|].
  intros. unfold calls. rewrite Hsend. reflexivity.
Qed.

Lemma C3_witness_split_inside_a_character :
  concat cafe_split = concat cafe_whole
  /\ framed_lines cafe_split = framed_lines cafe_whole
  /\ fst (framed_lines cafe_split)
     = [jlit "{'type':'ai','content':'caf" ++ [233%N] ++ jlit "'}"].
Proof.
  split; [reflexivity|].
  split; [apply (C3_framing_independent_of_chunking cafe_split cafe_whole);
          reflexivity|].
  reflexivity.
Defined.

(* ================================================================== *)
(** * The handler invocations of a send *)
(* ================================================================== *)

(** Going through the cases of [switch (obj.type)]. *)
Ltac case_tags t :=
  repeat match goal with
         | |- context [if is_str t ?x then _ else _] => destruct (is_str t x)
         end;
  reflexivity.

Section Trace.
Context {NO : NumberOps}.

Section AnyHandlers.
Variable S : Type.
Variable h : StreamHandlers S.

Lemma dispatch_calls obj (s : S) :
  dispatch h obj s = fold_left (invoke h) (dispatch recorder obj []) s.
Proof.
  unfold dispatch. destruct (get obj (lit "type")) as [t|]; [|reflexivity].
  case_tags t.
Qed.

Lemma on_line_calls line (s : S) :
  on_line h s line = fold_left (invoke h) (line_calls line) s.
Proof.
  unfold line_calls, on_line.
  destruct (negb (nonempty (trim line))); [reflexivity|].
  destruct (JSON_parse line); [apply dispatch_calls | reflexivity].
Qed.

Lemma on_lines_calls lines : forall s : S,
  fold_left (on_line h) lines s
  = fold_left (invoke h) (flat_map line_calls lines) s.
Proof.
  induction lines as [|l r IH]; intro s; [reflexivity|].
  cbn [fold_left flat_map]. rewrite fold_left_app, <- on_line_calls. apply IH.
Qed.

Lemma on_residual_calls buf (s : S) :
  on_residual h buf s = fold_left (invoke h) (residual_calls buf) s.
Proof.
  unfold residual_calls, on_residual.
  destruct (nonempty (trim buf)); [|reflexivity].
  destruct (JSON_parse buf) as [obj|]; [|reflexivity].
  destruct (get obj (lit "type")) as [t|]; [|reflexivity].
  destruct (is_str t (lit "ai")); reflexivity.
Qed.

End AnyHandlers.

Lemma record_more cs : forall log : list Call,
  fold_left (invoke recorder) cs log = log ++ cs.
Proof.
  induction cs as [|c r IH]; intro log; [symmetry; apply app_nil_r|].
  cbn [fold_left]. rewrite IH.
  destruct c; simpl; rewrite <- app_assoc; reflexivity.
Qed.

Lemma calls_eq net :
  calls net
  = match net with
    | Rejected _ => []
    | Resolved resp =>
        match body resp with
        | None => []
        | Some b => events (chunks b) (ending b)
        end
    end.
Proof.
  unfold calls, sendChatMessage.
  destruct net as [e|resp]; [reflexivity|].
  destruct (body resp) as [b|]; [|reflexivity].
  rewrite read_loop_eq. unfold events.
  rewrite on_lines_calls, record_more. cbn [app].
  destruct (ending b); cbn [final].
  - rewrite on_residual_calls, record_more. simpl. rewrite app_assoc. reflexivity.
  - rewrite app_nil_r. reflexivity.
Qed.

(** Whatever the handlers, a send ends in the state its invocations lead
    to, and how it ends depends on the network alone. *)
Lemma send_runs_calls (S : Type) (h : StreamHandlers S)
  (fetch : Request -> S -> S) q sid net (s : S) :
  sendChatMessage h fetch q sid net s
  = {| final := fold_left (invoke h) (calls net)
                  (fetch (PostChat (payload q sid)) s);
       outcome := match thrown net with
                  | Some e => Throws e
                  | None => Returns
                  end |}.
Proof.
  rewrite calls_eq. unfold sendChatMessage, thrown.
  destruct net as [e|resp]; [reflexivity|].
  destruct (body resp) as [b|]; [|reflexivity].
  rewrite read_loop_eq. unfold events.
  rewrite fold_left_app, <- on_lines_calls.
  destruct (ending b); [|reflexivity].
  rewrite fold_left_app, <- on_residual_calls. reflexivity.
Qed.

Lemma line_calls_data line : forallb is_data (line_calls line) = true.
Proof.
  unfold line_calls, on_line.
  destruct (negb (nonempty (trim line))); [reflexivity|].
  destruct (JSON_parse line) as [obj|]; [|reflexivity].
  unfold dispatch. destruct (get obj (lit "type")) as [t|]; [|reflexivity].
  case_tags t.
Qed.

Lemma residual_calls_data buf : forallb is_data (residual_calls buf) = true.
Proof.
  unfold residual_calls, on_residual.
  destruct (nonempty (trim buf)); [|reflexivity].
  destruct (JSON_parse buf) as [obj|]; [|reflexivity].
  destruct (get obj (lit "type")) as [t|]; [|reflexivity].
  destruct (is_str t (lit "ai")); reflexivity.
Qed.

Lemma lines_calls_data lines :
  forallb is_data (flat_map line_calls lines) = true.
Proof.
  induction lines as [|l r IH]; [reflexivity|].
  cbn [flat_map]. rewrite forallb_app, line_calls_data, IH. reflexivity.
Qed.

(** A send invokes [onComplete] last and only when it does not throw, and
    [onError] never. *)
Lemma calls_shape net :
  exists data, forallb is_data data = true
    /\ calls net = data ++ match thrown net with
                           | Some _ => []
                           | None => [CComplete]
                           end.
Proof.
  rewrite calls_eq. unfold thrown.
  destruct net as [e|resp]; [exists []; split; reflexivity|].
  destruct (body resp) as [b|]; [|exists []; split; reflexivity].
  unfold events. destruct (ending b).
  - exists (flat_map line_calls (fst (framed_lines (chunks b)))
            ++ residual_calls (snd (framed_lines (chunks b)))).
    split; [|apply app_assoc].
    rewrite forallb_app, lines_calls_data, residual_calls_data. reflexivity.
  - exists (flat_map line_calls (fst (framed_lines (chunks b)))).
    split; [apply lines_calls_data | reflexivity].
Qed.

End Trace.

Section Counting.
Context {NO : NumberOps}.

Lemma times_app kind a b : times kind (a ++ b) = times kind a + times kind b.
Proof. unfold times. rewrite filter_app, length_app. reflexivity. Qed.

Lemma times_data_none kind data :
  (forall c, kind c = true -> is_data c = false) ->
  forallb is_data data = true -> times kind data = 0.
Proof.
  intros Hk Hd. unfold times. induction data as [|c r IH]; [reflexivity|].
  cbn [forallb] in Hd. apply andb_prop in Hd. destruct Hd as [Hc Hr].
  cbn [filter]. destruct (kind c) eqn:E; [|apply IH; exact Hr].
  apply Hk in E. congruence.
Qed.

Lemma never_onError net : times is_error (calls net) = 0.
Proof.
  destruct (calls_shape net) as [data [Hd ->]]. rewrite times_app.
  rewrite (times_data_none is_error data); [|destruct c; simpl; congruence|exact Hd].
  destruct (thrown net); reflexivity.
Qed.

Lemma onComplete_iff_returns net :
  times is_complete (calls net)
  = match thrown net with Some _ => 0 | None => 1 end.
Proof.
  destruct (calls_shape net) as [data [Hd ->]]. rewrite times_app.
  rewrite (times_data_none is_complete data); [|destruct c; simpl; congruence|exact Hd].
  destruct (thrown net); reflexivity.
Qed.

End Counting.

(* ================================================================== *)
(** * The transcript under a stream of invocations *)
(* ================================================================== *)

Section Transcript.
Context {NO : NumberOps}.

Lemma update_last_ai_snoc f arr m :
  type m = ai -> update_last_ai f (arr ++ [m]) = arr ++ [f m].
Proof.
  intro H. unfold update_last_ai. rewrite pop_snoc, H. reflexivity.
Qed.

Lemma update_last_ai_user f arr m :
  type m = user -> update_last_ai f (arr ++ [m]) = arr ++ [m].
Proof.
  intro H. unfold update_last_ai. rewrite pop_snoc, H. reflexivity.
Qed.

(** The accumulated text grows by the deltas of the invocations, whatever
    the transcript holds. *)
Lemma buffer_accumulates cs : forall st,
  forallb is_data cs = true ->
  aiBufferRef (fold_left (invoke handlers) cs st) = aiBufferRef st ++ ai_text cs.
Proof.
  induction cs as [|c r IH]; intros st Hd; [symmetry; apply app_nil_r|].
  cbn [forallb] in Hd. apply andb_prop in Hd. destruct Hd as [Hc Hr].
  cbn [fold_left]. rewrite (IH _ Hr).
  destruct c; try discriminate Hc; cbn; rewrite <- ?app_assoc; reflexivity.
Qed.

(** The state after the invocations [cs] of a stream that has not ended,
    when the transcript ends with the assistant message being streamed. *)
Lemma stream_absorbed cs : forall st arr m had,
  forallb is_data cs = true ->
  messages st = arr ++ [m] -> type m = ai ->
  content m = aiBufferRef st -> toolCalls m = Some had ->
  fold_left (invoke handlers) cs st
  = {| messages :=
         arr ++ [assistant_message (timestamp m) (aiBufferRef st) had cs];
       input := input st;
       sessionId := last (session_ids cs) (sessionId st);
       allConvs := allConvs st;
       loading := loading st;
       processingRef := processingRef st;
       aiBufferRef := aiBufferRef st ++ ai_text cs;
       requests := requests st;
       console := console st |}.
Proof.
  induction cs as [|c r IH]; intros st arr m had Hdata Hm Ht Hc Hh.
  - destruct st, m; simpl in *; subst.
    unfold assistant_message. simpl. rewrite !app_nil_r. reflexivity.
  - cbn [forallb] in Hdata. apply andb_prop in Hdata. destruct Hdata as [Hd Hr].
    cbn [fold_left].
    destruct c as [id|v|o n|e|]; try discriminate Hd.
    + (* onSessionId *)
      rewrite (@IH _ arr m had Hr); try assumption.
      cbn [session_ids flat_map app]. rewrite last_cons. reflexivity.
    + (* onAIChunk *)
      rewrite (@IH _ arr (with_content (aiBufferRef st ++ to_string v) m) had Hr).
      * unfold assistant_message. cbn. rewrite <- !app_assoc. reflexivity.
      * cbn. rewrite Hm. apply update_last_ai_snoc. exact Ht.
      * exact Ht.
      * reflexivity.
      * exact Hh.
    + (* onToolOutput *)
      rewrite (@IH _ arr
                 (with_toolCalls
                    (had ++ [ {| toolName := n; toolOutput := o;
                                 insertPosition := List.length (aiBufferRef st) |} ])
                    m)
                 (had ++ [ {| toolName := n; toolOutput := o;
                              insertPosition := List.length (aiBufferRef st) |} ])
                 Hr).
      * unfold assistant_message. cbn. rewrite <- !app_assoc. reflexivity.
      * cbn. rewrite Hm. rewrite update_last_ai_snoc by exact Ht.
        rewrite Hh. reflexivity.
      * exact Ht.
      * exact Hc.
      * reflexivity.
Qed.

Lemma ai_text_app a b : ai_text (a ++ b) = ai_text a ++ ai_text b.
Proof. unfold ai_text. apply flat_map_app. Qed.

Lemma session_ids_app a b : session_ids (a ++ b) = session_ids a ++ session_ids b.
Proof. unfold session_ids. apply flat_map_app. Qed.

Lemma recorded_complete cs : forall text,
  recorded text (cs ++ [CComplete]) = recorded text cs.
Proof.
  induction cs as [|c r IH]; intro text; [reflexivity|].
  destruct c; cbn [app recorded]; rewrite ?IH; reflexivity.
Qed.

(** [handleSend], when it does not reject, run against any behaviour of
    the network: the state it ends in. *)
Lemma handleSend_accepted now net st :
  rejects st = false ->
  handleSend now net st
  = {| messages :=
         messages st
         ++ [user_message_of (trim (input st)) now;
             assistant_message now [] [] (calls net)];
       input := [];
       sessionId := last (session_ids (calls net)) (sessionId st);
       allConvs := allConvs st;
       loading := false;
       processingRef := false;
       aiBufferRef := match thrown net with
                      | Some _ => ai_text (calls net)
                      | None => []
                      end;
       requests :=
         requests st
         ++ PostChat (payload (trim (input st)) (sessionId st))
            :: match thrown net with
               | Some _ => []
               | None => [GetAllConversations]
               end;
       console := console st ++ match thrown net with
                                | Some e => [e]
                                | None => []
                                end |}.
Proof.
  intro Hacc. unfold handleSend. rewrite Hacc, send_runs_calls.
  cbn [final outcome].
  destruct (calls_shape net) as [data [Hdata Hcalls]]. rewrite Hcalls.
  rewrite fold_left_app.
  rewrite (@stream_absorbed data (fetch _ (handleSend_begin now st))
             (messages st ++ [user_message_of (trim (input st)) now])
             {| type := ai; content := []; timestamp := now;
                toolCalls := Some [] |}
             []); try reflexivity; try assumption.
  - unfold assistant_message.
    destruct (thrown net) as [e|];
      cbn [fold_left invoke call0 call1 handlers onComplete];
      unfold h_onComplete, handleSend_catch, loadAll, Chat.fetch,
        set_aiBufferRef, set_processingRef, setLoading, console_error;
      cbn;
      rewrite ?ai_text_app, ?session_ids_app, ?recorded_complete, ?app_nil_r,
        <- ?app_assoc; reflexivity.
  - cbn. rewrite <- app_assoc. reflexivity.
Qed.

End Transcript.

(* ================================================================== *)
(** * Tool anchors *)
(* ================================================================== *)

Section Anchors.
Context {NO : NumberOps}.

Lemma recorded_at pre : forall text o n post,
  nth_error (recorded text (pre ++ CToolOutput o n :: post))
            (times is_tool pre)
  = Some {| toolName := n; toolOutput := o;
            insertPosition := List.length (text ++ ai_text pre) |}.
Proof.
  induction pre as [|c r IH]; intros text o n post.
  - simpl. rewrite app_nil_r. reflexivity.
  - destruct c; cbn [app recorded times filter is_tool List.length nth_error];
      fold (times is_tool r); rewrite IH; cbn [ai_text flat_map app];
      fold (ai_text r); rewrite <- ?app_assoc; reflexivity.
Qed.

Lemma last_message_snoc st arr m :
  messages st = arr ++ [m] -> last_message st = Some m.
Proof. intro H. unfold last_message. rewrite H, pop_snoc. reflexivity. Qed.

End Anchors.

(* ================================================================== *)
(** * The unterminated last line *)
(* ================================================================== *)

(** C8 on the code: a [tool] record that ends the stream without a newline
    invokes only [onComplete]; followed by a newline the same record
    invokes [onToolOutput] first.  An unterminated [ai] record is handed to
    [onAIChunk].  Whatever the stream holds, when its reader ends
    [onComplete] is invoked once, and the send leaves the guard clear. *)
Lemma C8_unterminated_tool_record_is_not_dispatched :
  forall (NO : NumberOps),
    calls (stream_of [jbytes tool_record]) = [CComplete]
    /\ calls (stream_of [jbytes tool_record ++ bytes_of newline])
       = [CToolOutput (VString (lit "x")) (VString (lit "t1")); CComplete]
    /\ calls (stream_of [jbytes "{'type':'ai','content':'x'}"])
       = [CAIChunk (VString (lit "x")); CComplete]
    /\ (forall values, times is_complete (calls (stream_of values)) = 1)
    /\ (forall now values st,
          rejects st = false ->
          processingRef (handleSend now (stream_of values) st) = false).
Proof.
  intro NO. repeat split.
  - intro values. rewrite onComplete_iff_returns. reflexivity.
  - intros now values st Hacc.
    rewrite (handleSend_accepted now _ st Hacc). reflexivity.
Qed.

(* ================================================================== *)
(** * Session events *)
(* ================================================================== *)

Section Sessions.
Context {NO : NumberOps}.

Lemma line_session_ids line :
  session_ids (line_calls line)
  = match session_event line with Some id => [id] | None => [] end.
Proof.
  unfold line_calls, session_event, on_line, blank.
  destruct (negb (nonempty (trim line))); [reflexivity|].
  destruct (JSON_parse line) as [obj|]; [|reflexivity].
  unfold dispatch. destruct (get obj (lit "type")) as [t|]; [|reflexivity].
  case_tags t.
Qed.

Lemma lines_session_ids lines :
  session_ids (flat_map line_calls lines)
  = flat_map (fun l => match session_event l with
                       | Some id => [id]
                       | None => []
                       end) lines.
Proof.
  induction lines as [|l r IH]; [reflexivity|].
  cbn [flat_map]. rewrite session_ids_app, line_session_ids, IH. reflexivity.
Qed.

Lemma residual_session_ids buf : session_ids (residual_calls buf) = [].
Proof.
  unfold residual_calls, on_residual.
  destruct (nonempty (trim buf)); [|reflexivity].
  destruct (JSON_parse buf) as [obj|]; [|reflexivity].
  destruct (get obj (lit "type")) as [t|]; [|reflexivity].
  destruct (is_str t (lit "ai")); reflexivity.
Qed.

End Sessions.

(** C9 (amended).  Over a stream whose lines end with a newline,
    [onSessionId] is invoked once for each line that decodes to a
    [session] event, in the order of the lines and with the id the line
    carries; the session id the send leaves in the component is the one
    invoked last, and the one it had when no line is a [session] event. *)
Theorem C9_onSessionId_once_per_session_line :
  forall (NO : NumberOps) (code : N) (values : list (list byte))
         (e : StreamEnd),
    snd (framed_lines values) = [] ->
    let net := Resolved {| status := code;
                           body := Some {| chunks := values; ending := e |} |} in
    session_ids (calls net)
    = flat_map (fun l => match session_event l with
                         | Some id => [id]
                         | None => []
                         end) (fst (framed_lines values))
    /\ times is_session (calls net) = List.length (session_ids (calls net))
    /\ (forall now st, rejects st = false ->
          sessionId (handleSend now net st)
          = last (session_ids (calls net)) (sessionId st)).
Proof.
  intros NO code values e Hrest net. repeat split.
  - unfold net. rewrite calls_eq. cbn [body chunks ending]. unfold events.
    rewrite session_ids_app, lines_session_ids.
    destruct e; [|apply app_nil_r].
    rewrite session_ids_app, residual_session_ids. apply app_nil_r.
  - unfold times, session_ids. induction (calls net) as [|c r IH]; [reflexivity|].
    destruct c; simpl; rewrite ?IH; reflexivity.
  - intros now st Hacc. rewrite (handleSend_accepted now net st Hacc). reflexivity.
Qed.

Lemma C9_witness_two_session_lines :
  snd (framed_lines two_sessions) = []
  /\ session_ids (@calls as_written (stream_of two_sessions))
     = [VString (lit "s1"); VString (lit "s2")].
Proof.
  split; [reflexivity|].
  etransitivity;
    [apply (@C9_onSessionId_once_per_session_line as_written 200 two_sessions
              Done eq_refl)|].
  reflexivity.
Defined.

(** C9 as stated fails on a stream with two [session] lines:
    [onSessionId] is invoked twice, and the id the component is left with
    is that of the second line, not of the first. *)
Lemma C9_two_session_lines_invoke_twice :
  times is_session (@calls as_written (stream_of two_sessions)) <> 1
  /\ sessionId (@handleSend as_written 0 (stream_of two_sessions) (typed "hi"))
     = VString (lit "s2")
  /\ sessionId (@handleSend as_written 0 (stream_of two_sessions) (typed "hi"))
     <> VString (lit "s1").
Proof. repeat split; discriminate. Qed.

(* ================================================================== *)
(** * Transport failures *)
(* ================================================================== *)


(** C1 (amended).  When the transport of a send fails, that is when
    [fetch] rejects, the response has no body, or a read of the body
    rejects, [sendChatMessage] throws that error to [handleSend]: neither
    [onError] nor [onComplete] is invoked, the [catch] block logs the error
    once and clears [loading] and the single-flight guard, and the
    transcript and the accumulated text stay as the stream had left them
    when it failed. *)
Theorem C1_transport_failure_is_thrown_and_caught_once :
  forall (NO : NumberOps) (now : Z) (net : FetchResult) (e : JsError)
         (st : ChatState),
    rejects st = false ->
    thrown net = Some e ->
    let sent := sendChatMessage handlers fetch (trim (input st)) (sessionId st)
                  net (handleSend_begin now st) in
    outcome sent = Throws e
    /\ times is_error (calls net) = 0
    /\ times is_complete (calls net) = 0
    /\ console (handleSend now net st) = console st ++ [e]
    /\ processingRef (handleSend now net st) = false
    /\ loading (handleSend now net st) = false
    /\ messages (handleSend now net st) = messages (final sent)
    /\ aiBufferRef (handleSend now net st) = aiBufferRef (final sent)
    /\ messages (handleSend now net st)
       = messages st ++ [user_message_of (trim (input st)) now;
                         assistant_message now [] [] (calls net)]
    /\ aiBufferRef (handleSend now net st) = ai_text (calls net).
Proof.
  intros NO now net e st Hacc Hthrown sent.
  assert (outcome sent = Throws e) as Hout
    by (unfold sent; rewrite send_runs_calls, Hthrown; reflexivity).
  assert (handleSend now net st = handleSend_catch e (final sent)) as Hcatch.
  { unfold handleSend. rewrite Hacc. fold sent. rewrite Hout. reflexivity. }
  repeat split.
  - exact Hout.
  - apply never_onError.
  - rewrite onComplete_iff_returns, Hthrown. reflexivity.
  - rewrite (handleSend_accepted now net st Hacc), Hthrown. reflexivity.
  - rewrite Hcatch. reflexivity.
  - rewrite Hcatch. reflexivity.
  - rewrite Hcatch. reflexivity.
  - rewrite Hcatch. reflexivity.
  - rewrite (handleSend_accepted now net st Hacc). reflexivity.
  - rewrite (handleSend_accepted now net st Hacc), Hthrown. reflexivity.
Qed.

Lemma C1_witness_read_fails_after_partial_text :
  rejects (typed "hi") = false
  /\ thrown broken_stream = Some network_down
  /\ console (@handleSend as_written 0 broken_stream (typed "hi")) = [network_down]
  /\ aiBufferRef (@handleSend as_written 0 broken_stream (typed "hi")) = lit "par".
Proof.
  split; [reflexivity|]. split; [reflexivity|].
  pose proof (@C1_transport_failure_is_thrown_and_caught_once as_written 0
                broken_stream network_down (typed "hi") eq_refl eq_refl) as H.
  cbv zeta in H.
  destruct H as (_ & _ & _ & Hconsole & _ & _ & _ & _ & _ & Hbuf).
  split; [exact Hconsole | exact Hbuf].
Defined.

(** C1 as stated fails: when [fetch] rejects, [onError] is not invoked at
    all; and a response with status 500 is read like any other, so that
    [onComplete] is invoked and nothing is logged. *)
Lemma C1_onError_is_never_invoked :
  thrown (Rejected network_down) = Some network_down
  /\ times is_error (@calls as_written (Rejected network_down)) <> 1
  /\ times is_complete (@calls as_written server_error) = 1
  /\ times is_error (@calls as_written server_error) <> 1
  /\ console (@handleSend as_written 0 server_error (typed "hi")) = [].
Proof. repeat split; discriminate. Qed.

(* ================================================================== *)
(** * Single flight *)
(* ================================================================== *)

Section SingleFlight.
Context {NO : NumberOps}.

Lemma rejects_loading st : loading st = true -> rejects st = true.
Proof.
  intro H. unfold rejects. rewrite H, orb_true_r. reflexivity.
Qed.

Lemma rejects_processing st : processingRef st = true -> rejects st = true.
Proof. intro H. unfold rejects. rewrite H. apply orb_true_r. Qed.

Lemma handleSend_rejected now net st :
  rejects st = true -> handleSend now net st = st.
Proof. intro H. unfold handleSend. rewrite H. reflexivity. Qed.

Lemma act_one_flight a s s' :
  one_flight s -> act a s = Some s' -> one_flight s'.
Proof.
  intros [Hle Hload] Hact. unfold one_flight.
  destruct a; simpl in Hact;
    try (injection Hact as <-; simpl; split; [exact Hle | exact Hload]).
  - (* Send *)
    destruct (rejects (ui s)) eqn:Hrej; injection Hact as <-.
    + split; assumption.
    + simpl. assert (in_flight s = 0) as E.
      { destruct (in_flight s) as [|[|n]] eqn:En; [reflexivity| |lia].
        rewrite (rejects_loading (ui s) (Hload eq_refl)) in Hrej. discriminate. }
      rewrite E. split; [lia | reflexivity].
  - (* Deliver *)
    destruct (in_flight s) as [|n] eqn:En; [destruct c; discriminate|].
    assert (n = 0) as -> by lia.
    destruct c; try discriminate; injection Hact as <-; simpl;
      try (split; [lia | intros _; apply Hload; reflexivity]).
    split; [lia | discriminate].
  - (* StreamThrows *)
    destruct (in_flight s) as [|n] eqn:En; [discriminate|].
    injection Hact as <-. simpl. split; [lia | intro; lia].
  - (* DeleteResolved *)
    injection Hact as <-. simpl. split; [exact Hle|].
    intro H. unfold handleDelete_resolved.
    destruct (is_str captured sid); simpl; apply Hload; exact H.
Qed.

Lemma run_one_flight actions : forall s s',
  one_flight s -> run actions s = Some s' -> one_flight s'.
Proof.
  induction actions as [|a r IH]; intros s s' Hs Hrun; simpl in Hrun.
  - injection Hrun as <-. exact Hs.
  - destruct (act a s) as [s1|] eqn:Ha; [|discriminate].
    eapply IH; [eapply act_one_flight; eassumption | exact Hrun].
Qed.

Lemma mounted_one_flight : one_flight mounted.
Proof. split; simpl; [lia | discriminate]. Qed.

End SingleFlight.

(** C7.  In every state the component reaches, at most one send is in
    flight; and while one is, a further [handleSend] changes nothing: no
    request is sent, nothing is logged, and the transcript, the
    accumulated text, the guard and the session id stay as they are.  The
    same holds whenever [loading] or the guard is set. *)
Theorem C7_second_send_is_a_no_op :
  forall (NO : NumberOps) (actions : list Action) (s : Sys),
    run actions mounted = Some s ->
    in_flight s <= 1
    /\ (in_flight s = 1 ->
        forall now net,
          act (Send now) s = Some s /\ handleSend now net (ui s) = ui s)
    /\ (forall st now net,
          loading st = true \/ processingRef st = true ->
          handleSend now net st = st).
Proof.
  intros NO actions s Hrun.
  pose proof (run_one_flight actions mounted_one_flight Hrun) as [Hle Hload].
  split; [exact Hle|]. split.
  - intros Hone now net. specialize (Hload Hone).
    pose proof (rejects_loading (ui s) Hload) as Hrej.
    split; [simpl; rewrite Hrej; reflexivity|].
    apply handleSend_rejected. exact Hrej.
  - intros st now net [H|H]; apply handleSend_rejected;
      [apply rejects_loading | apply rejects_processing]; exact H.
Qed.

Lemma C7_witness_send_while_streaming :
  exists s : Sys,
    @run as_written
      [Typing (lit "hi"); Send 0;
       Deliver (CAIChunk (VString (lit "par"))); Typing (lit "again")]
      mounted = Some s
    /\ in_flight s = 1
    /\ input (ui s) = lit "again"
    /\ @act as_written (Send 1) s = Some s.
Proof.
  eexists. split; [reflexivity|]. split; [reflexivity|]. split; [reflexivity|].
  apply (@C7_second_send_is_a_no_op as_written
           [Typing (lit "hi"); Send 0;
            Deliver (CAIChunk (VString (lit "par"))); Typing (lit "again")]
           _ eq_refl); [reflexivity | exact server_error].
Defined.

(* ================================================================== *)
(** * A stream that outlives its transcript *)
(* ================================================================== *)

Section Stale.
Context {NO : NumberOps}.

Lemma invoke_empty_transcript st c :
  messages st = [] -> messages (invoke handlers st c) = [].
Proof.
  intro H. destruct c; simpl; rewrite ?H; reflexivity.
Qed.

Lemma invokes_empty_transcript cs : forall st,
  messages st = [] -> messages (fold_left (invoke handlers) cs st) = [].
Proof.
  induction cs as [|c r IH]; intros st H; [exact H|].
  cbn [fold_left]. apply IH, invoke_empty_transcript, H.
Qed.

Lemma invoke_user_last st c arr m :
  messages st = arr ++ [m] -> type m = user ->
  messages (invoke handlers st c) = arr ++ [m].
Proof.
  intros H Ht. destruct c; simpl; rewrite ?H, ?update_last_ai_user; auto.
Qed.

End Stale.

(** C2 (amended).  After [startNew] has emptied the transcript, every
    invocation a stream still in flight makes leaves the transcript empty,
    one by one and all together, and each of them can run: none raises.
    More generally an invocation leaves the transcript as it is whenever
    its last message is not an assistant message. *)
Theorem C2_stale_stream_leaves_new_transcript_empty :
  forall (NO : NumberOps) (st0 : ChatState) (cs : list Call),
    messages (startNew st0) = []
    /\ messages (fold_left (invoke handlers) cs (startNew st0)) = []
    /\ (forall st c, messages st = [] -> messages (invoke handlers st c) = [])
    /\ (forall st c arr m, messages st = arr ++ [m] -> type m = user ->
          messages (invoke handlers st c) = messages st)
    /\ (forall s c, 0 < in_flight s -> is_error c = false ->
          exists s', act (Deliver c) (on_ui startNew s) = Some s'
                     /\ messages (ui s') = []).
Proof.
  intros NO st0 cs. split; [reflexivity|]. split; [|split; [|split]].
  - apply invokes_empty_transcript. reflexivity.
  - intros st c. apply invoke_empty_transcript.
  - intros st c arr m H Ht. rewrite (@invoke_user_last NO st c arr m H Ht).
    symmetry. exact H.
  - intros s c Hin Hc. destruct (in_flight s) as [|n] eqn:En; [lia|].
    destruct c; try discriminate Hc; simpl; rewrite En;
      eexists; (split; [reflexivity|]); reflexivity.
Qed.

(** C2 as stated fails when the user switches to a stored session: the
    next text delta of the stream still in flight overwrites the text of
    the stored answer, and a tool result is attached to it.  After
    [startNew] the transcript stays empty, but the accumulated text does
    not stay as [startNew] left it. *)
Lemma C2_stale_delta_overwrites_stored_answer :
  @transcript as_written switched
  = Some [ {| type := user; content := lit "old question"; timestamp := 1;
              toolCalls := None |};
           {| type := ai; content := lit "old answer"; timestamp := 1;
              toolCalls := Some [] |} ]
  /\ @transcript as_written
       (switched ++ [Deliver (CAIChunk (VString (lit "stale")))])
     = Some [ {| type := user; content := lit "old question"; timestamp := 1;
                 toolCalls := None |};
              {| type := ai; content := lit "stale"; timestamp := 1;
                 toolCalls := Some [] |} ]
  /\ @transcript as_written
       (switched ++ [Deliver (CAIChunk (VString (lit "stale")))])
     <> @transcript as_written switched
  /\ @transcript as_written
       (switched ++ [Deliver (CToolOutput (VString (lit "x")) (VString (lit "t1")))])
     <> @transcript as_written switched
  /\ @accumulated as_written restarted = Some []
  /\ @accumulated as_written
       (restarted ++ [Deliver (CAIChunk (VString (lit "stale")))])
     = Some (lit "stale").
Proof. repeat split; discriminate. Qed.

(* ================================================================== *)
(** * The sort is the stable sort *)
(* ================================================================== *)

(** Any ordering of a list that is sorted by the key and keeps the
    elements of each key in their order is the one [sort] returns: what
    [Array.prototype.sort] guarantees determines its result. *)
Theorem sort_is_the_only_stable_sort :
  forall (A : Type) (cmp : A -> A -> Z) (key : A -> Z) (l l' : list A),
    (forall a b, (cmp a b <= 0)%Z <-> (key a <= key b)%Z) ->
    StronglySorted (fun a b => (key a <= key b)%Z) l' ->
    (forall v, filter (fun x => (key x =? v)%Z) l'
               = filter (fun x => (key x =? v)%Z) l) ->
    l' = sort cmp l.
Proof.
  intros A cmp key l l' Hcmp Hsorted Hstable.
  apply (sorted_stable_unique key Hsorted (sort_sorted cmp key Hcmp l)).
  intro v. rewrite Hstable. symmetry. apply sort_stable. exact Hcmp.
Qed.

Lemma sort_is_the_only_stable_sort_witness :
  [1; 2; 2; 3] = sort by_value [2; 3; 1; 2].
Proof.
  apply (@sort_is_the_only_stable_sort nat by_value Z.of_nat).
  - intros a b. unfold by_value. lia.
  - repeat constructor; simpl; lia.
  - intro v. cbn [filter].
    repeat match goal with
           | |- context [(?a =? v)%Z] => destruct (Z.eqb_spec a v)
           end; try reflexivity; lia.
Defined.

(* ================================================================== *)
(** * Requests and the shape of the transcript *)
(* ================================================================== *)

(** A send that is not rejected issues one chat request, whose payload
    holds the trimmed question and, when there is one, the session id; and
    when the stream completes, one request for the conversation list after
    it.  Nothing else is requested. *)
Theorem handleSend_issues_one_chat_request :
  forall (NO : NumberOps) (now : Z) (net : FetchResult) (st : ChatState),
    rejects st = false ->
    requests (handleSend now net st)
    = requests st
      ++ PostChat (payload (trim (input st)) (sessionId st))
         :: match thrown net with
            | Some _ => []
            | None => [GetAllConversations]
            end.
Proof.
  intros NO now net st Hacc.
  rewrite (handleSend_accepted now net st Hacc). reflexivity.
Qed.

Lemma handleSend_issues_one_chat_request_witness :
  rejects (typed " hi ") = false
  /\ requests (@handleSend as_written 0 server_error (typed " hi "))
     = [PostChat (VObject [(lit "question", VString (lit "hi"))]);
        GetAllConversations].
Proof.
  split; [reflexivity|].
  apply (@handleSend_issues_one_chat_request as_written 0 server_error
           (typed " hi ") eq_refl).
Defined.

Section Shape.
Context {NO : NumberOps}.

Lemma update_last_ai_well_formed f m :
  (forall x, type x = ai -> type (f x) = ai) ->
  Forall well_formed m -> Forall well_formed (update_last_ai f m).
Proof.
  intros Hf Hm. unfold update_last_ai.
  destruct (pop m) as [arr [last|]] eqn:Hpop; [|exact Hm].
  destruct (role_eqb (type last) ai) eqn:Hr; [|exact Hm].
  assert (m = arr ++ [last]) as ->.
  { unfold pop in Hpop. destruct (rev m) as [|x r] eqn:Hrev; [discriminate|].
    injection Hpop as <- <-.
    rewrite <- (rev_involutive m), Hrev. reflexivity. }
  apply Forall_app in Hm. destruct Hm as [Harr _].
  apply Forall_app. split; [exact Harr|].
  constructor; [|constructor].
  intro Hu. assert (type last = ai) as Hai by (destruct (type last); [discriminate | reflexivity]).
  rewrite (Hf last Hai) in Hu. discriminate.
Qed.

Lemma loaded_well_formed conversations now :
  Forall well_formed
    (flat_map (fun c =>
       [ {| type := user; content := user_message c; timestamp := now;
            toolCalls := None |};
         {| type := ai; content := ai_message c; timestamp := now;
            toolCalls := Some [] |} ]) conversations).
Proof.
  induction conversations as [|c r IH]; simpl; [constructor|].
  constructor; [intro; reflexivity|].
  constructor; [intro; discriminate | exact IH].
Qed.

Lemma act_well_formed a s s' :
  Forall well_formed (messages (ui s)) -> act a s = Some s' ->
  Forall well_formed (messages (ui s')).
Proof.
  intros H Hact.
  destruct a; simpl in Hact;
    try (injection Hact as <-; simpl; first [exact H | constructor]).
  - (* Send *)
    destruct (rejects (ui s)); injection Hact as <-; [exact H|].
    simpl. apply Forall_app. split; [exact H|].
    constructor; [intro; reflexivity|].
    constructor; [intro; discriminate | constructor].
  - (* Deliver *)
    destruct (in_flight s) as [|n]; [destruct c; discriminate|].
    destruct c; try discriminate; injection Hact as <-; simpl;
      try exact H; apply update_last_ai_well_formed; auto.
  - (* StreamThrows *)
    destruct (in_flight s); [discriminate|]. injection Hact as <-. exact H.
  - (* LoadSessionResolved *)
    injection Hact as <-. simpl. apply loaded_well_formed.
  - (* DeleteResolved *)
    injection Hact as <-. simpl. unfold handleDelete_resolved.
    destruct (is_str captured sid); simpl; [constructor | exact H].
Qed.

End Shape.

(** Whatever the user and the network do, a user message of the
    transcript never holds tool calls: the stream handlers only change the
    last message, and only when it is an assistant message. *)
Theorem user_messages_never_hold_tool_calls :
  forall (NO : NumberOps) (actions : list Action) (s : Sys),
    run actions mounted = Some s ->
    Forall well_formed (messages (ui s)).
Proof.
  intros NO actions.
  assert (forall s0 s, Forall well_formed (messages (ui s0)) ->
            run actions s0 = Some s -> Forall well_formed (messages (ui s)))
    as Hrun.
  { induction actions as [|a r IH]; intros s0 s H0 Hr; simpl in Hr.
    - injection Hr as <-. exact H0.
    - destruct (act a s0) as [s1|] eqn:Ha; [|discriminate].
      eapply IH; [eapply act_well_formed; eassumption | exact Hr]. }
  intros s Hr. eapply Hrun; [|exact Hr]. constructor.
Qed.

Lemma user_messages_never_hold_tool_calls_witness :
  exists s : Sys,
    @run as_written
      [Typing (lit "hi"); Send 0;
       Deliver (CToolOutput (VString (lit "x")) (VString (lit "t1")))]
      mounted = Some s
    /\ List.length (messages (ui s)) = 2
    /\ Forall well_formed (messages (ui s)).
Proof.
  eexists. split; [reflexivity|]. split; [reflexivity|].
  apply (@user_messages_never_hold_tool_calls as_written
           [Typing (lit "hi"); Send 0;
            Deliver (CToolOutput (VString (lit "x")) (VString (lit "t1")))]).
  reflexivity.
Defined.

(* ================================================================== *)
(** * When React defers the updaters *)
(* ================================================================== *)

Section DeferredQueue.
Context {NO : NumberOps}.

Lemma pop_cases (A : Type) (m : list A) :
  m = [] \/ exists arr last, m = arr ++ [last].
Proof.
  destruct (rev m) as [|x r] eqn:E.
  - left. rewrite <- (rev_involutive m), E. reflexivity.
  - right. exists (rev r), x. rewrite <- (rev_involutive m), E. reflexivity.
Qed.

Lemma update_last_ai_cases f m :
  (update_last_ai f m = m
   /\ forall g, update_last_ai g m = m)
  \/ exists arr last, m = arr ++ [last] /\ type last = ai
                      /\ forall g, update_last_ai g m = arr ++ [g last].
Proof.
  destruct (pop_cases m) as [->|[arr [last ->]]].
  - left. split; reflexivity.
  - destruct (type last) eqn:Ht.
    + left. split; [|intro g]; apply update_last_ai_user; exact Ht.
    + right. exists arr, last. split; [reflexivity|]. split; [exact Ht|].
      intro g. apply update_last_ai_snoc. exact Ht.
Qed.

(** A later write of the text makes an earlier one irrelevant. *)
Lemma with_content_absorbs x y m :
  update_last_ai (with_content x) (update_last_ai (with_content y) m)
  = update_last_ai (with_content x) m.
Proof.
  destruct (update_last_ai_cases (with_content y) m)
    as [[_ H]|[arr [last [-> [Ht H]]]]].
  - rewrite (H (with_content y)). reflexivity.
  - rewrite !H. rewrite update_last_ai_snoc by exact Ht. reflexivity.
Qed.

(** Writing the text and recording a tool call can be done in any order. *)
Lemma with_content_commutes x t m :
  update_last_ai (with_content x) (update_last_ai (push_call t) m)
  = update_last_ai (push_call t) (update_last_ai (with_content x) m).
Proof.
  destruct (update_last_ai_cases (with_content x) m)
    as [[_ H]|[arr [last [-> [Ht H]]]]].
  - rewrite !H. reflexivity.
  - rewrite !H. rewrite !update_last_ai_snoc by exact Ht. reflexivity.
Qed.

Lemma run_queue_snoc c q u m :
  run_queue c (q ++ [u]) m = u c (run_queue c q m).
Proof. unfold run_queue. rewrite fold_left_app. reflexivity. Qed.

Lemma handler_queue_nil : handler_queue [].
Proof. split; reflexivity. Qed.

Lemma handler_queue_text q :
  handler_queue q ->
  handler_queue
    (q ++ [fun now_cells => update_last_ai (with_content (aiBufferRef now_cells))]).
Proof.
  intros [Hb Hc]. split.
  - intros c1 c2 m E. rewrite !run_queue_snoc, E, (Hb c1 c2 m E). reflexivity.
  - intros x c1 c2 m. rewrite !run_queue_snoc, !with_content_absorbs. apply Hc.
Qed.

Lemma handler_queue_tool q t :
  handler_queue q ->
  handler_queue (q ++ [fun _ => update_last_ai (push_call t)]).
Proof.
  intros [Hb Hc]. split.
  - intros c1 c2 m E. rewrite !run_queue_snoc, (Hb c1 c2 m E). reflexivity.
  - intros x c1 c2 m. rewrite !run_queue_snoc, !with_content_commutes.
    rewrite (Hc x c1 c2 m). reflexivity.
Qed.

Lemma d_invoke_handler_queue p c :
  handler_queue (queue p) -> handler_queue (queue (d_invoke p c)).
Proof.
  intro H. destruct c; try exact H.
  - apply handler_queue_text. exact H.
  - apply (handler_queue_tool _ H).
Qed.

(** One more invocation before the render is one more invocation after
    it. *)
Lemma render_d_invoke p c :
  handler_queue (queue p) -> is_data c = true ->
  cells (render (d_invoke p c)) = invoke handlers (cells (render p)) c.
Proof.
  intros [Hb Hc] Hd. destruct p as [st q].
  destruct c as [id|v|o n|e|]; try discriminate Hd.
  - (* onSessionId *)
    unfold render. cbn [d_invoke on_cells cells queue invoke call1 handlers
                          onSessionId].
    unfold h_onSessionId, setSessionId, setMessages. cbn.
    f_equal. apply (Hb _ st). reflexivity.
  - (* onAIChunk *)
    unfold render. cbn [d_invoke d_onAIChunk enqueue on_cells cells queue
                          invoke call1 handlers onAIChunk].
    unfold h_onAIChunk, set_aiBufferRef, setMessages.
    cbn [messages input sessionId allConvs loading processingRef aiBufferRef
           requests console].
    f_equal. rewrite run_queue_snoc. apply Hc.
  - (* onToolOutput *)
    unfold render. cbn [d_invoke d_onToolOutput enqueue on_cells cells queue
                          invoke call2 handlers onToolOutput].
    unfold h_onToolOutput, setMessages.
    cbn [messages input sessionId allConvs loading processingRef aiBufferRef
           requests console].
    f_equal. rewrite run_queue_snoc. reflexivity.
Qed.

Lemma render_batch cs : forall p,
  handler_queue (queue p) -> forallb is_data cs = true ->
  cells (render (fold_left d_invoke cs p))
  = fold_left (invoke handlers) cs (cells (render p)).
Proof.
  induction cs as [|c r IH]; intros p Hq Hd; [reflexivity|].
  cbn [forallb] in Hd. apply andb_prop in Hd. destruct Hd as [Hc Hr].
  cbn [fold_left]. rewrite IH; [|apply d_invoke_handler_queue; exact Hq|exact Hr].
  rewrite render_d_invoke by assumption. reflexivity.
Qed.

End DeferredQueue.

Section DeferredFacts.

(** A render after any number of invocations of a stream leaves the
    component that [Chat] describes, in which every updater runs when it is
    queued.  The position of a tool call and the accumulated text are fixed
    when the handler is invoked, whenever the render comes.  But the text
    of the message is read from [aiBufferRef] at the render: when two
    deltas and [onComplete], which clears [aiBufferRef], are invoked before
    the next render, the message is left without text. *)
Theorem deferred_updaters_read_the_buffer_at_render :
  forall (NO : NumberOps),
    (forall st cs,
        forallb is_data cs = true ->
        cells (render (fold_left d_invoke cs {| cells := st; queue := [] |}))
        = fold_left (invoke handlers) cs st)
    /\ (forall p cs,
          forallb is_data cs = true ->
          aiBufferRef (cells (fold_left d_invoke cs p))
          = aiBufferRef (cells p) ++ ai_text cs)
    /\ option_map content
         (last_message
            (fold_left (invoke handlers)
               [CAIChunk (VString (lit "A")); CAIChunk (VString (lit "B"));
                CComplete] streaming))
       = Some (lit "AB")
    /\ option_map content
         (last_message
            (cells (render
               (fold_left d_invoke
                  [CAIChunk (VString (lit "A")); CAIChunk (VString (lit "B"));
                   CComplete] {| cells := streaming; queue := [] |}))))
       = Some [].
Proof.
  intro NO. split; [|split; [|split]].
  - intros st cs Hd.
    rewrite (render_batch cs {| cells := st; queue := [] |} handler_queue_nil Hd).
    destruct st; reflexivity.
  - intros p cs. revert p.
    induction cs as [|c r IH]; intros p Hd; [symmetry; apply app_nil_r|].
    cbn [forallb] in Hd. apply andb_prop in Hd. destruct Hd as [Hc Hr].
    cbn [fold_left]. rewrite (IH _ Hr).
    destruct c; try discriminate Hc; cbn; rewrite <- ?app_assoc; reflexivity.
  - reflexivity.
  - reflexivity.
Qed.

End DeferredFacts.

(* ================================================================== *)
(** * A send under React's schedule *)
(* ================================================================== *)

Import Scheduled.

Section Schedules.
Context {NO : NumberOps}.

Lemma invoked_app a b : invoked (a ++ b) = invoked a ++ invoked b.
Proof. apply flat_map_app. Qed.

(** Where a schedule invokes a handler. *)
Lemma invoked_split ticks : forall a c b,
  invoked ticks = a ++ c :: b ->
  exists ta tb,
    ticks = ta ++ Invoked c :: tb /\ invoked ta = a /\ invoked tb = b.
Proof.
  induction ticks as [|t r IH]; intros a c b H.
  - destruct a; discriminate.
  - destruct t as [c0|].
    + cbn in H. destruct a as [|x a].
      * injection H as E Hb. subst c0. exists [], r. auto.
      * injection H as E H. subst c0.
        destruct (IH _ _ _ H) as [ta [tb [E [Ha Hb]]]]. subst.
        exists (Invoked x :: ta), tb. auto.
    + cbn in H. destruct (IH _ _ _ H) as [ta [tb [E [Ha Hb]]]]. subst.
      exists (Rendering :: ta), tb. auto.
Qed.

(** Two components are equal when they agree on the transcript and on
    everything else. *)
Lemma state_eq (a b : ChatState) :
  setMessages (fun _ => []) a = setMessages (fun _ => []) b ->
  messages a = messages b -> a = b.
Proof.
  destruct a, b. unfold setMessages. cbn. intros H ->.
  injection H as -> -> -> -> -> -> -> ->. reflexivity.
Qed.

Lemma render_render p : render (render p) = render p.
Proof. destruct p as [[] q]. reflexivity. Qed.

Lemma renders_only ticks : forall p,
  invoked ticks = [] -> render (fold_left tick ticks p) = render p.
Proof.
  induction ticks as [|t r IH]; intros p H; [reflexivity|].
  destruct t as [c|]; [discriminate|].
  cbn [fold_left tick]. rewrite (IH _ H). apply render_render.
Qed.

(** What is not the transcript goes the way [Chat] says, whenever React
    renders. *)
Lemma tick_cells p st t :
  setMessages (fun _ => []) (cells p) = setMessages (fun _ => []) st ->
  setMessages (fun _ => []) (cells (tick p t))
  = setMessages (fun _ => [])
      (match t with Invoked c => invoke handlers st c | Rendering => st end).
Proof.
  destruct p as [[] q], st. unfold setMessages. cbn. intro H.
  injection H as -> -> -> -> -> -> -> ->.
  destruct t as [[id|v|o n|e|]|]; reflexivity.
Qed.

Lemma ticks_cells ticks : forall p st,
  setMessages (fun _ => []) (cells p) = setMessages (fun _ => []) st ->
  setMessages (fun _ => []) (cells (fold_left tick ticks p))
  = setMessages (fun _ => []) (fold_left (invoke handlers) (invoked ticks) st).
Proof.
  induction ticks as [|t r IH]; intros p st H; [exact H|].
  cbn [fold_left]. destruct t as [c|].
  - cbn [invoked flat_map app fold_left]. apply IH.
    apply (@tick_cells p st (Invoked c) H).
  - cbn [invoked flat_map app]. apply IH. apply (@tick_cells p st Rendering H).
Qed.

Lemma recorded_app a : forall text b,
  recorded text (a ++ b) = recorded text a ++ recorded (text ++ ai_text a) b.
Proof.
  induction a as [|c r IH]; intros text b.
  - cbn. rewrite app_nil_r. reflexivity.
  - destruct c; cbn [app recorded ai_text flat_map]; fold (ai_text r);
      rewrite IH, <- ?app_assoc; reflexivity.
Qed.

(** The transcript the queue leads to while the stream delivers: the
    assistant message holds the tool calls of the invocations so far, each
    with the length the text had when it was invoked, and the text the
    render will find in [aiBufferRef] if a delta waits. *)
Lemma data_ticks ticks : forall p (w : bool) msgs m had,
  forallb is_data (invoked ticks) = true ->
  type m = ai -> toolCalls m = Some had ->
  (forall c, run_queue c (queue p) (messages (cells p))
             = msgs ++ [with_content (if w then aiBufferRef c
                                      else aiBufferRef (cells p)) m]) ->
  (forall c, run_queue c (queue (fold_left tick ticks p))
               (messages (cells (fold_left tick ticks p)))
             = msgs ++ [ {| type := ai;
                            content := if waits w ticks then aiBufferRef c
                                       else aiBufferRef (cells p)
                                            ++ ai_text (invoked ticks);
                            timestamp := timestamp m;
                            toolCalls :=
                              Some (had ++ recorded (aiBufferRef (cells p))
                                                    (invoked ticks)) |} ])
  /\ aiBufferRef (cells (fold_left tick ticks p))
     = aiBufferRef (cells p) ++ ai_text (invoked ticks).
Proof.
  induction ticks as [|t r IH]; intros p w msgs m had Hd Ht Hh Hq.
  - cbn [fold_left invoked flat_map waits ai_text recorded].
    rewrite !app_nil_r. split; [|reflexivity].
    intro c. rewrite Hq. destruct m as [ty co ti tc]. cbn in Ht, Hh. subst.
    destruct w; reflexivity.
  - destruct t as [c0|].
    + cbn [invoked flat_map app forallb] in Hd. fold (invoked r) in Hd.
      apply andb_prop in Hd. destruct Hd as [Hc Hr].
      cbn [fold_left tick invoked flat_map app]. fold (invoked r).
      destruct c0 as [id|v|o n|e|]; try discriminate Hc.
      * (* onSessionId *)
        destruct (IH (d_invoke p (CSessionId id)) w msgs m had Hr Ht Hh)
          as [H1 H2]; [intro c; apply Hq|].
        split; [exact H1 | exact H2].
      * (* onAIChunk *)
        destruct (IH (d_invoke p (CAIChunk v)) true msgs m had Hr Ht Hh)
          as [H1 H2].
        { intro c. cbn [d_invoke d_onAIChunk enqueue on_cells cells queue].
          rewrite run_queue_snoc.
          change (messages (set_aiBufferRef _ (cells p)))
            with (messages (cells p)).
          rewrite Hq. rewrite update_last_ai_snoc by exact Ht. reflexivity. }
        cbn [d_invoke d_onAIChunk enqueue on_cells cells queue
               set_aiBufferRef aiBufferRef] in H1, H2 |- *.
        cbn [waits ai_text flat_map recorded]. fold (ai_text (invoked r)).
        split.
        -- intro c. rewrite H1, <- app_assoc. reflexivity.
        -- rewrite H2, <- app_assoc. reflexivity.
      * (* onToolOutput *)
        set (t := {| toolName := n; toolOutput := o;
                     insertPosition := List.length (aiBufferRef (cells p)) |}).
        destruct (IH (d_invoke p (CToolOutput o n)) w msgs (push_call t m)
                    (had ++ [t]) Hr Ht) as [H1 H2].
        { unfold push_call. cbn. rewrite Hh. reflexivity. }
        { intro c. cbn [d_invoke d_onToolOutput enqueue cells queue].
          rewrite run_queue_snoc, Hq.
          fold t. change (fun last : Message => with_toolCalls _ last)
            with (push_call t).
          rewrite update_last_ai_snoc by exact Ht. reflexivity. }
        cbn [d_invoke d_onToolOutput enqueue cells queue] in H1, H2 |- *.
        cbn [waits ai_text flat_map recorded app]. fold (ai_text (invoked r)).
        fold t. split.
        -- intro c. rewrite H1, <- app_assoc. reflexivity.
        -- exact H2.
    + cbn [invoked flat_map app] in Hd |- *. fold (invoked r) in Hd |- *.
      cbn [fold_left tick waits].
      destruct (IH (render p) false msgs m had Hd Ht Hh) as [H1 H2].
      { intro c. cbn [render cells queue run_queue fold_left messages setMessages].
        rewrite Hq. destruct w; reflexivity. }
      cbn [render cells aiBufferRef setMessages] in H1, H2 |- *.
      split; [exact H1 | exact H2].
Qed.

Lemma waits_data ticks : forall w rest,
  forallb is_data (invoked ticks) = true ->
  rendered_in_time w (ticks ++ Invoked CComplete :: rest)
  = negb (waits w ticks).
Proof.
  induction ticks as [|t r IH]; intros w rest Hd; [reflexivity|].
  destruct t as [c|]; cbn [invoked flat_map app forallb] in Hd.
  - fold (invoked r) in Hd. apply andb_prop in Hd. destruct Hd as [Hc Hr].
    destruct c; try discriminate Hc; cbn [app rendered_in_time waits];
      apply IH; exact Hr.
  - cbn [app rendered_in_time waits]. apply IH. exact Hd.
Qed.

Lemma in_time_data ticks : forall w,
  forallb is_data (invoked ticks) = true -> rendered_in_time w ticks = true.
Proof.
  induction ticks as [|t r IH]; intros w Hd; [reflexivity|].
  destruct t as [c|]; cbn [invoked flat_map app forallb] in Hd.
  - fold (invoked r) in Hd. apply andb_prop in Hd. destruct Hd as [Hc Hr].
    destruct c; try discriminate Hc; cbn [rendered_in_time]; apply IH; exact Hr.
  - cbn [rendered_in_time]. apply IH. exact Hd.
Qed.

End Schedules.

Section SendUnderSchedule.
Context {NO : NumberOps}.

Lemma catch_cells e (a b : ChatState) :
  setMessages (fun _ => []) a = setMessages (fun _ => []) b ->
  setMessages (fun _ => []) (handleSend_catch e a)
  = setMessages (fun _ => []) (handleSend_catch e b).
Proof.
  destruct a, b. unfold setMessages. cbn. intro H.
  injection H as -> -> -> -> -> -> -> ->. reflexivity.
Qed.

Lemma render_cells p :
  setMessages (fun _ => []) (cells (render p))
  = setMessages (fun _ => []) (cells p).
Proof. destruct p as [[] q]. reflexivity. Qed.

(** A send under a schedule leaves what [Chat.handleSend] computes, except
    that the assistant message is without text when [onComplete] is invoked
    while the updater of a delta waits for a render. *)
Lemma after_send_eq now net ticks st :
  rejects st = false -> schedule_of net ticks ->
  after_send now net ticks st
  = setMessages
      (update_last_ai
         (with_content (if rendered_in_time false ticks
                        then ai_text (calls net) else [])))
      (handleSend now net st).
Proof.
  intros Hacc Hs. unfold schedule_of in Hs.
  destruct (calls_shape net) as [data [Hd Hcalls]].
  unfold after_send, d_handleSend. cbn [settled cells]. rewrite Hacc.
  set (p0 := on_cells _ (d_handleSend_begin now _)).
  assert (forall c,
             run_queue c (queue p0) (messages (cells p0))
             = (messages st ++ [user_message_of (trim (input st)) now])
               ++ [with_content (if false then aiBufferRef c
                                 else aiBufferRef (cells p0))
                     {| type := ai; content := []; timestamp := now;
                        toolCalls := Some [] |}]) as Hq0.
  { intro c. unfold p0. cbn. rewrite <- app_assoc. reflexivity. }
  assert (setMessages (fun _ => []) (cells p0)
          = setMessages (fun _ => [])
              (Chat.fetch (PostChat (payload (trim (input st)) (sessionId st)))
                 (handleSend_begin now st))) as He0.
  { unfold p0. destruct st. reflexivity. }
  pose proof (@ticks_cells _ ticks p0 _ He0) as Hcells. rewrite Hs in Hcells.
  apply state_eq.
  - (* everything but the transcript *)
    assert (forall f x, setMessages (fun _ => []) (setMessages f x)
                        = setMessages (fun _ => []) x) as Hsm.
    { intros f x. destruct x. reflexivity. }
    rewrite Hsm. unfold handleSend. rewrite Hacc, send_runs_calls.
    cbn [final outcome]. rewrite render_cells.
    destruct (thrown net) as [e|].
    + cbn [on_cells cells]. apply catch_cells. exact Hcells.
    + exact Hcells.
  - (* the transcript *)
    rewrite (handleSend_accepted now net st Hacc).
    cbn [messages setMessages].
    change (messages st
            ++ [user_message_of (trim (input st)) now;
                assistant_message now [] [] (calls net)])
      with (messages st
            ++ [user_message_of (trim (input st)) now]
            ++ [assistant_message now [] [] (calls net)]).
    rewrite app_assoc, update_last_ai_snoc by reflexivity.
    destruct (thrown net) as [e|] eqn:Hth.
    + (* the send throws *)
      rewrite app_nil_r in Hcalls. rewrite Hcalls in Hs. rewrite <- Hs in Hd.
      destruct (@data_ticks _ ticks p0 false
                  (messages st ++ [user_message_of (trim (input st)) now])
                  {| type := ai; content := []; timestamp := now;
                     toolCalls := Some [] |}
                  [] Hd eq_refl eq_refl Hq0)
        as [H1 H2].
      rewrite (@in_time_data ticks false Hd).
      cbn [render on_cells cells queue messages setMessages].
      change (messages (handleSend_catch e ?x)) with (messages x).
      rewrite H1.
      change (aiBufferRef (handleSend_catch e ?x)) with (aiBufferRef x).
      rewrite H2. rewrite Hcalls, <- Hs.
      unfold assistant_message, with_content.
      cbn [type content timestamp toolCalls app].
      destruct (waits false ticks); reflexivity.
    + (* the stream ends *)
      rewrite Hcalls in Hs.
      destruct (@invoked_split ticks data CComplete [] Hs)
        as [ta [tb [-> [Ha Hb]]]].
      rewrite <- Ha in Hd.
      destruct (@data_ticks _ ta p0 false
                  (messages st ++ [user_message_of (trim (input st)) now])
                  {| type := ai; content := []; timestamp := now;
                     toolCalls := Some [] |}
                  [] Hd eq_refl eq_refl Hq0)
        as [H1 H2].
      rewrite fold_left_app. cbn [fold_left tick].
      rewrite (@renders_only _ tb _ Hb).
      rewrite (@waits_data ta false tb Hd).
      cbn [render d_invoke on_cells cells queue messages setMessages].
      change (messages (invoke handlers ?x CComplete)) with (messages x).
      rewrite H1. rewrite Hcalls, <- Ha.
      unfold assistant_message, with_content.
      cbn [type content timestamp toolCalls app].
      rewrite ai_text_app, recorded_complete.
      change (ai_text [CComplete]) with (@nil N). rewrite app_nil_r.
      destruct (waits false ta); reflexivity.
Qed.

(** When React renders in time, the send leaves what [Chat.handleSend]
    computes. *)
Lemma after_send_in_time now net ticks st :
  rejects st = false -> schedule_of net ticks ->
  rendered_in_time false ticks = true ->
  after_send now net ticks st = handleSend now net st.
Proof.
  intros Hacc Hs Ht. rewrite (@after_send_eq now net ticks st Hacc Hs), Ht.
  rewrite (handleSend_accepted now net st Hacc).
  unfold setMessages. cbn.
  change (messages st
          ++ [user_message_of (trim (input st)) now;
              assistant_message now [] [] (calls net)])
    with (messages st
          ++ [user_message_of (trim (input st)) now]
          ++ [assistant_message now [] [] (calls net)]).
  rewrite app_assoc, update_last_ai_snoc by reflexivity. reflexivity.
Qed.

(** The transcript a send leaves, whenever React renders. *)
Lemma after_send_messages now net ticks st :
  rejects st = false -> schedule_of net ticks ->
  messages (after_send now net ticks st)
  = messages st
    ++ [user_message_of (trim (input st)) now;
        answer now (if rendered_in_time false ticks
                    then ai_text (calls net) else []) (calls net)].
Proof.
  intros Hacc Hs. rewrite (@after_send_eq now net ticks st Hacc Hs).
  rewrite (handleSend_accepted now net st Hacc).
  cbn [messages setMessages].
  change (messages st
          ++ [user_message_of (trim (input st)) now;
              assistant_message now [] [] (calls net)])
    with (messages st
          ++ [user_message_of (trim (input st)) now]
          ++ [assistant_message now [] [] (calls net)]).
  rewrite app_assoc, update_last_ai_snoc by reflexivity.
  rewrite <- app_assoc. reflexivity.
Qed.

Lemma after_send_last now net ticks st :
  rejects st = false -> schedule_of net ticks ->
  last_message (after_send now net ticks st)
  = Some (answer now (if rendered_in_time false ticks
                      then ai_text (calls net) else []) (calls net)).
Proof.
  intros Hacc Hs. eapply last_message_snoc.
  rewrite (@after_send_messages now net ticks st Hacc Hs).
  exact (app_assoc (messages st) [_] [_]).
Qed.

(** What a send leaves besides the transcript does not depend on when
    React renders. *)
Lemma after_send_requests now net ticks st :
  rejects st = false -> schedule_of net ticks ->
  requests (after_send now net ticks st)
  = requests st
    ++ PostChat (payload (trim (input st)) (sessionId st))
       :: match thrown net with
          | Some _ => []
          | None => [GetAllConversations]
          end.
Proof.
  intros Hacc Hs. rewrite (@after_send_eq now net ticks st Hacc Hs).
  rewrite (handleSend_accepted now net st Hacc). reflexivity.
Qed.

End SendUnderSchedule.

Section ScheduleExamples.
Context {NO : NumberOps}.

Lemma buffer_ticks ticks p :
  forallb is_data (invoked ticks) = true ->
  aiBufferRef (cells (fold_left tick ticks p))
  = aiBufferRef (cells p) ++ ai_text (invoked ticks).
Proof.
  intro Hd.
  pose proof (@ticks_cells _ ticks p (cells p) eq_refl) as H.
  apply (f_equal aiBufferRef) in H.
  change (aiBufferRef (setMessages ?f ?x)) with (aiBufferRef x) in H.
  rewrite H. apply buffer_accumulates. exact Hd.
Qed.

Lemma render_before_the_end_invoked cs :
  invoked (render_before_the_end cs) = cs.
Proof.
  unfold render_before_the_end. cbn [invoked flat_map app].
  induction cs as [|c r IH]; [reflexivity|].
  cbn [flat_map]. rewrite flat_map_app, IH. destruct c; reflexivity.
Qed.

Lemma render_before_the_end_in_time cs : forall w,
  rendered_in_time w (render_before_the_end cs) = true.
Proof.
  intro w. unfold render_before_the_end. cbn [rendered_in_time].
  generalize false.
  induction cs as [|c r IH]; intro b; [reflexivity|].
  cbn [flat_map].
  destruct c; cbn [app rendered_in_time negb]; try apply IH. reflexivity.
Qed.

End ScheduleExamples.

(* ================================================================== *)
(** * Tool anchors and the text of the answer *)
(* ================================================================== *)

(** C4 on the code.  [onToolOutput] reads the length of the accumulated
    text when it is invoked and hands it to the updater it queues, so the
    tool call recorded for a tool event carries the length of the text of
    all the deltas invoked before it, whenever React renders.  [onAIChunk]
    hands over no text: its updater reads [aiBufferRef] when React runs it,
    and the assistant message holds the text of all the deltas provided
    React renders after the last of them and before [onComplete] clears
    [aiBufferRef].  The two chunks of the scenario invoke the delta
    "Hello", the tool result t1, the delta " world" and [onComplete].  With
    a render before [onComplete] the assistant message ends as
    "Hello world" with t1 at 5 and is rendered as "Hello", t1, " world";
    with [onComplete] before the render it ends without text, t1 still at
    5, and is rendered as the card of t1 alone. *)
Theorem C4_tool_anchor_is_kept_but_text_is_read_at_render :
  forall (NO : NumberOps),
    (forall p output name c m,
        cells (d_onToolOutput output name p) = cells p
        /\ run_queue c (queue (d_onToolOutput output name p)) m
           = update_last_ai
               (push_call
                  {| toolName := name; toolOutput := output;
                     insertPosition := List.length (aiBufferRef (cells p)) |})
               (run_queue c (queue p) m))
    /\ (forall now net ticks st pre output name post,
          rejects st = false -> schedule_of net ticks ->
          calls net = pre ++ CToolOutput output name :: post ->
          exists m,
            last_message (after_send now net ticks st) = Some m
            /\ nth_error (calls_of m) (times is_tool pre)
               = Some {| toolName := name; toolOutput := output;
                         insertPosition := List.length (ai_text pre) |}
            /\ (rendered_in_time false ticks = true ->
                content m = ai_text (calls net)))
    /\ calls (stream_of tool_anchor_chunks) = tool_anchor_calls
    /\ (forall now,
          last_message
            (after_send now (stream_of tool_anchor_chunks)
               (render_before_the_end tool_anchor_calls) (typed "hi"))
          = Some {| type := ai; content := lit "Hello world"; timestamp := now;
                    toolCalls := Some [t1_call] |}
          /\ interleave (lit "Hello world") (Some [t1_call])
             = [ MarkdownMessage (lit "Hello");
                 ToolOutput (VString (jlit "{'x':1}")) (VString (lit "t1"));
                 MarkdownMessage (lit " world") ])
    /\ (forall now,
          last_message
            (after_send now (stream_of tool_anchor_chunks)
               (render_after_the_end tool_anchor_calls) (typed "hi"))
          = Some {| type := ai; content := []; timestamp := now;
                    toolCalls := Some [t1_call] |}
          /\ interleave [] (Some [t1_call])
             = [ ToolOutput (VString (jlit "{'x':1}")) (VString (lit "t1")) ]).
Proof.
  intro NO. split; [|split; [|split; [|split]]].
  - intros p output name c m. split; [reflexivity|].
    cbn [d_onToolOutput enqueue queue]. apply run_queue_snoc.
  - intros now net ticks st pre output name post Hacc Hs Hcalls.
    eexists. split; [|split].
    + apply (@after_send_last _ now net ticks st Hacc Hs).
    + unfold answer, calls_of. cbn [toolCalls].
      rewrite Hcalls. apply (recorded_at pre []).
    + intros ->. reflexivity.
  - reflexivity.
  - intro now. split; reflexivity.
  - intro now. split; reflexivity.
Qed.

(* ================================================================== *)
(** * Lines that do not decode *)
(* ================================================================== *)

(** C6 on the code.  A send whose reader ends returns normally whatever
    its lines hold, and what it invokes is what its framed lines invoke one
    after the other, then what the unterminated rest invokes, then
    [onComplete].  A line that [JSON.parse] rejects changes nothing and
    invokes nothing, so the lines before and after it are handled as if it
    were not there, in their order; an object whose [type] is none of the
    five known tags changes nothing either, nor does the line [null], whose
    [type] cannot be read.  The accumulated text grows by exactly the
    deltas of the [onAIChunk] invocations, whenever React renders; the
    assistant message is left with that text provided React renders after
    the last delta and before [onComplete] clears [aiBufferRef].  For the
    two [ai] records "A" and "B" with the line [not-json] between them, the
    message ends as "AB" with a render before [onComplete], and without
    text with [onComplete] before the render. *)
Theorem C6_undecodable_lines_are_dropped_but_text_is_read_at_render :
  forall (NO : NumberOps),
    (forall (S : Type) (h : StreamHandlers S) fetch q sid code values (s : S),
        outcome (sendChatMessage h fetch q sid
                   (Resolved {| status := code;
                                body := Some {| chunks := values;
                                                ending := Done |} |}) s)
        = Returns)
    /\ (forall code values,
          calls (Resolved {| status := code;
                             body := Some {| chunks := values;
                                             ending := Done |} |})
          = flat_map line_calls (fst (framed_lines values))
            ++ residual_calls (snd (framed_lines values)) ++ [CComplete])
    /\ (forall (S : Type) (h : StreamHandlers S) (s : S) bad,
          JSON_parse bad = None ->
          on_line h s bad = s /\ line_calls bad = [])
    /\ (forall (S : Type) (h : StreamHandlers S) (s : S) before bad after,
          JSON_parse bad = None ->
          fold_left (on_line h) (before ++ bad :: after) s
          = fold_left (on_line h) (before ++ after) s)
    /\ (forall (S : Type) (h : StreamHandlers S) (s : S) line obj t,
          JSON_parse line = Some obj -> get obj (lit "type") = Some t ->
          known_tag t = false ->
          on_line h s line = s /\ line_calls line = [])
    /\ (forall (S : Type) (h : StreamHandlers S) (s : S) line,
          JSON_parse line = Some VNull -> on_line h s line = s)
    /\ (forall p ticks,
          forallb is_data (invoked ticks) = true ->
          aiBufferRef (cells (fold_left tick ticks p))
          = aiBufferRef (cells p) ++ ai_text (invoked ticks))
    /\ (forall now net ticks st,
          rejects st = false -> schedule_of net ticks ->
          rendered_in_time false ticks = true ->
          exists m, last_message (after_send now net ticks st) = Some m
                    /\ content m = ai_text (calls net))
    /\ calls (stream_of not_json_chunks) = not_json_calls
    /\ (forall now,
          last_message
            (after_send now (stream_of not_json_chunks)
               (render_before_the_end not_json_calls) (typed "hi"))
          = Some {| type := ai; content := lit "AB"; timestamp := now;
                    toolCalls := Some [] |})
    /\ (forall now,
          last_message
            (after_send now (stream_of not_json_chunks)
               (render_after_the_end not_json_calls) (typed "hi"))
          = Some {| type := ai; content := []; timestamp := now;
                    toolCalls := Some [] |}).
Proof.
  intro NO.
  assert (forall (S : Type) (h : StreamHandlers S) (s : S) bad,
             JSON_parse bad = None -> on_line h s bad = s) as Hbad.
  { intros S h s bad Hp. unfold on_line. rewrite Hp.
    destruct (negb (nonempty (trim bad))); reflexivity. }
  assert (forall (S : Type) (h : StreamHandlers S) (s : S) line obj t,
             JSON_parse line = Some obj -> get obj (lit "type") = Some t ->
             known_tag t = false -> on_line h s line = s) as Hunknown.
  { intros S h s line obj t Hp Hg Hk. unfold on_line. rewrite Hp.
    destruct (negb (nonempty (trim line))); [reflexivity|].
    unfold dispatch. rewrite Hg. unfold known_tag in Hk.
    repeat (apply orb_false_elim in Hk; destruct Hk as [Hk ?]).
    repeat match goal with H : is_str t _ = false |- _ => rewrite H; clear H end.
    reflexivity. }
  repeat split.
  - intros. rewrite send_runs_calls. reflexivity.
  - intros. rewrite calls_eq. reflexivity.
  - apply Hbad; assumption.
  - unfold line_calls. apply Hbad; assumption.
  - intros S h s before bad after Hp.
    rewrite !fold_left_app. cbn [fold_left]. rewrite Hbad by exact Hp.
    reflexivity.
  - eapply Hunknown; eassumption.
  - unfold line_calls. eapply Hunknown; eassumption.
  - intros S h s line Hp. unfold on_line. rewrite Hp.
    destruct (negb (nonempty (trim line))); reflexivity.
  - intros p ticks Hd. apply buffer_ticks. exact Hd.
  - intros now net ticks st Hacc Hs Ht. eexists. split.
    + apply (@after_send_last _ now net ticks st Hacc Hs).
    + rewrite Ht. reflexivity.
Qed.

(* ================================================================== *)
(** * The send that is rendered in time *)
(* ================================================================== *)

(** Whenever React renders during a send, the send leaves what
    [handleSend] computes with every updater run at once, up to the text of
    the assistant message; it leaves exactly that when React renders after
    the last delta and before [onComplete], as it does when it renders just
    before [onComplete], and as every schedule of a send that throws
    does. *)
Theorem send_rendered_in_time_is_handleSend :
  forall (NO : NumberOps) (now : Z) (net : FetchResult) (ticks : list Tick)
         (st : ChatState),
    rejects st = false ->
    schedule_of net ticks ->
    (exists text,
        after_send now net ticks st
        = setMessages (update_last_ai (with_content text))
            (handleSend now net st))
    /\ (rendered_in_time false ticks = true ->
        after_send now net ticks st = handleSend now net st)
    /\ (thrown net <> None -> rendered_in_time false ticks = true)
    /\ schedule_of net (render_before_the_end (calls net))
    /\ after_send now net (render_before_the_end (calls net)) st
       = handleSend now net st.
Proof.
  intros NO now net ticks st Hacc Hs. split; [|split; [|split; [|split]]].
  - eexists. apply (@after_send_eq _ now net ticks st Hacc Hs).
  - apply (@after_send_in_time _ now net ticks st Hacc Hs).
  - intro Hth. destruct (calls_shape net) as [data [Hd Hcalls]].
    destruct (thrown net); [|congruence].
    rewrite app_nil_r in Hcalls. apply in_time_data.
    unfold schedule_of in Hs. rewrite Hs, Hcalls. exact Hd.
  - apply render_before_the_end_invoked.
  - apply after_send_in_time; [exact Hacc| |].
    + apply render_before_the_end_invoked.
    + apply render_before_the_end_in_time.
Qed.

Lemma send_rendered_in_time_is_handleSend_witness :
  @after_send as_written 0 (stream_of tool_anchor_chunks)
    [ Invoked (CAIChunk (VString (lit "Hello"))); Rendering;
      Invoked (CToolOutput (VString (jlit "{'x':1}")) (VString (lit "t1")));
      Invoked (CAIChunk (VString (lit " world"))); Rendering;
      Invoked CComplete ]
    (typed "hi")
  = @handleSend as_written 0 (stream_of tool_anchor_chunks) (typed "hi").
Proof.
  destruct (@send_rendered_in_time_is_handleSend as_written 0
              (stream_of tool_anchor_chunks)
              [ Invoked (CAIChunk (VString (lit "Hello"))); Rendering;
                Invoked (CToolOutput (VString (jlit "{'x':1}"))
                                     (VString (lit "t1")));
                Invoked (CAIChunk (VString (lit " world"))); Rendering;
                Invoked CComplete ]
              (typed "hi") eq_refl eq_refl) as [_ [H _]].
  apply H. reflexivity.
Defined.


(* ================================================================== *)
(** * The component between sends *)
(* ================================================================== *)

Import ChatControls Invariants.

Section NextSend.
Context {NO : NumberOps}.

Lemma handleSend_ready now net st q :
  rejects st = false -> nonempty (trim q) = true ->
  rejects (setInput q (handleSend now net st)) = false.
Proof.
  intros Hacc Hq. rewrite (handleSend_accepted now net st Hacc).
  unfold rejects. cbn [input setInput loading processingRef]. rewrite Hq. reflexivity.
Qed.

End NextSend.


(** After a send has ended, completed or failed, the next send of a
    question that is not blank is accepted and carries the session id the
    stream announced last (the one the component held, when it announced
    none). *)
Theorem next_send_carries_the_last_session_id :
  forall (NO : NumberOps) (now1 now2 : Z) (net1 net2 : FetchResult)
         (st : ChatState) (q : jsstring),
    rejects st = false ->
    nonempty (trim q) = true ->
    rejects (setInput q (handleSend now1 net1 st)) = false
    /\ sessionId (handleSend now1 net1 st)
       = last (session_ids (calls net1)) (sessionId st)
    /\ requests (handleSend now2 net2 (setInput q (handleSend now1 net1 st)))
       = requests (handleSend now1 net1 st)
         ++ PostChat (payload (trim q)
                        (last (session_ids (calls net1)) (sessionId st)))
            :: match thrown net2 with
               | Some _ => []
               | None => [GetAllConversations]
               end
    /\ (forall s, last (session_ids (calls net1)) (sessionId st) = VString s ->
          s <> [] ->
          payload (trim q) (last (session_ids (calls net1)) (sessionId st))
          = VObject [(lit "question", VString (trim q));
                     (lit "session_id", VString s)]).
Proof.
  intros NO now1 now2 net1 net2 st q Hacc Hq.
  pose proof (handleSend_ready now1 net1 st q Hacc Hq) as Hready.
  split; [exact Hready|].
  assert (sessionId (handleSend now1 net1 st)
          = last (session_ids (calls net1)) (sessionId st)) as Hsid.
  { rewrite (handleSend_accepted now1 net1 st Hacc). reflexivity. }
  split; [exact Hsid|]. split.
  - rewrite (handleSend_accepted now2 net2 _ Hready).
    cbn [requests setInput input sessionId]. rewrite Hsid. reflexivity.
  - intros s -> Hs. unfold payload. destruct s; [congruence|]. reflexivity.
Qed.

Lemma next_send_carries_the_last_session_id_witness :
  requests
    (@handleSend as_written 1 server_error
       (setInput (lit "more")
          (@handleSend as_written 0 (stream_of two_sessions) (typed "hi"))))
  = [ PostChat (VObject [(lit "question", VString (lit "hi"))]);
      GetAllConversations;
      PostChat (VObject [(lit "question", VString (lit "more"));
                         (lit "session_id", VString (lit "s2"))]);
      GetAllConversations ].
Proof.
  destruct (@next_send_carries_the_last_session_id as_written 0 1
              (stream_of two_sessions) server_error (typed "hi") (lit "more")
              eq_refl eq_refl) as [_ [_ [H _]]].
  rewrite H. reflexivity.
Defined.

Section NewConversation.
Context {NO : NumberOps}.

Lemma startNew_ready st q :
  loading st = false -> nonempty (trim q) = true ->
  rejects (setInput q (startNew st)) = false.
Proof.
  intros Hl Hq. unfold rejects.
  cbn [input setInput loading processingRef startNew loadAll Chat.fetch
       set_processingRef set_aiBufferRef setSessionId setMessages].
  rewrite Hq, Hl. reflexivity.
Qed.

End NewConversation.

(** [startNew] empties the transcript, forgets the session and the
    accumulated text, clears the guard and asks for the conversation list;
    it leaves [loading] and the text typed as they are.  When no send is
    loading, the send that follows is accepted, its payload holds the
    question alone, and the transcript then holds that one exchange, the
    answer with the tool results of the stream and, when React renders
    after the last delta and before [onComplete], with the text of its
    deltas.  Deleting the session that was open when the user clicked does
    what [startNew] does, also when another session has been opened before
    the request resolves; deleting another one leaves the transcript and
    the session as they are. *)
Theorem startNew_begins_a_new_conversation :
  forall (NO : NumberOps) (now : Z) (net : FetchResult) (ticks : list Tick)
         (st : ChatState) (q : jsstring),
    loading st = false ->
    nonempty (trim q) = true ->
    schedule_of net ticks ->
    (messages (startNew st) = [] /\ sessionId (startNew st) = VNull
     /\ aiBufferRef (startNew st) = [] /\ processingRef (startNew st) = false
     /\ loading (startNew st) = loading st /\ input (startNew st) = input st
     /\ requests (startNew st) = requests st ++ [GetAllConversations])
    /\ requests (after_send now net ticks (setInput q (startNew st)))
       = requests st
         ++ GetAllConversations
            :: PostChat (VObject [(lit "question", VString (trim q))])
            :: match thrown net with
               | Some _ => []
               | None => [GetAllConversations]
               end
    /\ (exists text,
          messages (after_send now net ticks (setInput q (startNew st)))
          = [user_message_of (trim q) now; answer now text (calls net)]
          /\ (rendered_in_time false ticks = true ->
              text = ai_text (calls net)))
    /\ (forall sid later,
          handleDelete_resolved (VString sid) sid later = startNew later)
    /\ (forall sid other conversations now',
          messages
            (handleDelete_resolved (VString sid) sid
               (loadSession_resolved other conversations now' st))
          = []
          /\ sessionId
               (handleDelete_resolved (VString sid) sid
                  (loadSession_resolved other conversations now' st))
             = VNull)
    /\ (forall captured sid later,
          captured <> VString sid ->
          handleDelete_resolved captured sid later = loadAll later
          /\ messages (handleDelete_resolved captured sid later)
             = messages later
          /\ sessionId (handleDelete_resolved captured sid later)
             = sessionId later).
Proof.
  intros NO now net ticks st q Hl Hq Hs.
  split; [repeat split|].
  pose proof (startNew_ready st q Hl Hq) as Hready.
  split; [|split; [|split; [|split]]].
  - rewrite (@after_send_requests _ now net ticks _ Hready Hs).
    cbn [requests setInput input sessionId startNew loadAll Chat.fetch
         set_processingRef set_aiBufferRef setSessionId setMessages].
    rewrite <- app_assoc. reflexivity.
  - eexists. split.
    + rewrite (@after_send_messages _ now net ticks _ Hready Hs). reflexivity.
    + intros ->. reflexivity.
  - intros sid later. unfold handleDelete_resolved. cbn [is_str].
    rewrite str_eqb_refl. reflexivity.
  - intros sid other conversations now'. unfold handleDelete_resolved.
    cbn [is_str]. rewrite str_eqb_refl. split; reflexivity.
  - intros captured sid later Hne. unfold handleDelete_resolved.
    destruct (is_str captured sid) eqn:E.
    + exfalso. apply Hne. destruct captured; try discriminate E.
      cbn [is_str] in E. apply str_eqb_eq in E. congruence.
    + repeat split.
Qed.

Lemma startNew_begins_a_new_conversation_witness :
  requests
    (@after_send as_written 1 server_error [Rendering; Invoked CComplete]
       (setInput (lit "again")
          (startNew
             (@handleSend as_written 0 (stream_of two_sessions) (typed "hi")))))
  = [ PostChat (VObject [(lit "question", VString (lit "hi"))]);
      GetAllConversations;
      GetAllConversations;
      PostChat (VObject [(lit "question", VString (lit "again"))]);
      GetAllConversations ].
Proof.
  destruct (@startNew_begins_a_new_conversation as_written 1 server_error
              [Rendering; Invoked CComplete]
              (@handleSend as_written 0 (stream_of two_sessions) (typed "hi"))
              (lit "again") eq_refl eq_refl eq_refl) as [_ [H _]].
  rewrite H. reflexivity.
Defined.

Section Frame.
Context {NO : NumberOps}.

Lemma update_last_ai_frame f m :
  (forall x, type (f x) = type x /\ timestamp (f x) = timestamp x) ->
  List.length (update_last_ai f m) = List.length m
  /\ removelast (update_last_ai f m) = removelast m
  /\ map type (update_last_ai f m) = map type m
  /\ map timestamp (update_last_ai f m) = map timestamp m.
Proof.
  intro Hf. destruct (update_last_ai_cases f m) as [[E _]|[arr [l [-> [_ E]]]]].
  { rewrite E. repeat split. }
  rewrite E, !length_app, !removelast_last, !map_app. cbn [map List.length].
  destruct (Hf l) as [-> ->]. repeat split.
Qed.

Lemma invoke_frame st c :
  List.length (messages (invoke handlers st c)) = List.length (messages st)
  /\ removelast (messages (invoke handlers st c)) = removelast (messages st)
  /\ map type (messages (invoke handlers st c)) = map type (messages st)
  /\ map timestamp (messages (invoke handlers st c))
     = map timestamp (messages st).
Proof.
  destruct c; cbn; try (repeat split; fail);
    apply update_last_ai_frame; intro x; split; reflexivity.
Qed.

End Frame.

(** The invocations of a stream never add or remove a message, never
    change a message other than the last, and never change the role or the
    time of any message: all a stream can do to the transcript is rewrite
    the text and extend the tool calls of its last message.  The same holds
    for whatever a stream in flight delivers to the component, and for the
    failure of its transport. *)
Theorem stream_changes_only_the_last_message :
  forall (NO : NumberOps) (cs : list Call) (st : ChatState),
    (List.length (messages (fold_left (invoke handlers) cs st))
     = List.length (messages st)
     /\ removelast (messages (fold_left (invoke handlers) cs st))
        = removelast (messages st)
     /\ map type (messages (fold_left (invoke handlers) cs st))
        = map type (messages st)
     /\ map timestamp (messages (fold_left (invoke handlers) cs st))
        = map timestamp (messages st))
    /\ (forall s s' a,
          (exists c, a = Deliver c) \/ (exists e, a = StreamThrows e) ->
          act a s = Some s' ->
          List.length (messages (ui s')) = List.length (messages (ui s))
          /\ removelast (messages (ui s')) = removelast (messages (ui s))
          /\ map type (messages (ui s')) = map type (messages (ui s))).
Proof.
  intros NO cs. split.
  - revert st. induction cs as [|c r IH]; intro st; [repeat split|].
    cbn [fold_left].
    destruct (IH (invoke handlers st c)) as [H1 [H2 [H3 H4]]].
    destruct (invoke_frame st c) as [G1 [G2 [G3 G4]]].
    rewrite H1, H2, H3, H4. repeat split; assumption.
  - intros s s' a [[c ->]|[e ->]] Hact; cbn [act] in Hact.
    + destruct (in_flight s) as [|n]; [destruct c; discriminate|].
      destruct (invoke_frame (ui s) c) as [G1 [G2 [G3 _]]].
      destruct c; try discriminate; injection Hact as <-;
        cbn [ui on_ui]; repeat split; assumption.
    + destruct (in_flight s); [discriminate|]. injection Hact as <-.
      repeat split.
Qed.

Section Ascending.
Context {NO : NumberOps}.

Lemma ascending_snoc l c :
  ascending l -> anchors_within (insertPosition c) l -> ascending (l ++ [c]).
Proof.
  unfold ascending, anchors_within. intros Hs Hw.
  induction Hs as [|x r Hr IH Hx]; cbn [app].
  - repeat constructor.
  - inversion Hw as [|? ? Hxc Hrc]; subst.
    constructor; [apply IH; exact Hrc|].
    apply Forall_app. split; [exact Hx | constructor; [exact Hxc | constructor]].
Qed.

Lemma anchors_within_le n n' l :
  n <= n' -> anchors_within n l -> anchors_within n' l.
Proof.
  intros Hle H. eapply Forall_impl; [|exact H]. cbn. intros; lia.
Qed.

Lemma ascending_sort l : ascending l -> sort anchor_cmp l = l.
Proof.
  intro H.
  apply (@sort_sorted_id ToolCall anchor_cmp anchor_key).
  - intros a b. unfold anchor_cmp, anchor_key. lia.
  - unfold ascending in H. induction H as [|x r Hr IH Hx]; constructor;
      [exact IH|].
    eapply Forall_impl; [|exact Hx]. unfold anchor_key. cbn. intros; lia.
Qed.

Lemma last_message_cases st :
  (messages st = [] /\ last_message st = None)
  \/ exists arr m, messages st = arr ++ [m] /\ last_message st = Some m.
Proof.
  destruct (pop_cases (messages st)) as [E|[arr [m E]]].
  - left. split; [exact E|]. unfold last_message. rewrite E. reflexivity.
  - right. exists arr, m. split; [exact E|]. eapply last_message_snoc; exact E.
Qed.

(** What the two message updaters do to the invariant. *)
Lemma anchored_invoke st c n :
  is_error c = false -> is_complete c = false ->
  anchored {| ui := st; in_flight := S n |} ->
  anchored {| ui := invoke handlers st c; in_flight := S n |}.
Proof.
  intros He Hc [Hall Hlast]. cbn [ui in_flight] in *.
  specialize (Hlast (Nat.lt_0_succ n)).
  destruct c as [id|v|o tn|e|]; try discriminate.
  - (* onSessionId *)
    split; [exact Hall|]. intros _ m Hm. apply Hlast. exact Hm.
  - (* onAIChunk *)
    cbn [invoke call1 handlers onAIChunk]. unfold h_onAIChunk, anchored.
    cbn [ui in_flight messages aiBufferRef setMessages set_aiBufferRef].
    unfold last_message in *.
    cbn [messages aiBufferRef setMessages set_aiBufferRef].
    destruct (update_last_ai_cases
                (with_content (aiBufferRef st ++ to_string v)) (messages st))
      as [[E _]|[arr [l [Em [_ E]]]]]; rewrite E.
    + split; [exact Hall|]. intros _ m Hm.
      eapply anchors_within_le; [|apply Hlast; exact Hm].
      rewrite length_app. lia.
    + rewrite Em in Hall, Hlast. apply Forall_app in Hall. destruct Hall as [Ha Hl].
      inversion Hl as [|? ? Hl1 _]; subst. split.
      * apply Forall_app. split; [exact Ha|]. constructor; [exact Hl1|constructor].
      * intros _ m Hm. rewrite pop_snoc in Hm. cbn in Hm. injection Hm as <-.
        eapply anchors_within_le;
          [|apply (Hlast l); rewrite pop_snoc; reflexivity].
        rewrite length_app. lia.
  - (* onToolOutput *)
    cbn [invoke call2 handlers onToolOutput]. unfold h_onToolOutput, anchored.
    cbn [ui in_flight messages aiBufferRef setMessages].
    unfold last_message in *. cbn [messages setMessages].
    match goal with
    | |- context [update_last_ai ?f _] =>
        destruct (update_last_ai_cases f (messages st))
          as [[E _]|[arr [l [Em [_ E]]]]]; rewrite E
    end.
    + split; [exact Hall|]. intros _ m Hm. apply Hlast. exact Hm.
    + rewrite Em in Hall, Hlast. apply Forall_app in Hall. destruct Hall as [Ha Hl].
      inversion Hl as [|? ? Hl1 _]; subst.
      specialize (Hlast l). rewrite pop_snoc in Hlast. specialize (Hlast eq_refl).
      split.
      * apply Forall_app. split; [exact Ha|]. constructor; [|constructor].
        unfold calls_of in *. cbn [toolCalls with_toolCalls].
        apply ascending_snoc; [exact Hl1 | exact Hlast].
      * intros _ m Hm. rewrite pop_snoc in Hm. cbn in Hm. injection Hm as <-.
        unfold calls_of in *. cbn [toolCalls with_toolCalls].
        apply Forall_app. split; [exact Hlast|].
        constructor; [cbn; lia | constructor].
Qed.

Lemma loaded_ascending conversations now :
  Forall (fun m => ascending (calls_of m))
    (flat_map (fun c =>
       [ {| type := user; content := user_message c; timestamp := now;
            toolCalls := None |};
         {| type := ai; content := ai_message c; timestamp := now;
            toolCalls := Some [] |} ]) conversations).
Proof.
  induction conversations as [|c r IH]; cbn; [constructor|].
  constructor; [constructor|]. constructor; [constructor | exact IH].
Qed.

Lemma loaded_last_no_calls conversations now m :
  snd (pop (flat_map (fun c =>
       [ {| type := user; content := user_message c; timestamp := now;
            toolCalls := None |};
         {| type := ai; content := ai_message c; timestamp := now;
            toolCalls := Some [] |} ]) conversations)) = Some m ->
  calls_of m = [].
Proof.
  intro H.
  assert (In m (flat_map (fun c =>
       [ {| type := user; content := user_message c; timestamp := now;
            toolCalls := None |};
         {| type := ai; content := ai_message c; timestamp := now;
            toolCalls := Some [] |} ]) conversations)) as Hin.
  { match type of H with
    | snd (pop ?l) = _ => destruct (pop_cases l) as [E|[arr [x E]]]; rewrite E in *
    end.
    - discriminate H.
    - rewrite pop_snoc in H. cbn in H. injection H as ->.
      apply in_or_app. right. left. reflexivity. }
  apply in_flat_map in Hin. destruct Hin as [c [_ [<-|[<-|[]]]]]; reflexivity.
Qed.

Lemma act_anchored a s s' :
  one_flight s -> anchored s -> act a s = Some s' -> anchored s'.
Proof.
  intros [Hle Hload] Hinv Hact. pose proof Hinv as [Hall Hlast].
  destruct a; cbn [act] in Hact.
  - (* Typing *) injection Hact as <-. exact Hinv.
  - (* Send *)
    destruct (rejects (ui s)) eqn:Hrej; injection Hact as <-; [exact Hinv|].
    unfold anchored, last_message.
    cbn [ui in_flight messages aiBufferRef Chat.fetch handleSend_begin setInput
         set_aiBufferRef setMessages setLoading set_processingRef].
    split.
    + apply Forall_app. split; [exact Hall|].
      constructor; [constructor|]. constructor; [constructor|constructor].
    + intros _ m Hm.
      change (messages (ui s) ++ [?u; ?x]) with (messages (ui s) ++ [u] ++ [x]) in Hm.
      rewrite app_assoc, pop_snoc in Hm. cbn in Hm. injection Hm as <-.
      constructor.
  - (* Deliver *)
    destruct s as [st k]. cbn [ui in_flight] in *.
    destruct k as [|n]; [destruct c; discriminate|].
    assert (n = 0) as -> by lia.
    destruct c as [id|v|o tn|e|];
      try discriminate Hact; injection Hact as <-.
    + apply (@anchored_invoke st (CSessionId id) 0 eq_refl eq_refl Hinv).
    + apply (@anchored_invoke st (CAIChunk v) 0 eq_refl eq_refl Hinv).
    + apply (@anchored_invoke st (CToolOutput o tn) 0 eq_refl eq_refl Hinv).
    + split; [exact Hall|]. cbn [in_flight]. intro H; lia.
  - (* StreamThrows *)
    destruct (in_flight s) as [|n] eqn:En; [discriminate|].
    assert (n = 0) as -> by lia. injection Hact as <-.
    split; [exact Hall|]. cbn [in_flight]. intro H; lia.
  - (* StartNew *)
    injection Hact as <-. split; [constructor|].
    intros _ m Hm. discriminate Hm.
  - (* LoadAll *) injection Hact as <-. exact Hinv.
  - (* LoadAllResolved *) injection Hact as <-. exact Hinv.
  - (* LoadSession *) injection Hact as <-. exact Hinv.
  - (* LoadSessionResolved *)
    injection Hact as <-. split; [apply loaded_ascending|].
    intros _ m Hm. unfold last_message in Hm.
    cbn [ui on_ui messages loadSession_resolved setSessionId setMessages] in Hm.
    unfold anchors_within. rewrite (loaded_last_no_calls _ _ Hm). constructor.
  - (* Delete *) injection Hact as <-. exact Hinv.
  - (* DeleteResolved *)
    injection Hact as <-. unfold anchored, handleDelete_resolved.
    cbn [on_ui ui in_flight].
    destruct (is_str captured sid).
    + split; [constructor|]. intros _ m Hm. discriminate Hm.
    + exact Hinv.
Qed.

Lemma run_anchored actions : forall s s',
  one_flight s -> anchored s -> run actions s = Some s' -> anchored s'.
Proof.
  induction actions as [|a r IH]; intros s s' H1 H2 Hrun; cbn [run] in Hrun.
  - injection Hrun as <-. exact H2.
  - destruct (act a s) as [s1|] eqn:Ha; [|discriminate].
    apply (IH s1 s');
      [eapply act_one_flight; eassumption
      | eapply act_anchored; eassumption | exact Hrun].
Qed.

Lemma mounted_anchored : anchored mounted.
Proof. split; [constructor|]. cbn. intro H; lia. Qed.

End Ascending.

(** In every state the component reaches, the tool calls of every message
    are in ascending order of their anchors, as they were recorded while
    the text grew: the sort of the rendering never moves a tool call, and a
    message shows its tool results in the order they arrived. *)
Theorem recorded_tool_calls_are_ascending :
  forall (NO : NumberOps) (actions : list Action) (s : Sys),
    run actions mounted = Some s ->
    forall m, In m (messages (ui s)) ->
      ascending (calls_of m)
      /\ sort anchor_cmp (calls_of m) = calls_of m
      /\ tools (render_ai m)
         = map (fun c => (toolOutput c, toolName c)) (calls_of m).
Proof.
  intros NO actions s Hrun m Hin.
  pose proof (run_anchored actions mounted_one_flight mounted_anchored Hrun)
    as [Hall _].
  rewrite Forall_forall in Hall. specialize (Hall m Hin).
  split; [exact Hall|]. pose proof (ascending_sort Hall) as Hsort.
  split; [exact Hsort|].
  unfold render_ai. unfold calls_of in *.
  destruct (toolCalls m) as [[|c rest]|]; [reflexivity| |reflexivity].
  rewrite interleave_cons, tools_app, woven_tools, Hsort.
  cbv zeta.
  destruct (_ <? _); [destruct (blank _)|]; cbn [tools flat_map];
    rewrite app_nil_r; reflexivity.
Qed.

Lemma recorded_tool_calls_are_ascending_witness :
  exists s : Sys,
    @run as_written
      [Typing (lit "hi"); Send 0;
       Deliver (CToolOutput (VString (lit "x")) (VString (lit "t1")));
       Deliver (CAIChunk (VString (lit "par")));
       Deliver (CToolOutput (VString (lit "y")) (VString (lit "t2")))]
      mounted = Some s
    /\ map (fun m => map insertPosition (calls_of m)) (messages (ui s))
       = [[]; [0; 3]]
    /\ forall m, In m (messages (ui s)) ->
         sort anchor_cmp (calls_of m) = calls_of m.
Proof.
  eexists. split; [reflexivity|]. split; [reflexivity|].
  intros m Hin.
  apply (@recorded_tool_calls_are_ascending as_written
           [Typing (lit "hi"); Send 0;
            Deliver (CToolOutput (VString (lit "x")) (VString (lit "t1")));
            Deliver (CAIChunk (VString (lit "par")));
            Deliver (CToolOutput (VString (lit "y")) (VString (lit "t2")))]
           _ eq_refl m Hin).
Defined.


Section InStep.
Context {NO : NumberOps}.

Lemma act_in_step a s s' : in_step s -> act a s = Some s' -> in_step s'.
Proof.
  intros [Hle [Hload Hguard]] Hact. unfold in_step.
  destruct a; cbn [act] in Hact;
    try (injection Hact as <-; cbn; repeat split; tauto).
  - (* Send *)
    destruct (rejects (ui s)) eqn:Hrej; injection Hact as <-.
    + repeat split; tauto.
    + cbn. unfold rejects in Hrej.
      apply orb_false_elim in Hrej. destruct Hrej as [Hrej _].
      apply orb_false_elim in Hrej. destruct Hrej as [_ Hl].
      assert (in_flight s = 0) as E.
      { destruct (in_flight s) as [|[|n]]; [reflexivity| |lia].
        destruct Hload as [_ H]. rewrite H in Hl by reflexivity. discriminate. }
      rewrite E. repeat split; auto.
  - (* Deliver *)
    destruct (in_flight s) as [|n] eqn:En; [destruct c; discriminate|].
    assert (n = 0) as -> by lia.
    destruct c; try discriminate; injection Hact as <-; cbn;
      intuition (try lia; try discriminate; try congruence).
  - (* StreamThrows *)
    destruct (in_flight s) as [|n] eqn:En; [discriminate|].
    assert (n = 0) as -> by lia.
    injection Hact as <-. cbn.
    intuition (try lia; try discriminate; try congruence).
  - (* StartNew *)
    injection Hact as <-. cbn.
    intuition (try lia; try discriminate; try congruence).
  - (* DeleteResolved *)
    injection Hact as <-. cbn. unfold handleDelete_resolved.
    destruct (is_str captured sid); cbn;
      intuition (try lia; try discriminate; try congruence).
Qed.

Lemma run_in_step actions : forall s s',
  in_step s -> run actions s = Some s' -> in_step s'.
Proof.
  induction actions as [|a r IH]; intros s s' Hs Hrun; cbn [run] in Hrun.
  - injection Hrun as <-. exact Hs.
  - destruct (act a s) as [s1|] eqn:Ha; [|discriminate].
    eapply IH; [eapply act_in_step; eassumption | exact Hrun].
Qed.

Lemma mounted_in_step : in_step mounted.
Proof. repeat split; cbn; try lia; discriminate. Qed.

End InStep.

(** In every state the component reaches, [loading] is set exactly while a
    send is in flight, so the input is never left disabled once the stream
    has ended or failed; the guard [processingRef] is set only while
    [loading] is, so it never rejects a send on its own: the send button is
    enabled exactly when [handleSend] would go ahead.  The key handler sends
    on Enter without Shift and on nothing else. *)
Theorem send_button_follows_the_stream :
  forall (NO : NumberOps) (actions : list Action) (s : Sys),
    run actions mounted = Some s ->
    (loading (ui s) = true <-> in_flight s = 1)
    /\ (processingRef (ui s) = true -> loading (ui s) = true)
    /\ rejects (ui s) = send_disabled (ui s)
    /\ (forall key shiftKey now net,
          handleKey key shiftKey now net (ui s)
          = if str_eqb key (lit "Enter") && negb shiftKey
            then (true, if send_disabled (ui s) then ui s
                        else handleSend now net (ui s))
            else (false, ui s)).
Proof.
  intros NO actions s Hrun.
  pose proof (run_in_step actions mounted_in_step Hrun) as [_ [Hload Hguard]].
  assert (rejects (ui s) = send_disabled (ui s)) as Hrej.
  { unfold rejects, send_disabled.
    destruct (processingRef (ui s)) eqn:Hp.
    - rewrite (Hguard eq_refl). rewrite orb_true_r. reflexivity.
    - rewrite orb_false_r. apply orb_comm. }
  split; [exact Hload|]. split; [exact Hguard|]. split; [exact Hrej|].
  intros key shiftKey now net. unfold handleKey.
  destruct (str_eqb key (lit "Enter") && negb shiftKey); [|reflexivity].
  rewrite <- Hrej. unfold handleSend. destruct (rejects (ui s)); reflexivity.
Qed.

Lemma send_button_follows_the_stream_witness :
  exists s : Sys,
    @run as_written
      [Typing (lit "hi"); Send 0; StartNew; Typing (lit "again")]
      mounted = Some s
    /\ processingRef (ui s) = false
    /\ rejects (ui s) = true
    /\ send_disabled (ui s) = true.
Proof.
  eexists. split; [reflexivity|]. split; [reflexivity|]. split; [reflexivity|].
  destruct (@send_button_follows_the_stream as_written
              [Typing (lit "hi"); Send 0; StartNew; Typing (lit "again")]
              _ eq_refl) as [_ [_ [H _]]].
  rewrite <- H. reflexivity.
Defined.

Section Loaded.
Context {NO : NumberOps}.

Lemma loaded_length conversations now :
  List.length (loaded conversations now) = 2 * List.length conversations.
Proof.
  induction conversations as [|c r IH]; [reflexivity|].
  cbn [loaded flat_map app List.length] in *. unfold loaded in IH.
  rewrite IH. lia.
Qed.

Lemma loaded_sides conversations now :
  map content (filter (fun m => role_eqb (type m) user) (loaded conversations now))
  = map user_message conversations
  /\ map content (filter (fun m => role_eqb (type m) ai) (loaded conversations now))
     = map ai_message conversations.
Proof.
  induction conversations as [|c r [IH1 IH2]]; [split; reflexivity|].
  cbn [loaded flat_map app filter role_eqb type map content].
  unfold loaded in IH1, IH2. rewrite IH1, IH2. split; reflexivity.
Qed.

End Loaded.

(** [loadSession], once its request has resolved, replaces the transcript
    by the stored exchanges in their order, a question and an answer
    without tool calls for each, and makes the session the current one; it
    leaves [loading], the guard and the accumulated text alone.  When no
    send is loading, the next send is accepted, carries the id of that
    session (unless the id is empty) and appends its exchange to the loaded
    transcript: the question, and the answer with the tool results of the
    stream and, when React renders after the last delta and before
    [onComplete], with the text of its deltas. *)
Theorem loaded_session_is_continued :
  forall (NO : NumberOps) (sid : jsstring)
         (conversations : list ConversationItem) (now now' : Z)
         (net : FetchResult) (ticks : list Tick) (st : ChatState)
         (q : jsstring),
    loading st = false ->
    processingRef st = false ->
    nonempty (trim q) = true ->
    schedule_of net ticks ->
    messages (loadSession_resolved sid conversations now st)
    = loaded conversations now
    /\ List.length (loaded conversations now) = 2 * List.length conversations
    /\ map content (filter (fun m => role_eqb (type m) user)
                           (loaded conversations now))
       = map user_message conversations
    /\ map content (filter (fun m => role_eqb (type m) ai)
                           (loaded conversations now))
       = map ai_message conversations
    /\ Forall (fun m => calls_of m = []) (loaded conversations now)
    /\ requests
         (after_send now' net ticks
            (setInput q (loadSession_resolved sid conversations now st)))
       = requests st
         ++ PostChat (payload (trim q) (VString sid))
            :: match thrown net with
               | Some _ => []
               | None => [GetAllConversations]
               end
    /\ (exists text,
          messages
            (after_send now' net ticks
               (setInput q (loadSession_resolved sid conversations now st)))
          = loaded conversations now
            ++ [user_message_of (trim q) now'; answer now' text (calls net)]
          /\ (rendered_in_time false ticks = true ->
              text = ai_text (calls net)))
    /\ (sid <> [] ->
        payload (trim q) (VString sid)
        = VObject [(lit "question", VString (trim q));
                   (lit "session_id", VString sid)]).
Proof.
  intros NO sid conversations now now' net ticks st q Hl Hp Hq Hs.
  split; [reflexivity|]. split; [apply loaded_length|].
  destruct (loaded_sides conversations now) as [H1 H2].
  split; [exact H1|]. split; [exact H2|]. split.
  { clear. unfold loaded. induction conversations as [|c r IH]; [constructor|].
    cbn [flat_map app]. constructor; [reflexivity|].
    constructor; [reflexivity | exact IH]. }
  assert (rejects (setInput q (loadSession_resolved sid conversations now st))
          = false) as Hready.
  { unfold rejects.
    cbn [input setInput loading processingRef loadSession_resolved
         setSessionId setMessages].
    rewrite Hq, Hl, Hp. reflexivity. }
  split; [|split].
  - rewrite (@after_send_requests _ now' net ticks _ Hready Hs). reflexivity.
  - eexists. split.
    + rewrite (@after_send_messages _ now' net ticks _ Hready Hs). reflexivity.
    + intros ->. reflexivity.
  - intro Hne. unfold payload. destruct sid; [congruence | reflexivity].
Qed.

Lemma loaded_session_is_continued_witness :
  requests
    (@after_send as_written 2 server_error [Invoked CComplete]
       (setInput (lit "and then?")
          (loadSession_resolved (lit "s1") [stored] 1 initial)))
  = [ PostChat (VObject [(lit "question", VString (lit "and then?"));
                         (lit "session_id", VString (lit "s1"))]);
      GetAllConversations ].
Proof.
  destruct (@loaded_session_is_continued as_written (lit "s1") [stored] 1 2
              server_error [Invoked CComplete] initial (lit "and then?")
              eq_refl eq_refl eq_refl eq_refl)
    as [_ [_ [_ [_ [_ [H _]]]]]].
  rewrite H. reflexivity.
Defined.

Section IndexAgain.

Lemma first_of_each_id l : forall seen,
  NoDup (map session_id l) ->
  (forall c, In c l -> ~ In (session_id c) seen) ->
  first_of_each seen l = l.
Proof.
  induction l as [|x r IH]; intros seen Hnd Hseen; [reflexivity|].
  cbn [first_of_each].
  destruct (existsb (str_eqb (session_id x)) seen) eqn:E.
  - exfalso. apply existsb_exists in E. destruct E as [k [Hk Ek]].
    apply str_eqb_eq in Ek. subst k.
    apply (Hseen x); [left; reflexivity | exact Hk].
  - f_equal. cbn [map] in Hnd. inversion Hnd as [|? ? Hx Hr]; subst.
    apply IH; [exact Hr|]. intros c Hc [E'|Hin].
    + apply Hx. rewrite E'. apply in_map. exact Hc.
    + apply (Hseen c); [right; exact Hc | exact Hin].
Qed.

Lemma first_of_each_length l : forall seen,
  List.length (first_of_each seen l) <= List.length l.
Proof.
  induction l as [|x r IH]; intro seen; [apply le_n|].
  cbn [first_of_each List.length].
  destruct (existsb _ seen); [specialize (IH seen) | specialize (IH (session_id x :: seen))];
    cbn [List.length]; lia.
Qed.

Lemma first_of_each_ids l : forall seen k,
  In k (map session_id (first_of_each seen l))
  <-> In k (map session_id l) /\ ~ In k seen.
Proof.
  induction l as [|x r IH]; intros seen k; [cbn; tauto|].
  cbn [first_of_each map In].
  destruct (existsb (str_eqb (session_id x)) seen) eqn:E.
  - rewrite IH. apply existsb_exists in E. destruct E as [y [Hy Ey]].
    apply str_eqb_eq in Ey. subst y. split.
    + intros [H1 H2]. split; [right; exact H1 | exact H2].
    + intros [[H1|H1] H2]; [subst; contradiction | split; assumption].
  - assert (~ In (session_id x) seen) as Hx.
    { intro H. assert (existsb (str_eqb (session_id x)) seen = true) as E'.
      { apply existsb_exists. exists (session_id x).
        split; [exact H | apply str_eqb_refl]. }
      congruence. }
    cbn [map In]. rewrite IH. cbn [In]. split.
    + intros [H|[H1 H2]]; [subst; split; [left; reflexivity | exact Hx]|].
      split; [right; exact H1 | tauto].
    + intros [[H|H] H2]; [left; exact H|].
      destruct (list_eq_dec N.eq_dec (session_id x) k) as [E'|E'];
        [left; exact E' | right].
      split; [exact H | intros [H3|H3]; [contradiction | contradiction]].
Qed.

Lemma uniqueSessions_ids l :
  (forall k, In k (map session_id (uniqueSessions l))
             <-> In k (map session_id l))
  /\ NoDup (map session_id (uniqueSessions l)).
Proof.
  rewrite uniqueSessions_eq.
  set (cmp := fun a b => (time_of b - time_of a)%Z).
  pose proof (sort_perm cmp (first_of_each [] l)) as Hperm. split.
  - intro k. split.
    + intro H.
      apply (Permutation_in _ (Permutation_map session_id Hperm)) in H.
      apply first_of_each_ids in H. tauto.
    + intro H.
      apply (Permutation_in _
               (Permutation_sym (Permutation_map session_id Hperm))).
      apply first_of_each_ids. split; [exact H | intros []].
  - eapply Permutation_NoDup;
      [apply Permutation_map, Permutation_sym, Hperm|].
    apply first_of_each_NoDup.
Qed.

End IndexAgain.

(** The session index lists every session id of the conversations, each
    once, and nothing else, so it is never longer than the list and empty
    only when the list is; and it is the index of itself: building it again
    from what it lists changes nothing. *)
Theorem uniqueSessions_lists_each_session_once :
  forall l : list ConversationItem,
    (forall k, In k (map session_id (uniqueSessions l))
               <-> In k (map session_id l))
    /\ NoDup (map session_id (uniqueSessions l))
    /\ List.length (uniqueSessions l) <= List.length l
    /\ (uniqueSessions l = [] <-> l = [])
    /\ uniqueSessions (uniqueSessions l) = uniqueSessions l.
Proof.
  intro l. destruct (uniqueSessions_ids l) as [Hids Hnd].
  split; [exact Hids|]. split; [exact Hnd|]. split; [|split].
  - rewrite uniqueSessions_eq, (Permutation_length (sort_perm _ _)).
    apply first_of_each_length.
  - split.
    + intro E. destruct l as [|c r]; [reflexivity|]. exfalso.
      assert (In (session_id c) (map session_id (uniqueSessions (c :: r))))
        as Hin by (apply Hids; left; reflexivity).
      rewrite E in Hin. destruct Hin.
    + intros ->. reflexivity.
  - rewrite (uniqueSessions_eq (uniqueSessions l)).
    rewrite (@first_of_each_id (uniqueSessions l) [] Hnd) by (intros c _ []).
    rewrite uniqueSessions_eq.
    apply (@sort_idem ConversationItem
             (fun a b => (time_of b - time_of a)%Z)
             (fun c => (- time_of c)%Z) newest_first_cmp).
Qed.

Import Sidebar.

Section Highlight.

Lemma filter_unique (l : list ConversationItem) (k : jsstring) :
  NoDup (map session_id l) ->
  List.length (filter (fun s => str_eqb k (session_id s)) l) <= 1
  /\ (In k (map session_id l) ->
      exists s, filter (fun s => str_eqb k (session_id s)) l = [s]
                /\ session_id s = k /\ In s l).
Proof.
  induction l as [|x r IH]; intro Hnd; [split; [apply le_0_n | intros []]|].
  cbn [map] in Hnd. inversion Hnd as [|? ? Hx Hr]; subst.
  destruct (IH Hr) as [Hlen Hex]. cbn [filter].
  destruct (str_eqb k (session_id x)) eqn:E.
  - apply str_eqb_eq in E. subst k.
    assert (filter (fun s => str_eqb (session_id x) (session_id s)) r = []) as Hnone.
    { destruct (filter _ r) as [|y t] eqn:Ef; [reflexivity|]. exfalso.
      assert (In y (filter (fun s => str_eqb (session_id x) (session_id s)) r))
        as Hy by (rewrite Ef; left; reflexivity).
      apply filter_In in Hy. destruct Hy as [Hy Ey].
      apply str_eqb_eq in Ey. apply Hx. rewrite Ey. apply in_map. exact Hy. }
    rewrite Hnone. split; [apply le_n|]. intros _.
    exists x. split; [reflexivity|]. split; [reflexivity | left; reflexivity].
  - split; [exact Hlen|]. cbn [map In]. intros [H|H].
    + rewrite H, str_eqb_refl in E. discriminate.
    + destruct (Hex H) as [s [H1 [H2 H3]]].
      exists s. split; [exact H1|]. split; [exact H2 | right; exact H3].
Qed.

Lemma filter_snd_entries (sid : JsValue) (l : list ConversationItem) :
  filter snd (map (fun s => (s, active sid s)) l)
  = map (fun s => (s, true)) (filter (active sid) l).
Proof.
  induction l as [|x r IH]; [reflexivity|].
  cbn [map filter snd]. destruct (active sid x) eqn:E; rewrite IH; [|reflexivity].
  reflexivity.
Qed.

Lemma active_no_string (v : JsValue) (l : list ConversationItem) :
  (forall sid, v <> VString sid) -> filter (active v) l = [].
Proof.
  intro H. induction l as [|x r IH]; [reflexivity|].
  cbn [filter]. rewrite IH. unfold active.
  destruct v; try reflexivity. exfalso. apply (H s). reflexivity.
Qed.

End Highlight.

(** The side bar shows the session index, and highlights at most one of
    its entries: the one of the current session, when the list of
    conversations holds it, and none when there is no current session or
    the list does not hold it yet (as after the first answer of a new
    conversation, until the list has been loaded again). *)
Theorem sidebar_highlights_the_current_session :
  forall st : ChatState,
    map fst (entries_shown st) = uniqueSessions (allConvs st)
    /\ List.length (filter snd (entries_shown st)) <= 1
    /\ (forall sid, sessionId st = VString sid ->
          In sid (map session_id (allConvs st)) ->
          exists s, filter snd (entries_shown st) = [(s, true)]
                    /\ session_id s = sid
                    /\ In s (uniqueSessions (allConvs st)))
    /\ (forall sid, sessionId st = VString sid ->
          ~ In sid (map session_id (allConvs st)) ->
          filter snd (entries_shown st) = [])
    /\ ((forall sid, sessionId st <> VString sid) ->
        filter snd (entries_shown st) = []).
Proof.
  intro st. unfold entries_shown.
  destruct (uniqueSessions_ids (allConvs st))
    as [Hids Hnd].
  rewrite filter_snd_entries.
  split; [rewrite map_map; cbn [fst]; apply map_id|].
  split; [|split; [|split]].
  - rewrite length_map.
    destruct (sessionId st) as [| |b|n|sid|items|props];
      try (rewrite active_no_string by discriminate; apply le_0_n).
    apply (@filter_unique _ sid Hnd).
  - intros sid E Hin. rewrite E. unfold active. cbn [is_str].
    destruct (@filter_unique _ sid Hnd) as [_ H].
    destruct (H (proj2 (Hids sid) Hin)) as [s [H1 [H2 H3]]].
    exists s. rewrite H1. split; [reflexivity|]. split; assumption.
  - intros sid E Hn. rewrite E. unfold active. cbn [is_str].
    destruct (filter _ _) as [|y t] eqn:Ef; [reflexivity|]. exfalso.
    assert (In y (filter (fun s => str_eqb sid (session_id s))
                         (uniqueSessions (allConvs st)))) as Hy
      by (rewrite Ef; left; reflexivity).
    apply filter_In in Hy. destruct Hy as [Hy Ey].
    apply str_eqb_eq in Ey. apply Hn. apply Hids. rewrite Ey.
    apply in_map. exact Hy.
  - intro Hno. rewrite active_no_string by exact Hno. reflexivity.
Qed.

(* ================================================================== *)
(** * The answer as it is rendered *)
(* ================================================================== *)

Import ArrivalNotions.

Section Arrival.
Context {NO : NumberOps}.

Lemma skipn_app_le (A : Type) (n : nat) (a b : list A) :
  n <= List.length a -> skipn n (a ++ b) = skipn n a ++ b.
Proof.
  intro H. rewrite skipn_app.
  replace (n - List.length a) with 0 by lia. reflexivity.
Qed.

Lemma substring_prefix pre rest from :
  from <= List.length pre ->
  substring (pre ++ rest) from (List.length pre) = skipn from pre.
Proof.
  intro H. unfold substring. rewrite skipn_app_le by exact H.
  rewrite firstn_app.
  replace (List.length pre - from - List.length (skipn from pre)) with 0
    by (rewrite length_skipn; lia).
  cbn [firstn]. rewrite app_nil_r. apply firstn_all2.
  rewrite length_skipn. lia.
Qed.

Lemma recorded_ascending cs : forall text,
  ascending (recorded text cs)
  /\ Forall (fun c => List.length text <= insertPosition c) (recorded text cs).
Proof.
  induction cs as [|c r IH]; intro text; [split; constructor|].
  destruct c as [id|v|o n|e|]; cbn [recorded]; try apply IH.
  - destruct (IH (text ++ to_string v)) as [H1 H2]. split; [exact H1|].
    eapply Forall_impl; [|exact H2]. cbn. intros a Ha.
    rewrite length_app in Ha. lia.
  - destruct (IH text) as [H1 H2]. split.
    + constructor; [exact H1|]. exact H2.
    + constructor; [apply le_n | exact H2].
Qed.

(** The loop of the rendering over the tool calls a stream recorded, and
    the tail after it, give the invocations in arrival order. *)
Lemma woven_arrival cs : forall pre from,
  from <= List.length pre ->
  woven (pre ++ ai_text cs) from (recorded pre cs)
  ++ tail_segment (pre ++ ai_text cs)
       (last (map insertPosition (recorded pre cs)) from)
  = arrival cs (skipn from pre).
Proof.
  induction cs as [|c r IH]; intros pre from Hfrom.
  - cbn [ai_text flat_map recorded woven map last app arrival].
    rewrite app_nil_r. unfold tail_segment, substring_from.
    destruct (Nat.ltb_spec from (List.length pre)) as [Hlt|Hge]; [reflexivity|].
    rewrite skipn_all2 by exact Hge. reflexivity.
  - destruct c as [id|v|o n|e|];
      cbn [recorded arrival]; cbn [ai_text flat_map app]; fold (ai_text r);
      try (apply IH; exact Hfrom).
    + (* a delta *)
      rewrite app_assoc. rewrite IH by (rewrite length_app; lia).
      rewrite skipn_app_le by exact Hfrom. reflexivity.
    + (* a tool result *)
      cbn [woven map insertPosition toolOutput toolName]. rewrite last_cons.
      rewrite <- app_assoc. cbn [app].
      rewrite (@substring_prefix pre (ai_text r) from Hfrom).
      assert ((if from <? List.length pre
               then if blank (skipn from pre) then []
                    else [MarkdownMessage (skipn from pre)]
               else []) = shown_text (skipn from pre)) as ->.
      { unfold shown_text.
        destruct (Nat.ltb_spec from (List.length pre)) as [Hlt|Hge];
          [reflexivity|].
        rewrite skipn_all2 by exact Hge. reflexivity. }
      f_equal. f_equal.
      rewrite (IH pre (List.length pre) (le_n _)).
      rewrite skipn_all. reflexivity.
Qed.

End Arrival.

Section WithoutText.
Context {NO : NumberOps}.

(** Over a message without text the rendering shows the tool results and
    nothing between them. *)
Lemma woven_empty l : forall from,
  woven [] from l = map (fun c => ToolOutput (toolOutput c) (toolName c)) l.
Proof.
  induction l as [|c r IH]; intro from; [reflexivity|].
  cbn [woven map]. rewrite IH.
  destruct (from <? insertPosition c); [|reflexivity].
  unfold substring. rewrite skipn_nil, firstn_nil. reflexivity.
Qed.

Lemma render_ai_tools now text cs :
  tools (render_ai (answer now text cs))
  = map (fun c => (toolOutput c, toolName c)) (recorded [] cs).
Proof.
  unfold render_ai, answer. cbn [content toolCalls].
  destruct (recorded [] cs) as [|c rest] eqn:E; [reflexivity|].
  rewrite interleave_cons.
  destruct (recorded_ascending cs []) as [Hasc _].
  rewrite E in Hasc. rewrite (@ascending_sort _ Hasc).
  rewrite tools_app, woven_tools. cbv zeta.
  destruct (_ <? _); [destruct (blank _)|]; cbn [tools flat_map];
    rewrite app_nil_r; reflexivity.
Qed.

End WithoutText.

(** What the user sees of a send that was accepted, once React has
    rendered: the last message of the transcript is the assistant message
    of that send, and its tool results are rendered in the order they
    arrived, whenever React renders.  When React renders after the last
    delta and before [onComplete], the message holds the text of the deltas
    and is rendered as the invocations of the stream in the order they
    arrived, each tool result as it came and the text of the deltas between
    two tool results as one piece (a piece of white space only is left
    out); without any tool result the whole text is one piece, blank or
    not.  A message left without text is rendered as its tool results
    alone. *)
Theorem answer_is_rendered_in_arrival_order :
  forall (NO : NumberOps) (now : Z) (net : FetchResult) (ticks : list Tick)
         (st : ChatState),
    rejects st = false ->
    schedule_of net ticks ->
    exists text,
      last_message (after_send now net ticks st)
      = Some (answer now text (calls net))
      /\ tools (render_ai (answer now text (calls net)))
         = map (fun c => (toolOutput c, toolName c)) (recorded [] (calls net))
      /\ (rendered_in_time false ticks = true ->
          text = ai_text (calls net)
          /\ render_ai (answer now text (calls net))
             = match recorded [] (calls net) with
               | [] => [MarkdownMessage (ai_text (calls net))]
               | _ :: _ => arrival (calls net) []
               end)
      /\ render_ai (answer now [] (calls net))
         = match recorded [] (calls net) with
           | [] => [MarkdownMessage []]
           | l => map (fun c => ToolOutput (toolOutput c) (toolName c)) l
           end.
Proof.
  intros NO now net ticks st Hacc Hs. eexists. split; [|split; [|split]].
  - apply (@after_send_last _ now net ticks st Hacc Hs).
  - apply render_ai_tools.
  - intros ->. split; [reflexivity|].
    unfold render_ai, answer. cbn [content toolCalls].
    destruct (recorded [] (calls net)) as [|c rest] eqn:E; [reflexivity|].
    rewrite interleave_cons.
    destruct (recorded_ascending (calls net) []) as [Hasc _].
    rewrite E in Hasc. rewrite (@ascending_sort _ Hasc), <- E.
    apply (@woven_arrival _ (calls net) [] 0 (le_n 0)).
  - unfold render_ai, answer. cbn [content toolCalls].
    destruct (recorded [] (calls net)) as [|c rest] eqn:E; [reflexivity|].
    rewrite interleave_cons.
    destruct (recorded_ascending (calls net) []) as [Hasc _].
    rewrite E in Hasc. rewrite (@ascending_sort _ Hasc).
    rewrite woven_empty. cbv zeta. cbn [List.length].
    rewrite Nat.ltb_irrefl || (destruct (_ <? 0) eqn:Hlt;
      [apply Nat.ltb_lt in Hlt; lia|]).
    apply app_nil_r.
Qed.

Lemma answer_is_rendered_in_arrival_order_witness :
  exists text,
    last_message
      (@after_send as_written 0 (stream_of tool_anchor_chunks)
         (render_before_the_end tool_anchor_calls) (typed "hi"))
    = Some (@answer as_written 0 text
              (@calls as_written (stream_of tool_anchor_chunks)))
    /\ @render_ai
         (@answer as_written 0 text
            (@calls as_written (stream_of tool_anchor_chunks)))
       = [ MarkdownMessage (lit "Hello");
           ToolOutput (VString (jlit "{'x':1}")) (VString (lit "t1"));
           MarkdownMessage (lit " world") ].
Proof.
  destruct (@answer_is_rendered_in_arrival_order as_written 0
              (stream_of tool_anchor_chunks)
              (render_before_the_end tool_anchor_calls) (typed "hi")
              eq_refl eq_refl)
    as [text [H1 [_ [H2 _]]]].
  exists text. split; [exact H1|].
  destruct (H2 eq_refl) as [_ H3]. rewrite H3. reflexivity.
Defined.

(* ================================================================== *)
(** * Tool results on display *)
(* ================================================================== *)

Import ToolOutputView ViewNotions.

Section TryParse.
Context {NO : NumberOps}.

Lemma parse_value_apostrophe fuel r : parse_value fuel (39%N :: r) = None.
Proof. destruct fuel; reflexivity. Qed.

Lemma JSON_parse_apostrophe r : JSON_parse (39%N :: r) = None.
Proof. unfold JSON_parse. rewrite parse_value_apostrophe. reflexivity. Qed.

Lemma trim_start_keeps c r : is_space c = false -> trim_start (c :: r) = c :: r.
Proof. intro H. cbn [trim_start]. rewrite H. reflexivity. Qed.

(** A text that neither starts nor ends with white space is its own trim. *)
Lemma trim_wrapped c d t :
  is_space c = false -> is_space d = false ->
  trim (c :: t ++ [d]) = c :: t ++ [d].
Proof.
  intros Hc Hd. unfold trim. rewrite (@trim_start_keeps c _ Hc).
  change (c :: t ++ [d]) with ((c :: t) ++ [d]) at 1.
  rewrite rev_app_distr. cbn [rev app].
  rewrite (@trim_start_keeps d _ Hd).
  change (d :: rev t ++ [c]) with ([d] ++ rev (c :: t)).
  rewrite rev_app_distr, rev_involutive. reflexivity.
Qed.

Lemma endsWith_snoc s c d : endsWith (s ++ [d]) c = (d =? c)%N.
Proof. unfold endsWith. rewrite rev_app_distr. reflexivity. Qed.

Lemma slice_unwrap (A : Type) (c d : A) t : slice (c :: t ++ [d]) 1 (-1) = t.
Proof.
  unfold slice, slice_index. cbn [Z.ltb Z.compare].
  cbn [List.length]. rewrite length_app. cbn [List.length].
  replace (Nat.min (Z.to_nat 1) (S (List.length t + 1))) with 1
    by (change (Z.to_nat 1) with 1; lia).
  replace (Z.to_nat (Z.max (Z.of_nat (S (List.length t + 1)) + -1) 0))
    with (S (List.length t)) by lia.
  cbn [skipn]. replace (S (List.length t) - 1) with (List.length t + 0) by lia.
  rewrite firstn_app_2. cbn. apply app_nil_r.
Qed.

Lemma tryParse_parsed s v : JSON_parse s = Some v -> tryParse (VString s) = v.
Proof.
  intro H. unfold tryParse. destruct s as [|c r]; [discriminate H|].
  cbn [truthy nonempty negb to_string]. rewrite H. reflexivity.
Qed.

Lemma tryParse_wrapped c t :
  (c = 34 \/ c = 39)%N ->
  JSON_parse (c :: t ++ [c]) = None ->
  tryParse (VString (c :: t ++ [c]))
  = match JSON_parse t with Some v => v | None => VNull end.
Proof.
  intros Hc H. unfold tryParse. cbn [truthy nonempty negb to_string].
  rewrite H.
  assert (is_space c = false) as Hs by (destruct Hc; subst; reflexivity).
  rewrite (@trim_wrapped c c t Hs Hs).
  change (c :: t ++ [c]) with ((c :: t) ++ [c]) at 2 4.
  rewrite !endsWith_snoc. cbn [startsWith]. rewrite slice_unwrap.
  destruct Hc; subst; reflexivity.
Qed.

End TryParse.

(** [tryParse] returns what the first [JSON.parse] returns whenever the
    content parses, so a result that was encoded twice (a JSON string that
    holds the JSON text) comes back as that string, not as the value it
    spells; only a content that does not parse and that is wrapped in a pair
    of quotation marks or of apostrophes is parsed again without them.
    Everything else, the empty content included, gives [null]; so does an
    object handed over as it is. *)
Theorem tryParse_takes_the_first_parse :
  forall (NO : NumberOps),
    (forall content, truthy content = false -> tryParse content = VNull)
    /\ (forall s v, JSON_parse s = Some v -> tryParse (VString s) = v)
    /\ (forall s str, JSON_parse s = Some (VString str) ->
          tryParse (VString s) = VString str)
    /\ (forall t, tryParse (VString (39%N :: t ++ [39%N]))
                  = match JSON_parse t with Some v => v | None => VNull end)
    /\ (forall t, JSON_parse (34%N :: t ++ [34%N]) = None ->
          tryParse (VString (34%N :: t ++ [34%N]))
          = match JSON_parse t with Some v => v | None => VNull end)
    /\ (forall s, JSON_parse s = None ->
          startsWith (trim s) 34 && endsWith (trim s) 34 = false ->
          startsWith (trim s) 39 && endsWith (trim s) 39 = false ->
          tryParse (VString s) = VNull)
    /\ (forall props, tryParse (VObject props) = VNull).
Proof.
  intro NO. repeat split.
  - intros content H. unfold tryParse. rewrite H. reflexivity.
  - intros s v. apply tryParse_parsed.
  - intros s str. apply tryParse_parsed.
  - intro t. apply tryParse_wrapped; [right; reflexivity|].
    apply JSON_parse_apostrophe.
  - intros t H. apply tryParse_wrapped; [left; reflexivity | exact H].
  - intros s H H1 H2. unfold tryParse.
    destruct (negb (truthy (VString s))); [reflexivity|].
    cbn [to_string]. rewrite H, H1, H2. reflexivity.
Qed.

Section Escapes.

Lemma replace_escapes_escape h1 h2 h3 h4 code r :
  hex4 h1 h2 h3 h4 = Some code ->
  replace_escapes (92 :: 117 :: h1 :: h2 :: h3 :: h4 :: r)%N
  = code :: replace_escapes r.
Proof. intro H. cbn [replace_escapes N.eqb Pos.eqb andb]. rewrite H. reflexivity. Qed.

Lemma replace_escapes_cases c r :
  replace_escapes (c :: r) = c :: replace_escapes r
  \/ exists h1 h2 h3 h4 r' code,
       c = 92%N /\ r = (117 :: h1 :: h2 :: h3 :: h4 :: r')%N
       /\ hex4 h1 h2 h3 h4 = Some code
       /\ replace_escapes (c :: r) = code :: replace_escapes r'.
Proof.
  destruct r as [|u [|h1 [|h2 [|h3 [|h4 r']]]]]; try (left; reflexivity).
  cbn [replace_escapes].
  destruct (N.eqb_spec c 92) as [->|Hc]; [|left; reflexivity].
  destruct (N.eqb_spec u 117) as [->|Hu]; [|left; reflexivity].
  cbn [andb]. destruct (hex4 h1 h2 h3 h4) as [code|] eqn:Hh; [|left; reflexivity].
  right. exists h1, h2, h3, h4, r', code. repeat split. exact Hh.
Qed.

Lemma replace_escapes_plain c r :
  c <> 92%N -> replace_escapes (c :: r) = c :: replace_escapes r.
Proof.
  intro Hc. destruct (replace_escapes_cases c r) as [E|[? [? [? [? [? [? [E _]]]]]]]];
    [exact E | contradiction].
Qed.

Lemma replace_escapes_no_backslash s :
  ~ In 92%N s -> replace_escapes s = s.
Proof.
  induction s as [|c r IH]; intro H; [reflexivity|].
  rewrite replace_escapes_plain by (intro E; apply H; left; exact E).
  rewrite IH; [reflexivity|]. intro Hin. apply H. right. exact Hin.
Qed.

Lemma replace_escapes_app_plain t s :
  ~ In 92%N t -> replace_escapes (t ++ s) = t ++ replace_escapes s.
Proof.
  induction t as [|c r IH]; intro H; [reflexivity|].
  cbn [app].
  rewrite replace_escapes_plain by (intro E; apply H; left; exact E).
  rewrite IH; [reflexivity|]. intro Hin. apply H. right. exact Hin.
Qed.

Lemma replace_escapes_length_upto n : forall s,
  List.length s <= n ->
  List.length (replace_escapes s) <= List.length s
  /\ (s <> [] -> replace_escapes s <> []).
Proof.
  induction n as [|n IH]; intros s Hn.
  - destruct s; [split; [reflexivity | congruence] | cbn in Hn; lia].
  - destruct s as [|c r]; [split; [reflexivity | congruence]|].
    cbn [List.length] in Hn.
    destruct (replace_escapes_cases c r)
      as [E|[h1 [h2 [h3 [h4 [r' [code [_ [Er [_ E]]]]]]]]]]; rewrite E.
    + split; [|discriminate]. cbn [List.length].
      destruct (IH r) as [H _]; lia.
    + split; [|discriminate]. subst r. cbn [List.length] in *.
      destruct (IH r') as [H _]; lia.
Qed.

Lemma replace_escapes_length s :
  List.length (replace_escapes s) <= List.length s.
Proof. apply (replace_escapes_length_upto (n := List.length s)). lia. Qed.

Lemma replace_escapes_nonempty s :
  nonempty (replace_escapes s) = nonempty s.
Proof.
  destruct s as [|c r]; [reflexivity|].
  destruct (replace_escapes_length_upto (n := List.length (c :: r)) (c :: r))
    as [_ H]; [lia|].
  destruct (replace_escapes (c :: r)); [exfalso; apply H; [discriminate | reflexivity]|].
  reflexivity.
Qed.

(** The reading of a JSON string that escapes nothing but code units. *)
Lemma parse_chars_only_u n : forall s acc rest,
  List.length s <= n -> only_u_escapes s = true ->
  parse_chars (s ++ 34%N :: rest) acc
  = Some (rev acc ++ replace_escapes s, rest).
Proof.
  induction n as [|n IH]; intros s acc rest Hn Hs.
  - destruct s; [|cbn in Hn; lia]. cbn. rewrite app_nil_r. reflexivity.
  - destruct s as [|c r]; [cbn; rewrite app_nil_r; reflexivity|].
    cbn [List.length] in Hn. cbn [only_u_escapes] in Hs.
    destruct (N.eqb_spec c 92) as [->|Hc].
    + destruct r as [|u [|h1 [|h2 [|h3 [|h4 r']]]]]; try discriminate Hs.
      apply andb_prop in Hs. destruct Hs as [Hs Hr].
      apply andb_prop in Hs. destruct Hs as [Hu Hh].
      apply N.eqb_eq in Hu. subst u.
      destruct (hex4 h1 h2 h3 h4) as [code|] eqn:Hx; [|discriminate Hh].
      rewrite (replace_escapes_escape _ _ _ _ r' Hx).
      cbn [app parse_chars N.eqb Pos.eqb]. rewrite Hx.
      rewrite IH; [|cbn [List.length] in Hn; lia | exact Hr].
      cbn [rev]. rewrite <- app_assoc. reflexivity.
    + apply andb_prop in Hs. destruct Hs as [Hs Hr].
      apply andb_prop in Hs. destruct Hs as [Hq Hctl].
      rewrite (replace_escapes_plain r Hc).
      cbn [app parse_chars].
      apply negb_true_iff in Hq, Hctl. rewrite Hq, Hctl.
      destruct (N.eqb_spec c 92) as [E|_]; [contradiction|].
      rewrite IH; [|lia | exact Hr].
      cbn [rev]. rewrite <- app_assoc. reflexivity.
Qed.

Lemma JSON_parse_only_u s :
  only_u_escapes s = true ->
  JSON_parse (34%N :: s ++ [34%N]) = Some (VString (replace_escapes s)).
Proof.
  intro Hs. unfold JSON_parse.
  replace (2 * List.length (34%N :: s ++ [34%N]) + 2)
    with (S (2 * List.length (34%N :: s ++ [34%N]) + 1)) by lia.
  cbn [parse_value skip_ws is_ws N.eqb Pos.eqb orb].
  rewrite (parse_chars_only_u (n := List.length s) s [] [] (le_n _) Hs).
  reflexivity.
Qed.

End Escapes.

(** [decodeUnicodeEscapes] leaves alone what is no string and every string
    without a reverse solidus; in a string it replaces each escape of four
    hexadecimal digits by the one code unit it names and nothing else, so
    the result is never longer and is empty only for the empty string.  On
    a text whose only escapes are such escapes it gives what [JSON.parse]
    gives for the text between quotation marks; it is not a JSON decoder
    beyond that: a doubled reverse solidus in front of [u0041] is read as a
    reverse solidus and an escape. *)
Theorem decodeUnicodeEscapes_decodes_code_unit_escapes :
  (forall v, (forall s, v <> VString s) -> decodeUnicodeEscapes v = v)
  /\ (forall s, ~ In 92%N s -> decodeUnicodeEscapes (VString s) = VString s)
  /\ (forall t h1 h2 h3 h4 code rest,
        ~ In 92%N t -> hex4 h1 h2 h3 h4 = Some code ->
        replace_escapes (t ++ 92 :: 117 :: h1 :: h2 :: h3 :: h4 :: rest)%N
        = t ++ code :: replace_escapes rest)
  /\ (forall s, List.length (replace_escapes s) <= List.length s
                /\ nonempty (replace_escapes s) = nonempty s)
  /\ (forall s, only_u_escapes s = true ->
        JSON_parse (34%N :: s ++ [34%N])
        = Some (decodeUnicodeEscapes (VString s)))
  /\ decodeUnicodeEscapes (VString (lit "\\u0041")) = VString (lit "\A")
  /\ JSON_parse (34%N :: lit "\\u0041" ++ [34%N])
     = Some (VString (lit "\u0041")).
Proof.
  repeat split.
  - intros v Hv. destruct v; try reflexivity. exfalso. apply (Hv s). reflexivity.
  - intros s Hs. cbn [decodeUnicodeEscapes].
    rewrite replace_escapes_no_backslash by exact Hs. reflexivity.
  - intros t h1 h2 h3 h4 code rest Ht Hx.
    rewrite replace_escapes_app_plain by exact Ht.
    rewrite (replace_escapes_escape _ _ _ _ rest Hx). reflexivity.
  - apply replace_escapes_length.
  - apply replace_escapes_nonempty.
  - intros s Hs. apply JSON_parse_only_u. exact Hs.
Qed.

Section Cards.
Context {NO : NumberOps}.

Lemma slice_first (A : Type) (l : list A) : slice l 0 8 = firstn 8 l.
Proof.
  unfold slice, slice_index. cbn [Z.ltb Z.compare].
  change (Z.to_nat 0) with 0. change (Z.to_nat 8) with 8.
  rewrite Nat.min_0_l, Nat.sub_0_r. cbn [skipn].
  destruct (Nat.le_gt_cases (List.length l) 8) as [H|H].
  - rewrite Nat.min_r by exact H. rewrite firstn_all.
    symmetry. apply firstn_all2. exact H.
  - rewrite Nat.min_l by lia. reflexivity.
Qed.

Lemma render_from_shape l : forall i cards,
  render_from i l = Some cards ->
  List.length cards = List.length l
  /\ map number cards = seq (i + 1) (List.length l).
Proof.
  induction l as [|raw r IH]; intros i cards H; cbn [render_from] in H.
  - injection H as <-. split; reflexivity.
  - destruct (renderItem i raw) as [card|] eqn:Hc; [|discriminate].
    destruct (render_from (S i) r) as [cs|] eqn:Hr; [|discriminate].
    injection H as <-. destruct (IH _ _ Hr) as [H1 H2].
    cbn [List.length map seq]. rewrite H1, H2. split; [reflexivity|].
    f_equal.
    unfold renderItem in Hc. destruct (domain_of _ _); [|discriminate].
    injection Hc as <-. reflexivity.
Qed.

Lemma truthy_decode v : truthy (decodeUnicodeEscapes v) = truthy v.
Proof. destruct v; try reflexivity. cbn. apply replace_escapes_nonempty. Qed.

Lemma truthy_or_else a b : truthy b = true -> truthy (or_else a b) = true.
Proof. intro H. unfold or_else. destruct (truthy a) eqn:E; assumption. Qed.

Lemma title_truthy i item : truthy (title_of i item) = true.
Proof.
  unfold title_of. rewrite truthy_decode.
  repeat apply truthy_or_else. reflexivity.
Qed.

(** The heading of a card is its title: the fallback for a missing title
    is never shown. *)
Lemma renderItem_heading i raw card :
  renderItem i raw = Some card ->
  heading card = title_of i (item_of raw) /\ truthy (heading card) = true.
Proof.
  unfold renderItem. destruct (domain_of _ _); [|discriminate].
  intro H. injection H as <-. cbn [heading]. unfold or_else.
  rewrite title_truthy. split; [reflexivity | apply title_truthy].
Qed.

Lemma linkable_or_else a b :
  linkable a -> (exists s, b = VString s) -> exists s, or_else a b = VString s.
Proof.
  intros [Ha|[s ->]] Hb; unfold or_else.
  - rewrite Ha. exact Hb.
  - destruct (truthy (VString s)); [exists s; reflexivity | exact Hb].
Qed.

Lemma safe_item_renders i raw :
  safe_item raw -> exists card, renderItem i raw = Some card.
Proof.
  intros [Hl [Hh Hu]]. unfold renderItem, domain_of.
  destruct (truthy (field (item_of raw) "domain")); [eexists; reflexivity|].
  assert (exists s, href_of (item_of raw) = VString s) as [s Hs].
  { unfold href_of. apply linkable_or_else; [exact Hl|].
    apply linkable_or_else; [exact Hh|].
    apply linkable_or_else; [exact Hu|]. exists []. reflexivity. }
  rewrite Hs. unfold or_else at 1.
  destruct (truthy (VString s)); eexists; reflexivity.
Qed.

Lemma safe_items_render l : forall i,
  Forall safe_item l -> exists cards, render_from i l = Some cards.
Proof.
  induction l as [|raw r IH]; intros i H; [exists []; reflexivity|].
  inversion H as [|? ? Hraw Hr]; subst. cbn [render_from].
  destruct (safe_item_renders i Hraw) as [card ->].
  destruct (IH (S i) Hr) as [cards ->]. eexists. reflexivity.
Qed.

Lemma text_item_card i s :
  s <> [] -> renderItem i (VString s) = Some (text_card i s).
Proof.
  intro Hs. destruct s as [|c r]; [congruence|].
  unfold renderItem, text_card.
  change (item_of (VString (c :: r)))
    with (VObject [(lit "title", VString (c :: r));
                   (lit "snippet", VString (c :: r))]).
  assert (title_of i (VObject [(lit "title", VString (c :: r));
                               (lit "snippet", VString (c :: r))])
          = VString (replace_escapes (c :: r))) as ->.
  { reflexivity. }
  assert (snippet_of (VObject [(lit "title", VString (c :: r));
                               (lit "snippet", VString (c :: r))])
          = VString (replace_escapes (c :: r))) as -> by reflexivity.
  assert (href_of (VObject [(lit "title", VString (c :: r));
                            (lit "snippet", VString (c :: r))])
          = VString []) as -> by reflexivity.
  assert (domain_of (VObject [(lit "title", VString (c :: r));
                              (lit "snippet", VString (c :: r))]) (VString [])
          = Some (VString [])) as -> by reflexivity.
  cbn [truthy]. unfold or_else. cbn [truthy].
  rewrite replace_escapes_nonempty. reflexivity.
Qed.

Lemma text_items_cards l : forall i,
  Forall (fun s => s <> []) l ->
  render_from i (map VString l) = Some (text_cards i l).
Proof.
  induction l as [|s r IH]; intros i H; [reflexivity|].
  inversion H as [|? ? Hs Hr]; subst. cbn [map render_from text_cards].
  rewrite (text_item_card i Hs), (IH (S i) Hr). reflexivity.
Qed.

Lemma render_from_headings l : forall i cards,
  render_from i l = Some cards ->
  Forall (fun c => truthy (heading c) = true) cards.
Proof.
  induction l as [|raw r IH]; intros i cards H; cbn [render_from] in H.
  - injection H as <-. constructor.
  - destruct (renderItem i raw) as [card|] eqn:Hc; [|discriminate].
    destruct (render_from (S i) r) as [cs|] eqn:Hr; [|discriminate].
    injection H as <-. constructor; [|apply (IH _ _ Hr)].
    apply (renderItem_heading _ _ Hc).
Qed.

Lemma unlinkable_item_throws i v :
  truthy v = true -> (forall s, v <> VString s) ->
  renderItem i (VObject [(lit "link", v)]) = None.
Proof.
  intros Hv Hs. unfold renderItem, domain_of.
  change (item_of (VObject [(lit "link", v)])) with
    (VObject [(lit "link", v)]).
  change (field (VObject [(lit "link", v)]) "domain") with VUndefined.
  cbn [truthy].
  assert (href_of (VObject [(lit "link", v)]) = v) as ->.
  { unfold href_of.
    change (field (VObject [(lit "link", v)]) "link") with v.
    unfold or_else at 1. rewrite Hv. reflexivity. }
  unfold or_else. rewrite Hv.
  destruct v; try reflexivity. exfalso. apply (Hs s). reflexivity.
Qed.

End Cards.

(** [renderItems] looks at the first eight items and at nothing after
    them.  When it returns, it shows one card for each of them, numbered
    from 1 in their order, and every card has a heading (the fallback for an
    empty title is never needed).  It returns whenever the [link], [href]
    and [url] of each of those items are strings or falsy; an item whose
    link is truthy and no string, with no [domain] beside it, makes it
    throw. *)
Theorem renderItems_shows_the_first_eight :
  forall (NO : NumberOps) (items : list JsValue),
    renderItems items = renderItems (firstn 8 items)
    /\ (forall cards, renderItems items = Some cards ->
          List.length cards = Nat.min 8 (List.length items)
          /\ map number cards = seq 1 (List.length cards)
          /\ Forall (fun c => truthy (heading c) = true) cards)
    /\ (Forall safe_item (firstn 8 items) ->
        exists cards, renderItems items = Some cards)
    /\ (forall v, truthy v = true -> (forall s, v <> VString s) ->
          renderItems (VObject [(lit "link", v)] :: items) = None).
Proof.
  intros NO items. unfold renderItems. rewrite !slice_first. repeat split.
  - rewrite firstn_firstn. reflexivity.
  - destruct (render_from_shape _ _ H) as [H1 _].
    rewrite H1, length_firstn. reflexivity.
  - destruct (render_from_shape _ _ H) as [H1 H2].
    rewrite H2, H1. reflexivity.
  - apply (render_from_headings _ _ H).
  - apply safe_items_render.
  - intros v Hv Hs. rewrite slice_first. cbn [firstn render_from].
    rewrite (unlinkable_item_throws 0 Hv Hs). reflexivity.
Qed.

Section Panel.
Context {NO : NumberOps} {JO : JsonOps}.

Lemma rows_of_string s : forall i,
  map (fun e : jsstring * JsValue =>
         (fst e, if typeof_object (snd e) then JSON_stringify (snd e)
                 else to_string (snd e)))
      (indexed i (map (fun c => VString [c]) s))
  = indexed i (map (fun c => [c]) s).
Proof.
  induction s as [|c r IH]; intro i; [reflexivity|].
  cbn [map indexed fst snd typeof_object to_string]. rewrite IH. reflexivity.
Qed.

Lemma firstn_Forall (A : Type) (P : A -> Prop) (l : list A) : forall n,
  Forall P l -> Forall P (firstn n l).
Proof.
  induction l as [|x r IH]; intros n H; [destruct n; constructor|].
  destruct n; [constructor|]. inversion H; subst.
  cbn [firstn]. constructor; [assumption | apply IH; assumption].
Qed.

Lemma field_own props k v :
  own_prop props (lit k) = Some v -> field (VObject props) k = v.
Proof. intro H. unfold field, get. rewrite H. reflexivity. Qed.

Lemma field_absent props k :
  own_prop props (lit k) = None -> field (VObject props) k = VUndefined.
Proof. intro H. unfold field, get. rewrite H. reflexivity. Qed.

End Panel.

Section PanelChildren.
Context {NO : NumberOps} {JO : JsonOps}.

Lemma text_cards_valid l : forall i,
  forallb valid_card (text_cards i l) = true.
Proof. induction l as [|s r IH]; intro i; [reflexivity|]. cbn. apply IH. Qed.

End PanelChildren.

(** A tool result that parses to an object whose [items] are texts is shown,
    once the panel is open, as one card for each of the first eight texts,
    titled and filled with the text, its escapes decoded, and without a
    link, provided React can show the name in the header; where it cannot,
    the component throws.  The header follows the [source] the result
    names: the books and the knowledge label for [knowledge], the globe and
    the web label for [web], whatever the tool is called; without a
    [source] it is the magnifying glass and the name [MAP] has for the
    tool, and a tool called [__proto__] makes the component throw, open or
    not. *)
Theorem result_with_text_items_is_shown_as_cards :
  forall (NO : NumberOps) (JO : JsonOps) (s : jsstring)
         (props : list (jsstring * JsValue)) (texts : list jsstring)
         (toolName : JsValue),
    JSON_parse s = Some (VObject props) ->
    own_prop props (lit "items") = Some (VArray (map VString texts)) ->
    Forall (fun t => t <> []) texts ->
    ToolOutput_component true (VString s) toolName
    = (if valid_name (displayName (header (or_default toolName) (VObject props)))
       then Some {| head := header (or_default toolName) (VObject props);
                    panel := Some (Items (text_cards 0 (firstn 8 texts))) |}
       else None)
    /\ (own_prop props (lit "source") = Some (VString (lit "knowledge")) ->
        ToolOutput_component true (VString s) toolName
        = Some {| head := {| sourceIcon := books;
                             displayName := Shown (VString knowledge_search) |};
                  panel := Some (Items (text_cards 0 (firstn 8 texts))) |})
    /\ (own_prop props (lit "source") = Some (VString (lit "web")) ->
        ToolOutput_component true (VString s) toolName
        = Some {| head := {| sourceIcon := globe;
                             displayName := Shown (VString web_search) |};
                  panel := Some (Items (text_cards 0 (firstn 8 texts))) |})
    /\ (own_prop props (lit "source") = None ->
        header (or_default toolName) (VObject props)
        = {| sourceIcon := magnifier;
             displayName := displayName_of (or_default toolName) |})
    /\ (own_prop props (lit "source") = None ->
        forall open,
          ToolOutput_component open (VString s) (VString (lit "__proto__"))
          = None).
Proof.
  intros NO JO s props texts toolName Hs Hitems Htexts.
  assert (ToolOutput_component true (VString s) toolName
          = (if valid_name (displayName (header (or_default toolName)
                                                (VObject props)))
             then Some {| head := header (or_default toolName) (VObject props);
                          panel := Some (Items (text_cards 0 (firstn 8 texts))) |}
             else None)) as Hc.
  { unfold ToolOutput_component. rewrite (tryParse_parsed _ Hs).
    destruct (valid_name _); [|reflexivity]. cbn [negb].
    unfold ToolOutputView.render. cbn [truthy negb typeof_object andb].
    rewrite (field_own _ _ Hitems). cbn [isArray].
    unfold renderItems. rewrite slice_first, firstn_map.
    rewrite text_items_cards by (apply firstn_Forall; exact Htexts).
    cbn [option_map valid_view]. rewrite text_cards_valid. reflexivity. }
  split; [exact Hc|]. split; [|split; [|split]].
  - intro H. rewrite Hc. unfold header. cbn [truthy typeof_object andb].
    rewrite (field_own _ _ H). reflexivity.
  - intro H. rewrite Hc. unfold header. cbn [truthy typeof_object andb].
    rewrite (field_own _ _ H). reflexivity.
  - intro H. unfold header. cbn [truthy typeof_object andb].
    rewrite (field_absent _ _ H). reflexivity.
  - intros H open. unfold ToolOutput_component.
    rewrite (tryParse_parsed _ Hs). unfold header.
    cbn [truthy typeof_object andb]. rewrite (field_absent _ _ H).
    reflexivity.
Qed.

Lemma result_with_text_items_is_shown_as_cards_witness :
  @ToolOutput_component as_written no_stringify true
    (VString (jlit "{'source':'web','items':['caf\\u00e9','b']}"))
    (VString (lit "smart_search"))
  = Some {| head := {| sourceIcon := globe;
                       displayName := Shown (VString web_search) |};
            panel :=
              Some (Items [ {| number := 1;
                               heading := VString (lit "caf" ++ [233%N]);
                               paragraph := Some (VString (lit "caf" ++ [233%N]));
                               link := None |};
                            text_card 1 (lit "b") ]) |}.
Proof.
  destruct (@result_with_text_items_is_shown_as_cards as_written no_stringify
              (jlit "{'source':'web','items':['caf\\u00e9','b']}")
              [(lit "source", VString (lit "web"));
               (lit "items", VArray (map VString [lit "caf\u00e9"; lit "b"]))]
              [lit "caf\u00e9"; lit "b"]
              (VString (lit "smart_search")))
    as [_ [_ [Hw _]]].
  - reflexivity.
  - reflexivity.
  - repeat constructor; discriminate.
  - rewrite Hw by reflexivity. reflexivity.
Defined.

(** A tool result encoded twice, a JSON string that holds the JSON text of
    the result, is not decoded a second time: the first parse succeeds and
    gives the text, so the open panel lists the text one code unit a row,
    under the name of the tool, whatever the text spells.  (An empty text
    is shown as the content came.)  This is so for every tool name React
    can show in the header; a tool called [__proto__] makes the component
    throw, open or not. *)
Theorem result_encoded_twice_is_listed_by_code_unit :
  forall (NO : NumberOps) (JO : JsonOps) (s str : jsstring)
         (toolName : JsValue),
    JSON_parse s = Some (VString str) ->
    valid_name (displayName_of (or_default toolName)) = true ->
    tryParse (VString s) = VString str
    /\ (str <> [] ->
        ToolOutput_component true (VString s) toolName
        = Some {| head := {| sourceIcon := magnifier;
                             displayName := displayName_of (or_default toolName) |};
                  panel := Some (KeyValues
                                   (indexed 0 (map (fun c => [c]) str))) |})
    /\ (str = [] ->
        ToolOutput_component true (VString s) toolName
        = Some {| head := {| sourceIcon := magnifier;
                             displayName := displayName_of (or_default toolName) |};
                  panel := Some (Raw (VString s)) |})
    /\ ToolOutput_component false (VString s) toolName
       = Some {| head := {| sourceIcon := magnifier;
                            displayName := displayName_of (or_default toolName) |};
                 panel := None |}
    /\ (forall open,
          ToolOutput_component open (VString s) (VString (lit "__proto__"))
          = None).
Proof.
  intros NO JO s str toolName Hs Hname.
  split; [apply tryParse_parsed; exact Hs|].
  assert (forall name,
             header name (VString str)
             = {| sourceIcon := magnifier; displayName := displayName_of name |})
    as Hh.
  { intro name. unfold header. destruct str; reflexivity. }
  split; [|split; [|split]].
  - intro Hne. unfold ToolOutput_component. rewrite (tryParse_parsed _ Hs).
    rewrite Hh. cbn [displayName]. rewrite Hname. cbn [negb].
    destruct str as [|c r]; [congruence|].
    unfold ToolOutputView.render.
    cbn [truthy nonempty negb typeof_object andb entries].
    rewrite rows_of_string. reflexivity.
  - intros ->. unfold ToolOutput_component. rewrite (tryParse_parsed _ Hs).
    rewrite Hh. cbn [displayName]. rewrite Hname. reflexivity.
  - unfold ToolOutput_component. rewrite (tryParse_parsed _ Hs).
    rewrite Hh. cbn [displayName]. rewrite Hname. reflexivity.
  - intro open. unfold ToolOutput_component. rewrite (tryParse_parsed _ Hs).
    rewrite Hh. reflexivity.
Qed.

Lemma result_encoded_twice_is_listed_by_code_unit_witness :
  @ToolOutput_component as_written no_stringify true
    (VString (jlit "'[1]'")) VUndefined
  = Some {| head := {| sourceIcon := magnifier;
                       displayName := Shown (VString (lit "tool")) |};
            panel := Some (KeyValues [ (lit "0", lit "[");
                                       (lit "1", lit "1");
                                       (lit "2", lit "]") ]) |}.
Proof.
  destruct (@result_encoded_twice_is_listed_by_code_unit as_written
              no_stringify (jlit "'[1]'") (lit "[1]") VUndefined eq_refl
              eq_refl)
    as [_ [H _]].
  rewrite H by discriminate. reflexivity.
Defined.

(** The name in the header: a tool that [MAP] lists gets its label, any
    other name is shown as it is, except the names every object inherits
    from [Object.prototype], for which the header gets the inherited
    function instead of a text. *)
Theorem display_name_falls_back_to_the_tool_name :
  forall (NO : NumberOps) (name : jsstring),
    (In name (map fst MAP) ->
     exists label, In (name, label) MAP
                   /\ displayName_of (VString name) = Shown (VString label))
    /\ (~ In name (map fst MAP) -> ~ In name Object_prototype ->
        displayName_of (VString name) = Shown (VString name))
    /\ (In name Object_prototype ->
        displayName_of (VString name) = Inherited name)
    /\ displayName_of (or_default VUndefined) = Shown (VString (lit "tool")).
Proof.
  intros NO name. unfold displayName_of. cbn [to_string]. repeat split.
  - intro H. cbn in H.
    destruct H as [<-|[<-|[<-|[]]]]; eexists; (split; [|reflexivity]); cbn; auto.
  - intros Hm Hp. unfold MAP_get.
    destruct (find _ MAP) as [e|] eqn:Hf.
    + exfalso. apply find_some in Hf. destruct Hf as [Hin He].
      apply str_eqb_eq in He. apply Hm. rewrite <- He. apply in_map. exact Hin.
    + destruct (existsb (str_eqb name) Object_prototype) eqn:He; [|reflexivity].
      exfalso. apply Hp. apply existsb_exists in He.
      destruct He as [x [Hx E]]. apply str_eqb_eq in E. subst. exact Hx.
  - intro H. cbn in H.
    repeat (destruct H as [<-|H]; [reflexivity|]). destruct H.
Qed.

Section Entries.

Lemma own_keys_In props : forall seen k,
  In k (own_keys props seen) <-> In k (map fst props) /\ ~ In k seen.
Proof.
  induction props as [|[k0 v0] r IH]; intros seen k; [cbn; tauto|].
  cbn [own_keys map fst In].
  destruct (existsb (str_eqb k0) seen) eqn:E.
  - rewrite IH. apply existsb_exists in E. destruct E as [y [Hy Ey]].
    apply str_eqb_eq in Ey. subst y. split.
    + intros [H1 H2]. split; [right; exact H1 | exact H2].
    + intros [[H1|H1] H2]; [subst; contradiction | split; assumption].
  - assert (~ In k0 seen) as Hx.
    { intro H. assert (existsb (str_eqb k0) seen = true) as E'.
      { apply existsb_exists. exists k0. split; [exact H | apply str_eqb_refl]. }
      congruence. }
    cbn [In]. rewrite IH. cbn [In]. split.
    + intros [H|[H1 H2]]; [subst; split; [left; reflexivity | exact Hx]|].
      split; [right; exact H1 | tauto].
    + intros [[H|H] H2]; [left; exact H|].
      destruct (list_eq_dec N.eq_dec k0 k) as [E'|E']; [left; exact E' | right].
      split; [exact H | intros [H3|H3]; contradiction].
Qed.

Lemma own_keys_NoDup props : forall seen, NoDup (own_keys props seen).
Proof.
  induction props as [|[k0 v0] r IH]; intro seen; [constructor|].
  cbn [own_keys]. destruct (existsb (str_eqb k0) seen); [apply IH|].
  constructor; [|apply IH].
  intro H. apply own_keys_In in H. destruct H as [_ H]. apply H. left. reflexivity.
Qed.

Lemma own_prop_some props k :
  In k (map fst props) -> exists v, own_prop props k = Some v.
Proof.
  induction props as [|[k0 v0] r IH]; [intros []|].
  cbn [map fst In own_prop]. intro H.
  destruct (own_prop r k) as [w|] eqn:E; [exists w; reflexivity|].
  destruct H as [->|H]; [|destruct (IH H) as [v Hv]; discriminate].
  rewrite str_eqb_refl. exists v0. reflexivity.
Qed.

Lemma own_prop_In props k v :
  own_prop props k = Some v -> In (k, v) props.
Proof.
  induction props as [|[k0 v0] r IH]; [discriminate|].
  cbn [own_prop]. destruct (own_prop r k) as [w|] eqn:E.
  - intro H. injection H as ->. right. apply IH. reflexivity.
  - destruct (str_eqb k0 k) eqn:Ek; [|discriminate].
    intro H. injection H as ->. apply str_eqb_eq in Ek. subst. left. reflexivity.
Qed.

Lemma StronglySorted_impl (A : Type) (R R' : A -> A -> Prop) (l : list A) :
  StronglySorted R l -> (forall a b, R a b -> R' a b) -> StronglySorted R' l.
Proof.
  intros H HR. induction H as [|x r Hr IH Hx]; constructor; [exact IH|].
  eapply Forall_impl; [|exact Hx]. intros; apply HR; assumption.
Qed.

Lemma index_cmp_key (a b : jsstring) :
  (Z.of_N (index_value a) - Z.of_N (index_value b) <= 0
   <-> Z.of_N (index_value a) <= Z.of_N (index_value b))%Z.
Proof. lia. Qed.

End Entries.

(** The rows the panel falls back to for an object list every key of the
    object exactly once, with the value [JSON.parse] kept for it (the one
    written last): first the keys that are array indices, in ascending
    order, then the other keys in the order they were first written. *)
Theorem fallback_rows_list_each_key_once :
  forall (props : list (jsstring * JsValue)),
    NoDup (map fst (entries (VObject props)))
    /\ (forall k, In k (map fst (entries (VObject props)))
                  <-> In k (map fst props))
    /\ (forall k v, In (k, v) (entries (VObject props)) ->
                    own_prop props k = Some v /\ In (k, v) props)
    /\ exists indices others,
         map fst (entries (VObject props)) = indices ++ others
         /\ Forall (fun k => is_array_index k = true) indices
         /\ StronglySorted (fun a b => (index_value a <= index_value b)%N)
                           indices
         /\ others = filter (fun k => negb (is_array_index k))
                            (own_keys props []).
Proof.
  intro props. cbn [entries]. rewrite map_map. cbn [fst]. rewrite map_id.
  set (keys := own_keys props []).
  set (cmp := fun a b : jsstring =>
                (Z.of_N (index_value a) - Z.of_N (index_value b))%Z).
  pose proof (sort_perm cmp (filter is_array_index keys)) as Hperm.
  assert (forall k, In k (sort cmp (filter is_array_index keys)
                          ++ filter (fun k => negb (is_array_index k)) keys)
                    <-> In k (map fst props)) as Hin.
  { intro k. rewrite in_app_iff. split.
    - intros [H|H].
      + apply (Permutation_in _ Hperm) in H. apply filter_In in H.
        destruct H as [H _]. apply own_keys_In in H. tauto.
      + apply filter_In in H. destruct H as [H _].
        apply own_keys_In in H. tauto.
    - intro H. assert (In k keys) as Hk
        by (apply own_keys_In; split; [exact H | intros []]).
      destruct (is_array_index k) eqn:E.
      + left. apply (Permutation_in _ (Permutation_sym Hperm)).
        apply filter_In. split; assumption.
      + right. apply filter_In. split; [exact Hk | rewrite E; reflexivity]. }
  split; [|split; [exact Hin|split]].
  - apply NoDup_app.
    + eapply Permutation_NoDup; [apply Permutation_sym, Hperm|].
      apply NoDup_filter, own_keys_NoDup.
    + apply NoDup_filter, own_keys_NoDup.
    + intros k H1 H2. apply (Permutation_in _ Hperm) in H1.
      apply filter_In in H1, H2. destruct H1 as [_ H1], H2 as [_ H2].
      rewrite H1 in H2. discriminate.
  - intros k v H. apply in_map_iff in H. destruct H as [k' [E Hk]].
    injection E as -> <-.
    destruct (own_prop_some props k) as [w Hw]; [apply Hin; exact Hk|].
    rewrite Hw. split; [reflexivity | apply own_prop_In; exact Hw].
  - exists (sort cmp (filter is_array_index keys)),
           (filter (fun k => negb (is_array_index k)) keys).
    split; [reflexivity|]. split; [|split; [|reflexivity]].
    + apply Forall_forall. intros k H. apply (Permutation_in _ Hperm) in H.
      apply filter_In in H. tauto.
    + pose proof (@sort_sorted jsstring cmp (fun k => Z.of_N (index_value k))
                    (fun a b => index_cmp_key a b)
                    (filter is_array_index keys)) as Hs.
      apply (@StronglySorted_impl _ _ _ _ Hs). cbn. intros; lia.
Qed.

(* ================================================================== *)
(** * Links in the text *)
(* ================================================================== *)

Import MarkdownLinks LinkNotions.

Section Links.

Lemma strip_prefix_app p s : strip_prefix p (p ++ s) = Some s.
Proof.
  induction p as [|c r IH]; [destruct s; reflexivity|].
  cbn [app strip_prefix]. rewrite N.eqb_refl. exact IH.
Qed.

Lemma strip_prefix_split p : forall s r,
  strip_prefix p s = Some r -> s = p ++ r.
Proof.
  induction p as [|c p IH]; intros s r H.
  - destruct s; injection H as <-; reflexivity.
  - destruct s as [|d s]; [discriminate|]. cbn [strip_prefix] in H.
    destruct (N.eqb_spec c d) as [->|_]; [|discriminate].
    cbn [app]. f_equal. apply IH. exact H.
Qed.

Lemma match_scheme_split s sch r :
  match_scheme s = Some (sch, r) -> s = sch ++ r /\ scheme sch.
Proof.
  unfold match_scheme. intro H.
  destruct (strip_prefix (lit "https://") s) as [r1|] eqn:E1.
  - injection H as <- <-. split; [apply strip_prefix_split; exact E1|].
    right. reflexivity.
  - destruct (strip_prefix (lit "http://") s) as [r2|] eqn:E2; [|discriminate].
    injection H as <- <-. split; [apply strip_prefix_split; exact E2|].
    left. reflexivity.
Qed.

Lemma match_scheme_app sch r :
  scheme sch -> match_scheme (sch ++ r) = Some (sch, r).
Proof. intros [->| ->]; reflexivity. Qed.

Lemma scheme_colon sch : scheme sch -> In 58%N sch.
Proof. intros [->| ->]; cbn; tauto. Qed.

Lemma match_scheme_colon s : ~ In 58%N s -> match_scheme s = None.
Proof.
  intro H. destruct (match_scheme s) as [[sch r]|] eqn:E; [|reflexivity].
  exfalso. apply match_scheme_split in E. destruct E as [-> Hs].
  apply H. apply in_or_app. left. apply scheme_colon. exact Hs.
Qed.

Lemma span_split p s : forall a b, span p s = (a, b) -> s = a ++ b.
Proof.
  induction s as [|c r IH]; intros a b H; cbn [span] in H.
  - injection H as <- <-. reflexivity.
  - destruct (p c).
    + destruct (span p r) as [a' b'] eqn:E. injection H as <- <-.
      cbn [app]. f_equal. apply IH. reflexivity.
    + injection H as <- <-. reflexivity.
Qed.

Lemma span_app p a b :
  forallb p a = true ->
  match b with [] => True | c :: _ => p c = false end ->
  span p (a ++ b) = (a, b).
Proof.
  intros Ha Hb. induction a as [|c r IH]; cbn [app].
  - destruct b as [|c r]; [reflexivity|]. cbn [span]. rewrite Hb. reflexivity.
  - cbn [forallb] in Ha. apply andb_prop in Ha. destruct Ha as [Hc Hr].
    cbn [span]. rewrite Hc, (IH Hr). reflexivity.
Qed.

(** A match of the link expression starts with an opening bracket, holds a
    colon, and is a prefix of the text. *)
Lemma match_link_split s m r :
  match_link s = Some (m, r) ->
  s = m ++ r /\ (exists t, s = 91%N :: t) /\ In 58%N s /\ m <> [].
Proof.
  unfold match_link. destruct s as [|c s]; [discriminate|].
  destruct (N.eqb_spec c 91) as [->|_]; [|discriminate].
  destruct (span _ s) as [label r1] eqn:E1.
  destruct label as [|l0 label]; [discriminate|].
  destruct r1 as [|c1 [|c2 r2]]; try discriminate.
  destruct (N.eqb_spec c1 93) as [->|_]; [|discriminate].
  destruct (N.eqb_spec c2 40) as [->|_]; [|discriminate]. cbn [andb].
  destruct (match_scheme r2) as [[sch r3]|] eqn:E2; [|discriminate].
  destruct (span _ r3) as [target r4] eqn:E3.
  destruct target as [|t0 target]; [discriminate|].
  destruct r4 as [|c3 r5]; [discriminate|].
  intro H. injection H as <- <-.
  apply span_split in E1, E3. apply match_scheme_split in E2.
  destruct E2 as [E2 Hs]. subst.
  split; [|split; [eexists; reflexivity | split; [|discriminate]]].
  - repeat (progress cbn [app] || rewrite <- app_assoc). reflexivity.
  - right. apply in_or_app. right. right. right.
    apply in_or_app. left. apply scheme_colon. exact Hs.
Qed.

Lemma match_link_none s :
  ~ In 58%N s \/ ~ In 91%N s -> match_link s = None.
Proof.
  intro H. destruct (match_link s) as [[m r]|] eqn:E; [|reflexivity].
  apply match_link_split in E. destruct E as [_ [[t ->] [Hc _]]].
  exfalso. destruct H as [H|H]; apply H; [exact Hc | left; reflexivity].
Qed.

Lemma match_link_head c t : c <> 91%N -> match_link (c :: t) = None.
Proof.
  intro H. unfold match_link.
  destruct (N.eqb_spec c 91) as [E|_]; [contradiction | reflexivity].
Qed.

Lemma match_link_app label sch target post :
  well_formed_link label sch target ->
  match_link (markdown_link label sch target ++ post)
  = Some (markdown_link label sch target, post).
Proof.
  intros [Hl [Hl' [Hs [Ht Ht']]]]. unfold markdown_link, match_link.
  cbn [app N.eqb Pos.eqb].
  rewrite <- app_assoc. cbn [app].
  rewrite (span_app (fun x => negb (x =? 93)%N) label
             (93%N :: 40%N :: (sch ++ target ++ [41%N]) ++ post)).
  - destruct label as [|l0 label]; [congruence|].
    cbn [N.eqb Pos.eqb andb]. rewrite <- app_assoc.
    rewrite (match_scheme_app _ Hs). rewrite <- app_assoc. cbn [app].
    rewrite (span_app (fun x => negb (x =? 41)%N) target (41%N :: post)).
    + destruct target as [|t0 target]; [congruence|]. reflexivity.
    + apply forallb_forall. intros x Hx. apply negb_true_iff, N.eqb_neq.
      intros ->. contradiction.
    + reflexivity.
  - apply forallb_forall. intros x Hx. apply negb_true_iff, N.eqb_neq.
    intros ->. contradiction.
  - reflexivity.
Qed.

Lemma match_url_none s : ~ In 58%N s -> match_url s = None.
Proof.
  intro H. unfold match_url. rewrite match_scheme_colon by exact H.
  reflexivity.
Qed.

Lemma match_url_app sch body post :
  scheme sch -> body <> [] -> forallb in_url body = true -> ends_url post ->
  match_url (sch ++ body ++ post) = Some (sch ++ body, post).
Proof.
  intros Hs Hb Hok Hp. unfold match_url. rewrite (match_scheme_app _ Hs).
  change (fun x : N => negb (is_space x) && negb (x =? 41)%N) with in_url.
  rewrite (span_app in_url body post Hok).
  - destruct body; [congruence | reflexivity].
  - destruct post; [exact I | exact Hp].
Qed.

(** ** The two searches *)

Lemma not_in_tail (A : Type) (x c : A) r : ~ In x (c :: r) -> ~ In x r.
Proof. intros H Hin. apply H. right. exact Hin. Qed.

Lemma protect_from_plain s : forall skip index,
  ~ In 58%N s \/ ~ In 91%N s ->
  protect_from s skip index = (skipn skip s, []).
Proof.
  induction s as [|c r IH]; intros skip index H; [destruct skip; reflexivity|].
  assert (~ In 58%N r \/ ~ In 91%N r) as Hr
    by (destruct H as [H|H]; [left | right]; apply (not_in_tail H)).
  cbn [protect_from]. destruct skip as [|k]; [|apply IH; exact Hr].
  rewrite (match_link_none _ H), (IH 0 index Hr). reflexivity.
Qed.

Lemma protect_from_skip a : forall b index,
  protect_from (a ++ b) (List.length a) index = protect_from b 0 index.
Proof.
  induction a as [|c r IH]; intros b index; [reflexivity|].
  cbn [app List.length protect_from]. apply IH.
Qed.

Lemma protect_from_app pre : forall s index,
  ~ In 91%N pre ->
  protect_from (pre ++ s) 0 index
  = (pre ++ fst (protect_from s 0 index), snd (protect_from s 0 index)).
Proof.
  induction pre as [|c r IH]; intros s index H.
  - cbn [app]. destruct (protect_from s 0 index). reflexivity.
  - cbn [app protect_from].
    rewrite match_link_head by (intro E; apply H; left; exact E).
    rewrite (IH s index (not_in_tail H)). reflexivity.
Qed.

Lemma link_urls_from_plain s : forall skip,
  ~ In 58%N s -> link_urls_from s skip = skipn skip s.
Proof.
  induction s as [|c r IH]; intros skip H; [destruct skip; reflexivity|].
  cbn [link_urls_from]. destruct skip as [|k]; [|apply IH, (not_in_tail H)].
  rewrite (match_url_none _ H), (IH 0 (not_in_tail H)). reflexivity.
Qed.

Lemma link_urls_from_skip a : forall b,
  link_urls_from (a ++ b) (List.length a) = link_urls_from b 0.
Proof.
  induction a as [|c r IH]; intro b; [reflexivity|].
  cbn [app List.length link_urls_from]. apply IH.
Qed.

(** ** The restoring *)

Lemma find_sub_eq pattern s :
  find_sub pattern s
  = match strip_prefix pattern s with
    | Some after => Some ([], after)
    | None =>
        match s with
        | [] => None
        | c :: r =>
            match find_sub pattern r with
            | Some (before, after) => Some (c :: before, after)
            | None => None
            end
        end
    end.
Proof. destruct s; reflexivity. Qed.

Lemma find_sub_app pattern p0 p pre post :
  pattern = p0 :: p -> ~ In p0 pre ->
  find_sub pattern (pre ++ pattern ++ post) = Some (pre, post).
Proof.
  intros E H. induction pre as [|c r IH].
  - cbn [app]. rewrite find_sub_eq, strip_prefix_app. reflexivity.
  - rewrite find_sub_eq. cbn [app].
    assert (strip_prefix pattern (c :: r ++ pattern ++ post) = None) as ->.
    { rewrite E. cbn [strip_prefix].
      destruct (N.eqb_spec p0 c) as [->|_]; [|reflexivity].
      exfalso. apply H. left. reflexivity. }
    rewrite (IH (not_in_tail H)). reflexivity.
Qed.

Lemma substitution_plain template matched before after :
  ~ In 36%N template -> substitution template matched before after = template.
Proof.
  induction template as [|c r IH]; intro H; [reflexivity|].
  cbn [substitution]. destruct r as [|d r']; [reflexivity|].
  destruct (N.eqb_spec c 36) as [->|_]; [exfalso; apply H; left; reflexivity|].
  rewrite (IH (not_in_tail H)). reflexivity.
Qed.

End Links.

Section Across.

(** No match of a scheme starts in a text without a colon that a scheme
    follows. *)
Lemma match_scheme_across u sch rest :
  u <> [] -> ~ In 58%N u -> scheme sch ->
  match_scheme (u ++ sch ++ rest) = None.
Proof.
  intros Hu Hc Hs.
  destruct (match_scheme (u ++ sch ++ rest)) as [[m r]|] eqn:E; [|reflexivity].
  exfalso. unfold match_scheme in E.
  destruct Hs as [-> | ->];
    change (lit "https://") with [104; 116; 116; 112; 115; 58; 47; 47]%N in *;
    change (lit "http://") with [104; 116; 116; 112; 58; 47; 47]%N in *;
    (destruct u as [|u0 [|u1 [|u2 [|u3 [|u4 [|u5 u]]]]]]; [congruence| | | | | |]);
    cbn [app strip_prefix] in E;
    repeat match type of E with
           | context [(?a =? ?b)%N] =>
               destruct (N.eqb_spec a b);
               try congruence; try subst;
               try discriminate E; try (apply Hc; cbn; tauto)
           end.
Qed.

Lemma link_urls_from_app pre sch rest :
  ~ In 58%N pre -> scheme sch ->
  link_urls_from (pre ++ sch ++ rest) 0
  = pre ++ link_urls_from (sch ++ rest) 0.
Proof.
  intros H Hs. induction pre as [|c r IH]; [reflexivity|].
  cbn [app link_urls_from]. unfold match_url.
  change (c :: r ++ sch ++ rest) with ((c :: r) ++ sch ++ rest).
  rewrite (@match_scheme_across (c :: r) sch rest); [|discriminate|exact H|exact Hs].
  cbn [app]. rewrite (IH (not_in_tail H)). reflexivity.
Qed.

End Across.

Section AutoLink.

Lemma autoLink_no_link text :
  ~ In 58%N text \/ ~ In 91%N text ->
  autoLinkMarkdown text = link_urls_from text 0.
Proof.
  intro H. unfold autoLinkMarkdown.
  rewrite (@protect_from_plain text 0 0 H). reflexivity.
Qed.

Lemma link_urls_at_url sch body post :
  scheme sch -> body <> [] -> forallb in_url body = true -> ends_url post ->
  ~ In 58%N post ->
  link_urls_from (sch ++ body ++ post) 0
  = lit "[" ++ (sch ++ body) ++ lit "](" ++ (sch ++ body) ++ lit ")" ++ post.
Proof.
  intros Hs Hb Hok Hend Hpost.
  pose proof (@match_url_app sch body post Hs Hb Hok Hend) as Hm.
  assert (exists c r, sch ++ body = c :: r) as [c [r E]]
    by (destruct Hs as [-> | ->]; eexists; eexists; reflexivity).
  rewrite app_assoc in *. rewrite E in *. cbn [app link_urls_from].
  cbn [app] in Hm. rewrite Hm. cbn [List.length].
  replace (S (List.length r) - 1) with (List.length r) by lia.
  rewrite link_urls_from_skip, (@link_urls_from_plain post 0 Hpost).
  reflexivity.
Qed.

End AutoLink.

(** [autoLinkMarkdown] leaves a text without a colon as it is.  In a text
    without an opening bracket, a bare URL that follows a text without a
    colon is wrapped into a link to itself: the URL starts with one of the
    two schemes and goes on up to the end of the text, white space or a
    closing parenthesis, which it leaves out.  What follows stays as it is
    when it has no colon.  With an opening bracket in the URL this is not
    so: the search for links that are there already runs first and may cut
    a piece out of the URL; and a second run over the result wraps a URL
    that holds a closing bracket once more. *)
Theorem bare_url_becomes_a_link :
  (forall text, ~ In 58%N text -> autoLinkMarkdown text = text)
  /\ (forall pre sch body post,
        scheme sch -> body <> [] -> forallb in_url body = true ->
        ends_url post ->
        ~ In 58%N pre -> ~ In 58%N post ->
        ~ In 91%N (pre ++ sch ++ body ++ post) ->
        autoLinkMarkdown (pre ++ sch ++ body ++ post)
        = pre ++ lit "[" ++ (sch ++ body) ++ lit "](" ++ (sch ++ body)
          ++ lit ")" ++ post)
  /\ autoLinkMarkdown (lit "see (https://a.b/c?d=1) now")
     = lit "see ([https://a.b/c?d=1](https://a.b/c?d=1)) now"
  /\ autoLinkMarkdown (lit "http://a[b](http://c)")
     = lit "[http://a[b](http://c)](http://a__MDLINK_0__)"
  /\ autoLinkMarkdown (lit "http://a]b") = lit "[http://a]b](http://a]b)"
  /\ autoLinkMarkdown (autoLinkMarkdown (lit "http://a]b"))
     = lit "[[http://a]b](http://a]b](http://a]b](http://a]b))".
Proof.
  split; [|split; [|repeat split]].
  - intros text H. rewrite autoLink_no_link by (left; exact H).
    apply (@link_urls_from_plain text 0 H).
  - intros pre sch body post Hs Hb Hok Hend Hpre Hpost Hbr.
    rewrite autoLink_no_link by (right; exact Hbr).
    rewrite (@link_urls_from_app pre sch (body ++ post) Hpre Hs).
    rewrite (@link_urls_at_url sch body post Hs Hb Hok Hend Hpost). reflexivity.
Qed.

(** A Markdown link that is there already is taken out before the bare
    URLs are wrapped and put back afterwards, so its target is not wrapped.
    It is put back by [replace] with the link as the replacement text, in
    which a dollar sign followed by a dollar sign, an ampersand, a grave
    accent or an apostrophe is a pattern: the link comes back as it was
    exactly when it holds no such pair, as when it holds no dollar sign.
    And it is put back at the first occurrence of its placeholder: a text
    that spells the placeholder before the link gets the link there. *)
Theorem markdown_link_is_kept :
  forall (pre label sch target post : jsstring),
    well_formed_link label sch target ->
    ~ In 91%N pre -> ~ In 58%N pre -> ~ In 95%N pre -> ~ In 58%N post ->
    autoLinkMarkdown (pre ++ markdown_link label sch target ++ post)
    = pre
      ++ substitution (markdown_link label sch target) (placeholder_of 0)
           pre post
      ++ post
    /\ (~ In 36%N (markdown_link label sch target) ->
        autoLinkMarkdown (pre ++ markdown_link label sch target ++ post)
        = pre ++ markdown_link label sch target ++ post).
Proof.
  intros pre label sch target post Hwf Hbr Hpre Hus Hpost.
  assert (autoLinkMarkdown (pre ++ markdown_link label sch target ++ post)
          = pre
            ++ substitution (markdown_link label sch target) (placeholder_of 0)
                 pre post
            ++ post) as Hmain.
  { unfold autoLinkMarkdown.
    rewrite (@protect_from_app pre _ 0 Hbr).
    assert (protect_from (markdown_link label sch target ++ post) 0 0
            = (placeholder_of 0 ++ post,
               [{| placeholder := placeholder_of 0;
                   original := markdown_link label sch target |}])) as ->.
    { pose proof (@match_link_app label sch target post Hwf) as Hm.
      remember (markdown_link label sch target) as link eqn:El.
      assert (exists c r, link = c :: r) as [c [r E]]
        by (rewrite El; eexists; eexists; reflexivity).
      rewrite E in *. cbn [app protect_from]. cbn [app] in Hm. rewrite Hm.
      cbn [List.length].
      replace (S (List.length r) - 1) with (List.length r) by lia.
      rewrite protect_from_skip.
      rewrite (@protect_from_plain post 0 1) by (left; exact Hpost).
      reflexivity. }
    cbn [fst snd fold_left placeholder original].
    rewrite link_urls_from_plain.
    - cbn [skipn]. unfold replace_first.
      rewrite (@find_sub_app (placeholder_of 0) 95%N
                 (lit "_MDLINK_0__") pre post eq_refl Hus).
      reflexivity.
    - intro Hin. apply in_app_or in Hin. destruct Hin as [Hin|Hin];
        [contradiction|].
      apply in_app_or in Hin. destruct Hin as [Hin|Hin]; [|contradiction].
      cbn in Hin. repeat (destruct Hin as [Hin|Hin]; [discriminate Hin|]).
      exact Hin. }
  split; [exact Hmain|].
  intro Hd. rewrite Hmain, substitution_plain by exact Hd. reflexivity.
Qed.

Lemma markdown_link_is_kept_witness :
  autoLinkMarkdown (lit "see [the docs](https://a.b/c) and more")
  = lit "see [the docs](https://a.b/c) and more".
Proof.
  destruct (@markdown_link_is_kept (lit "see ") (lit "the docs")
              (lit "https://") (lit "a.b/c") (lit " and more")) as [_ H].
  - repeat split; try discriminate.
    + cbn. intuition discriminate.
    + right. reflexivity.
    + cbn. intuition discriminate.
  - cbn. intuition discriminate.
  - cbn. intuition discriminate.
  - cbn. intuition discriminate.
  - cbn. intuition discriminate.
  - apply H. cbn. intuition discriminate.
Defined.

(** Outside the conditions of [markdown_link_is_kept]: a link that holds
    two dollar signs in a row loses one of them, and a text that spells the
    placeholder of a link before the link changes places with it. *)
Lemma restoring_rewrites_some_links :
  autoLinkMarkdown (lit "[a$$b](http://x)") = lit "[a$b](http://x)"
  /\ autoLinkMarkdown (lit "[price $&](http://x)")
     = lit "[price __MDLINK_0__](http://x)"
  /\ autoLinkMarkdown (lit "__MDLINK_0__ [a](http://x)")
     = lit "[a](http://x) __MDLINK_0__".
Proof. repeat split. Qed.

(* ================================================================== *)
(** * The upload dialog *)
(* ================================================================== *)

Import UploadModal UploadNotions.

Section Extension.

Lemma until_dot_plain a : ~ In 46%N a -> until_dot a = a.
Proof.
  induction a as [|c r IH]; intro H; [reflexivity|]. cbn [until_dot].
  destruct (N.eqb_spec c 46) as [->|_]; [exfalso; apply H; left; reflexivity|].
  rewrite IH; [reflexivity|]. intro Hin. apply H. right. exact Hin.
Qed.

Lemma until_dot_app a b : ~ In 46%N a -> until_dot (a ++ 46%N :: b) = a.
Proof.
  induction a as [|c r IH]; intro H; [reflexivity|]. cbn [app until_dot].
  destruct (N.eqb_spec c 46) as [->|_]; [exfalso; apply H; left; reflexivity|].
  rewrite IH; [reflexivity|]. intro Hin. apply H. right. exact Hin.
Qed.

Lemma after_last_dot_plain s : ~ In 46%N s -> after_last_dot s = s.
Proof.
  intro H. unfold after_last_dot. rewrite until_dot_plain.
  - apply rev_involutive.
  - intro Hin. apply H. apply in_rev. exact Hin.
Qed.

Lemma after_last_dot_app pre ext :
  ~ In 46%N ext -> after_last_dot (pre ++ 46%N :: ext) = ext.
Proof.
  intro H. unfold after_last_dot.
  rewrite rev_app_distr. cbn [rev]. rewrite <- app_assoc. cbn [app].
  rewrite until_dot_app.
  - apply rev_involutive.
  - intro Hin. apply H. apply in_rev. exact Hin.
Qed.

Lemma last_dot s :
  ~ In 46%N s \/ exists pre ext, s = pre ++ 46%N :: ext /\ ~ In 46%N ext.
Proof.
  induction s as [|c r IH]; [left; intros []|].
  destruct IH as [Hr|[pre [ext [-> Hext]]]].
  - destruct (N.eq_dec c 46) as [->|Hc].
    + right. exists [], r. split; [reflexivity | exact Hr].
    + left. intros [E|Hin]; [congruence | contradiction].
  - right. exists (c :: pre), ext. split; [reflexivity | exact Hext].
Qed.

Lemma split_plain s : ~ In 46%N s -> split 46 s = [s].
Proof.
  induction s as [|c r IH]; intro H; [reflexivity|]. cbn [split].
  destruct (N.eqb_spec c 46) as [->|_]; [exfalso; apply H; left; reflexivity|].
  rewrite IH; [reflexivity|]. intro Hin. apply H. right. exact Hin.
Qed.

Lemma split_app pre ext :
  exists init, init <> [] /\ split 46 (pre ++ 46%N :: ext) = init ++ split 46 ext.
Proof.
  induction pre as [|c r [init [Hne E]]].
  - exists [[]]. split; [discriminate | reflexivity].
  - cbn [app split]. rewrite E.
    destruct (c =? 46)%N.
    + exists ([] :: init). split; [discriminate | reflexivity].
    + destruct init as [|l ls]; [congruence|].
      exists ((c :: l) :: ls). split; [discriminate | reflexivity].
Qed.

(** [name.split('.').pop()] is what follows the last full stop of the
    name. *)
Lemma split_pop s : snd (pop (split 46 s)) = Some (after_last_dot s).
Proof.
  destruct (last_dot s) as [H|[pre [ext [-> H]]]].
  - rewrite split_plain, after_last_dot_plain by exact H. reflexivity.
  - destruct (split_app pre ext) as [init [_ ->]].
    rewrite split_plain, after_last_dot_app by exact H.
    rewrite pop_snoc. reflexivity.
Qed.

Context {EN : Engine}.

Lemma fileExt_eq file :
  fileExt file = 46%N :: toLowerCase (after_last_dot (name file)).
Proof. unfold fileExt. rewrite split_pop. reflexivity. Qed.

Lemma valid_type_iff file :
  valid_type file = true
  <-> In (46%N :: toLowerCase (after_last_dot (name file))) validExtensions.
Proof.
  unfold valid_type. rewrite fileExt_eq, existsb_exists. split.
  - intros [x [Hx E]]. apply str_eqb_eq in E. subst. exact Hx.
  - intro H. eexists. split; [exact H | apply str_eqb_refl].
Qed.

Lemma valid_size_iff file : valid_size file = true <-> (size file <= limit)%N.
Proof.
  unfold valid_size, limit. rewrite negb_true_iff, N.ltb_ge. reflexivity.
Qed.

Lemma accepted_iff file :
  accepted file <-> valid_type file = true /\ valid_size file = true.
Proof. unfold accepted. rewrite valid_type_iff, valid_size_iff. reflexivity. Qed.

End Extension.

(** The file the user chooses is checked before anything is sent.  Its
    type is what follows the last full stop of its name, in lower case; a
    name without a full stop counts as its own type.  A file is sent when
    that type is one of pdf, docx, pptx, txt and md and the file has at most
    20 * 1024 * 1024 bytes: the dialog then shows the upload of that file.
    Any other file is not sent, and the dialog shows an error that says
    which of the two checks failed, the type being checked first.  For a
    type written in ASCII the check does not depend on its case. *)
Theorem chosen_file_is_checked_before_it_is_sent :
  forall (EN : Engine) (P : Type) (file : File) (m : Modal P),
    fileExt file = 46%N :: toLowerCase (after_last_dot (name file))
    /\ (~ In 46%N (name file) -> after_last_dot (name file) = name file)
    /\ (forall pre ext, ~ In 46%N ext ->
          name file = pre ++ 46%N :: ext -> after_last_dot (name file) = ext)
    /\ (accepted file ->
        handleFileChange (Some file) m
        = post_upload file
            (setUploadStatus
               {| state := uploading; fileName := Some (name file);
                  fileSize := Some (size file); chunksCount := VUndefined;
                  message := VUndefined; progress := Some 0%N |} m))
    /\ (~ accepted file ->
        handleFileChange (Some file) m
        = setUploadStatus
            {| state := error; fileName := None; fileSize := None;
               chunksCount := VUndefined;
               message := VString (if valid_type file then too_large
                                   else unsupported_format);
               progress := None |} m)
    /\ handleFileChange None m = m
    /\ (lowers_ascii EN ->
        Forall (fun c => (c < 128)%N) (after_last_dot (name file)) ->
        (valid_type file = true
         <-> In (map ascii_lower (after_last_dot (name file)))
                (map lit ["pdf"; "docx"; "pptx"; "txt"; "md"]%string))).
Proof.
  intros EN P file m.
  split; [apply fileExt_eq|].
  split; [apply after_last_dot_plain|].
  split; [intros pre ext H ->; apply after_last_dot_app; exact H|].
  split; [|split; [|split; [reflexivity|]]].
  - intro H. apply accepted_iff in H. destruct H as [Ht Hs].
    unfold handleFileChange. rewrite Ht, Hs. reflexivity.
  - intro H. unfold handleFileChange.
    destruct (valid_type file) eqn:Ht; [|reflexivity].
    destruct (valid_size file) eqn:Hs; [|reflexivity].
    exfalso. apply H. apply accepted_iff. split; assumption.
  - intros Hlow Hascii. rewrite valid_type_iff, (Hlow _ Hascii).
    cbn [validExtensions map In]. split.
    + intros [E|[E|[E|[E|[E|[]]]]]]; injection E as E; rewrite <- E; cbn; auto 6.
    + intros [E|[E|[E|[E|[E|[]]]]]]; rewrite <- E; cbn; auto 6.
Qed.

Lemma chosen_file_is_checked_before_it_is_sent_example :
  @valid_type ascii_engine {| name := lit "report.final.PDF"; size := 1 |} = true
  /\ @valid_type ascii_engine {| name := lit "pdf"; size := 1 |} = true
  /\ @valid_type ascii_engine {| name := lit ".md"; size := 1 |} = true
  /\ @valid_type ascii_engine {| name := lit "sheet.xlsx"; size := 1 |} = false
  /\ @valid_type ascii_engine {| name := lit "README"; size := 1 |} = false
  /\ @valid_size {| name := lit "a.txt"; size := 20971520 |} = true
  /\ @valid_size {| name := lit "a.txt"; size := 20971521 |} = false.
Proof. repeat split. Qed.

Section Settled.
Context {NO : NumberOps} {EN : Engine}.
Variable P : Type.

Lemma catch_status file e (m : Modal P) :
  exists msg,
    msg <> []
    /\ handleFileChange_catch file e m
       = setUploadStatus
           {| state := error; fileName := Some (name file); fileSize := None;
              chunksCount := VUndefined; message := VString msg;
              progress := None |} m.
Proof.
  destruct e as [msg]. unfold handleFileChange_catch, or_else. cbn [truthy].
  destruct msg as [|c r].
  - exists upload_failed_retry. split; [discriminate | reflexivity].
  - exists (c :: r). split; [discriminate | reflexivity].
Qed.

Lemma settled_cases file result (m : Modal P) :
  match succeeds result with
  | Some (count, msg) =>
      handleFileChange_settled file result m
      = setTimeout
          (setUploadStatus
             {| state := success; fileName := Some (name file);
                fileSize := Some (size file); chunksCount := count;
                message := msg; progress := None |} m)
  | None =>
      exists text,
        text <> []
        /\ handleFileChange_settled file result m
           = setUploadStatus
               {| state := error; fileName := Some (name file);
                  fileSize := None; chunksCount := VUndefined;
                  message := VString text; progress := None |} m
  end.
Proof.
  destruct result as [e|ok [e|v]]; cbn [succeeds handleFileChange_settled].
  - apply catch_status.
  - destruct ok; apply catch_status.
  - destruct ok; cbn [negb].
    + destruct (get v (lit "chunks_count")) as [count|];
        [|apply catch_status].
      destruct (get v (lit "message")) as [msg|]; [reflexivity|].
      apply catch_status.
    + destruct (get v (lit "detail")); apply catch_status.
Qed.

End Settled.

(** When the request of an upload has ended, the dialog shows a success or
    an error, never the upload any more.  It shows the success exactly when
    the response is [ok] and its body is JSON other than [null]; it then
    holds the file, the count and the message of the body, and one timeout
    is set.  Every other ending gives an error with a text that is not
    empty and sets no timeout: the message of what was thrown, the [detail]
    of a response that is not [ok], "upload failed" when that response has
    no [detail], and "upload failed, please retry" when the message is
    empty, as it is for a [detail] that is an empty array.  Nothing is sent
    and the parent is left alone. *)
Theorem ended_request_shows_success_or_error :
  forall (NO : NumberOps) (EN : Engine) (P : Type) (file : File)
         (result : UploadResult) (m : Modal P),
    (match succeeds result with
     | Some (count, msg) =>
         uploadStatus (handleFileChange_settled file result m)
         = {| state := success; fileName := Some (name file);
              fileSize := Some (size file); chunksCount := count;
              message := msg; progress := None |}
         /\ timers (handleFileChange_settled file result m) = S (timers m)
     | None =>
         (exists text,
            text <> []
            /\ uploadStatus (handleFileChange_settled file result m)
               = {| state := error; fileName := Some (name file);
                    fileSize := None; chunksCount := VUndefined;
                    message := VString text; progress := None |})
         /\ timers (handleFileChange_settled file result m) = timers m
     end)
    /\ uploads (handleFileChange_settled file result m) = uploads m
    /\ pending (handleFileChange_settled file result m) = pending m
    /\ parent (handleFileChange_settled file result m) = parent m
    /\ (forall text json,
          text <> [] ->
          message (uploadStatus
                     (handleFileChange_settled file
                        (UploadRejected (MkError text)) m)) = VString text
          /\ message (uploadStatus
                        (handleFileChange_settled file
                           (UploadResponded true (JsonRejects (MkError text)))
                           m)) = VString text
          /\ message (uploadStatus
                        (handleFileChange_settled file
                           (UploadResponded false
                              (JsonResolves
                                 (VObject [(lit "detail", VString text)])))
                           m)) = VString text
          /\ message (uploadStatus
                        (handleFileChange_settled file
                           (UploadResponded false (JsonResolves (VObject [])))
                           m)) = VString upload_failed
          /\ message (uploadStatus
                        (handleFileChange_settled file
                           (UploadResponded false
                              (JsonResolves
                                 (VObject [(lit "detail", VArray [])])))
                           m)) = VString upload_failed_retry
          /\ state (uploadStatus
                      (handleFileChange_settled file
                         (UploadResponded true json) m))
             = match succeeds (UploadResponded true json) with
               | Some _ => success
               | None => error
               end).
Proof.
  intros NO EN P file result m.
  pose proof (settled_cases file result m) as H.
  split; [|split; [|split; [|split]]].
  - destruct (succeeds result) as [[count msg]|].
    + rewrite H. split; reflexivity.
    + destruct H as [text [Hne ->]]. split; [|reflexivity].
      exists text. split; [exact Hne | reflexivity].
  - destruct (succeeds result) as [[count msg]|];
      [rewrite H | destruct H as [text [_ ->]]]; reflexivity.
  - destruct (succeeds result) as [[count msg]|];
      [rewrite H | destruct H as [text [_ ->]]]; reflexivity.
  - destruct (succeeds result) as [[count msg]|];
      [rewrite H | destruct H as [text [_ ->]]]; reflexivity.
  - intros text json Hne. destruct text as [|c r]; [congruence|].
    repeat split.
    pose proof (settled_cases file (UploadResponded true json) m) as Hj.
    destruct (succeeds (UploadResponded true json)) as [[count msg]|];
      [rewrite Hj | destruct Hj as [t [_ ->]]]; reflexivity.
Qed.

Section Dialog.
Context {NO : NumberOps} {EN : Engine}.

Lemma remove_first_In file l rest :
  remove_first file l = Some rest -> forall f, In f rest -> In f l.
Proof.
  revert rest. induction l as [|x r IH]; intros rest H f Hf; [discriminate|].
  cbn [remove_first] in H. destruct (file_eqb file x).
  - injection H as <-. right. exact Hf.
  - destruct (remove_first file r) as [r'|]; [|discriminate].
    injection H as <-. destruct Hf as [<-|Hf]; [left; reflexivity|].
    right. apply (IH r' eq_refl f Hf).
Qed.

Lemma step_sound c e m m' : sound c m -> step e m = Some m' -> sound c m'.
Proof.
  intros [Hup [Hinf [Hpend [[k Hreq] [Hmsg Hsid]]]]] Hstep.
  destruct e; cbn [step] in Hstep.
  - (* Open *)
    injection Hstep as <-. repeat split; try assumption. exists k. exact Hreq.
  - (* Choose *)
    destruct (uploadModalOpen (parent m) && _); [|discriminate].
    injection Hstep as <-. destruct chosen as [file|];
      [|repeat split; try assumption; exists k; exact Hreq].
    unfold handleFileChange.
    destruct (valid_type file) eqn:Ht; cbn [negb];
      [destruct (valid_size file) eqn:Hs; cbn [negb]|].
    + repeat split; cbn; try assumption.
      * apply Forall_app. split; [exact Hup|]. constructor; [|constructor].
        apply accepted_iff. split; assumption.
      * eexists. eexists. split; reflexivity.
      * intros f Hf. apply in_app_iff in Hf. apply in_app_iff.
        destruct Hf as [Hf|Hf]; [left; apply Hpend; exact Hf | right; exact Hf].
      * exists k. exact Hreq.
    + repeat split; cbn; try assumption.
      * eexists. split; [reflexivity | discriminate].
      * exists k. exact Hreq.
    + repeat split; cbn; try assumption.
      * eexists. split; [reflexivity | discriminate].
      * exists k. exact Hreq.
  - (* Settle *)
    destruct (remove_first file (pending m)) as [rest|] eqn:Hrem; [|discriminate].
    injection Hstep as <-.
    match goal with
    | |- sound c (handleFileChange_settled file result ?m0) =>
        pose proof (settled_cases file result m0) as H
    end.
    destruct (succeeds result) as [[count msg]|];
      [rewrite H | destruct H as [text [Hne ->]]];
      (repeat split; cbn; try assumption;
       [ | intros f Hf; apply Hpend; apply (remove_first_In _ _ Hrem f Hf)
         | exists k; exact Hreq ]).
    + eexists. eexists. split; reflexivity.
    + exists text. split; [reflexivity | exact Hne].
  - (* TimerFires *)
    destruct (timers m) as [|n]; [discriminate|]. injection Hstep as <-.
    repeat split; cbn; try assumption.
    exists (S k). rewrite Hreq, <- app_assoc. f_equal.
    change (GetAllConversations :: repeat GetAllConversations k)
      with (repeat GetAllConversations (S k)).
    symmetry. apply (repeat_cons k GetAllConversations).
  - (* Close *)
    destruct (uploadModalOpen (parent m)); [|discriminate].
    injection Hstep as <-. repeat split; cbn; try assumption.
    exists k. exact Hreq.
  - (* Retry *)
    destruct (uploadModalOpen (parent m) && _); [|discriminate].
    injection Hstep as <-. repeat split; cbn; try assumption.
    exists k. exact Hreq.
Qed.

Lemma steps_sound c events : forall m m',
  sound c m -> steps events m = Some m' -> sound c m'.
Proof.
  induction events as [|e r IH]; intros m m' Hm Hs; cbn [steps] in Hs.
  - injection Hs as <-. exact Hm.
  - destruct (step e m) as [m1|] eqn:He; [|discriminate].
    apply (IH m1 m'); [eapply step_sound; eassumption | exact Hs].
Qed.

Lemma mounted_sound c : sound c (mounted_modal c).
Proof.
  repeat split; cbn; try constructor.
  - intros f [].
  - exists 0. symmetry. apply app_nil_r.
Qed.

End Dialog.

(** Whatever the user and the network do, a file is sent only if it passed
    both checks; the status always says what it shows (an error has a text
    that is not empty, an upload and a success name the file); and the
    dialog does nothing to the chat but ask for the conversation list: the
    transcript and the session stay as they are. *)
Theorem only_checked_files_are_uploaded :
  forall (NO : NumberOps) (EN : Engine) (events : list Event)
         (c : ChatState) (m : Modal Page),
    steps events (mounted_modal c) = Some m ->
    Forall accepted (uploads m)
    /\ informative (uploadStatus m)
    /\ (forall f, In f (pending m) -> In f (uploads m))
    /\ (exists k, requests (chat (parent m))
                  = requests c ++ repeat GetAllConversations k)
    /\ messages (chat (parent m)) = messages c
    /\ sessionId (chat (parent m)) = sessionId c.
Proof.
  intros NO EN events c m H.
  apply (steps_sound events (mounted_sound c) H).
Qed.

Lemma only_checked_files_are_uploaded_witness :
  exists m : Modal Page,
    @steps as_written ascii_engine
      [ Open; Choose (Some {| name := lit "sheet.xlsx"; size := 10 |}); Retry;
        Choose (Some notes_md) ] (mounted_modal initial) = Some m
    /\ uploads m = [notes_md]
    /\ Forall (@accepted ascii_engine) (uploads m).
Proof.
  eexists. split; [reflexivity|]. split; [reflexivity|].
  apply (@only_checked_files_are_uploaded as_written ascii_engine
           [ Open; Choose (Some {| name := lit "sheet.xlsx"; size := 10 |});
             Retry; Choose (Some notes_md) ] initial _ eq_refl).
Defined.

(** The timeout a success sets closes the dialog, resets it to idle and
    asks for the conversation list whatever the dialog shows when it runs.
    It cancels nothing: an upload chosen in the meantime goes on, and when
    its request ends the closed dialog takes its result.  So after a first
    success, closing the dialog, opening it again and choosing a second
    file within the three seconds makes the dialog close during the second
    upload. *)
Theorem timeout_closes_the_dialog_whatever_it_shows :
  forall (NO : NumberOps) (EN : Engine) (m : Modal Page) (n : nat),
    timers m = S n ->
    exists m',
      step TimerFires m = Some m'
      /\ uploadStatus m' = idle_status
      /\ uploadModalOpen (parent m') = false
      /\ chat (parent m') = loadAll (chat (parent m))
      /\ pending m' = pending m
      /\ uploads m' = uploads m
      /\ timers m' = n
      /\ forall file result,
           In file (pending m') ->
           exists m'',
             step (Settle file result) m' = Some m''
             /\ state (uploadStatus m'') <> idle
             /\ uploadModalOpen (parent m'') = false.
Proof.
  intros NO EN m n Ht. cbn [step]. rewrite Ht. eexists.
  split; [reflexivity|]. cbn. repeat split.
  intros file result Hin.
  assert (exists rest, remove_first file (pending m) = Some rest) as [rest Hr].
  { clear -Hin. induction (pending m) as [|x r IH]; [destruct Hin|].
    cbn [remove_first]. destruct (file_eqb file x) eqn:E; [eexists; reflexivity|].
    destruct Hin as [->|Hin].
    - unfold file_eqb in E. rewrite str_eqb_refl, N.eqb_refl in E. discriminate.
    - destruct (IH Hin) as [rest ->]. eexists. reflexivity. }
  cbn [step pending]. rewrite Hr. eexists. split; [reflexivity|].
  match goal with
  | |- context [handleFileChange_settled file result ?m0] =>
      pose proof (settled_cases file result m0) as H
  end.
  destruct (succeeds result) as [[count msg]|];
    [rewrite H | destruct H as [text [_ ->]]]; split;
    cbn; try discriminate; reflexivity.
Qed.

Lemma timeout_closes_the_dialog_whatever_it_shows_witness :
  exists m m' : Modal Page,
    @steps as_written ascii_engine second_upload (mounted_modal initial)
    = Some m
    /\ state (uploadStatus m) = uploading
    /\ uploadModalOpen (parent m) = true
    /\ pending m = [slides]
    /\ @step as_written ascii_engine TimerFires m = Some m'
    /\ uploadStatus m' = idle_status
    /\ uploadModalOpen (parent m') = false
    /\ pending m' = [slides].
Proof.
  eexists.
  destruct (@timeout_closes_the_dialog_whatever_it_shows as_written
              ascii_engine
              {| uploadStatus :=
                   {| state := uploading; fileName := Some (name slides);
                      fileSize := Some (size slides);
                      chunksCount := VUndefined; message := VUndefined;
                      progress := Some 0%N |};
                 parent := {| chat := initial; uploadModalOpen := true |};
                 uploads := [notes_md; slides]; pending := [slides];
                 timers := 1 |} 0 eq_refl)
    as [m' [H1 [H2 [H3 [_ [H4 _]]]]]].
  exists m'.
  split; [reflexivity|]. split; [reflexivity|]. split; [reflexivity|].
  split; [reflexivity|]. split; [exact H1|]. split; [exact H2|].
  split; [exact H3 | exact H4].
Defined.
